(** * py_aps_smps: combination of SMPS and APS size distributions

    A shallow embedding of [py_aps_smps/lib/sd_processing/structure.py]:
    [calc_bin_boundaries], [get_channel_resolution] and
    [combine_SMPS_APS_sd] with its nested helpers, and of the lognormal
    functions of [py_aps_smps/lib/sd_processing/distributions.py],
    followed by the properties of the combination engine and of these
    functions.

    Numbers.  The diameter columns ([dpes], [dpes_lower], [dpes_upper]) are
    rationals; the value columns ([dn], [dndlogd]) are [option Q], where
    [None] is a float that is not a finite number: the NaN of a missing
    cell on input and in the rows that the gap branch inserts, the outcome
    of a division by zero later on.  Arithmetic on the frames is exact: the
    rounding of IEEE doubles is not modelled there.  numpy's [log10] and
    the power [10 ** x] are parameters of the development
    ([Section Combine]).  [calc_bin_boundaries] is embedded in double
    precision ([Module Boundaries]): each operation rounds to the nearest
    double, and the power and the division raise as Python's do.  The
    lognormal functions are embedded over the real numbers
    ([Module Distributions]).

    Frames.  A [pandas.DataFrame] whose index was reset is a list of rows,
    the index label of a row being its position; an empty list is a frame
    that has its columns and no row.

    Exceptions.  A function that can raise returns a [result]; the
    exceptions are those that the code can raise on such frames. *)

From Stdlib Require Import QArith Qround Qabs Qminmax Qpower Psatz List Bool.
From Stdlib Require Import Sorting.Mergesort Sorting.Sorted Permutation.
From Stdlib Require Reals.
From stdpp Require Import list sorting.
Import ListNotations.

Open Scope Q_scope.

(** ** Exceptions *)

Inductive Exn : Type :=
| ValueError
| AssertionError
| IndexError.

Inductive result (A : Type) : Type :=
| Ok (a : A)
| Raise (e : Exn).

Arguments Ok {A} a.
Arguments Raise {A} e.

#[global] Instance result_ret : MRet result := fun A a => Ok a.
#[global] Instance result_bind : MBind result := fun A B f m =>
  match m with
  | Ok a => f a
  | Raise e => Raise e
  end.

(** ** Float columns *)

Abbreviation float := (option Q).

Definition fl (q : Q) : float := Some q.

Definition fadd (a b : float) : float :=
  match a, b with
  | Some x, Some y => Some (x + y)
  | _, _ => None
  end.

Definition fsub (a b : float) : float :=
  match a, b with
  | Some x, Some y => Some (x - y)
  | _, _ => None
  end.

Definition fmul (a b : float) : float :=
  match a, b with
  | Some x, Some y => Some (x * y)
  | _, _ => None
  end.

(** numpy scalars do not raise on a zero divisor, the quotient is [inf] or
    [nan]: not a finite number. *)
Definition fdiv (a b : float) : float :=
  match a, b with
  | Some x, Some y => if Qeq_bool y 0 then None else Some (x / y)
  | _, _ => None
  end.

Declare Scope fl_scope.
Delimit Scope fl_scope with fl.
Infix "+" := fadd : fl_scope.
Infix "-" := fsub : fl_scope.
Infix "*" := fmul : fl_scope.
Infix "/" := fdiv : fl_scope.

(** Equality of floats up to the representation of the rational. *)
Definition feq (a b : float) : Prop :=
  match a, b with
  | Some x, Some y => x == y
  | None, None => True
  | _, _ => False
  end.

Definition Qlt_bool (x y : Q) : bool := negb (Qle_bool y x).

(** ** Rows and frames *)

Inductive Flag : Type := aps | smps | interpolated | merged.

Definition Flag_eqb (a b : Flag) : bool :=
  match a, b with
  | aps, aps | smps, smps | interpolated, interpolated | merged, merged => true
  | _, _ => false
  end.

Record Row : Type := mkRow {
  flag : Flag;
  dpes : Q;
  dpes_lower : Q;
  dpes_upper : Q;
  dn : float;
  dndlogd : float
}.

Abbreviation Frame := (list Row).

Definition set_flag (v : Flag) (r : Row) : Row :=
  mkRow v (dpes r) (dpes_lower r) (dpes_upper r) (dn r) (dndlogd r).
Definition set_dpes (v : Q) (r : Row) : Row :=
  mkRow (flag r) v (dpes_lower r) (dpes_upper r) (dn r) (dndlogd r).
Definition set_dpes_lower (v : Q) (r : Row) : Row :=
  mkRow (flag r) (dpes r) v (dpes_upper r) (dn r) (dndlogd r).
Definition set_dpes_upper (v : Q) (r : Row) : Row :=
  mkRow (flag r) (dpes r) (dpes_lower r) v (dn r) (dndlogd r).
Definition set_dn (v : float) (r : Row) : Row :=
  mkRow (flag r) (dpes r) (dpes_lower r) (dpes_upper r) v (dndlogd r).
Definition set_dndlogd (v : float) (r : Row) : Row :=
  mkRow (flag r) (dpes r) (dpes_lower r) (dpes_upper r) (dn r) v.

(** A row together with its index label: what a boolean-mask selection
    [sd_combined[mask]] keeps of the frame it copies from. *)
Abbreviation IRow := (nat * Row)%type.

Definition indexed (sd : Frame) : list IRow := imap pair sd.

(** [sd.loc[name, ...] = ...] on a label of the frame. *)
Definition loc_update (name : nat) (upd : Row -> Row) (sd : Frame) : Frame :=
  alter upd name sd.

(** ** Python's [min] and [max] of a sequence *)

Fixpoint py_min_from (m : Q) (l : list Q) : Q :=
  match l with
  | [] => m
  | x :: l' => py_min_from (if Qlt_bool x m then x else m) l'
  end.

Fixpoint py_max_from (m : Q) (l : list Q) : Q :=
  match l with
  | [] => m
  | x :: l' => py_max_from (if Qlt_bool m x then x else m) l'
  end.

Definition py_min (l : list Q) : result Q :=
  match l with
  | [] => Raise ValueError
  | x :: l' => Ok (py_min_from x l')
  end.

Definition py_max (l : list Q) : result Q :=
  match l with
  | [] => Raise ValueError
  | x :: l' => Ok (py_max_from x l')
  end.

(** ** The overlap merger: one pass of the loop over [smps_overlap] *)

(** Lines 159-171: the first smps bin reaching into the smallest aps bin. *)
Definition merge_left_edge (smps_bin aps_bin : Row) (r : Row) : Row :=
  let smps_bin_width := dpes_upper smps_bin - dpes_lower smps_bin in
  let aps_bin_width := dpes_upper aps_bin - dpes_lower aps_bin in
  let smps_only_width := dpes_lower aps_bin - dpes_lower smps_bin in
  let overlap_width := dpes_upper smps_bin - dpes_lower aps_bin in
  let aps_only_width := dpes_upper aps_bin - dpes_upper smps_bin in
  let r := set_dpes_lower (dpes_lower smps_bin) r in
  let r := set_dpes_upper (dpes_upper aps_bin) r in
  let r := set_dpes ((dpes_lower smps_bin + dpes_upper aps_bin) / 2) r in
  let r := set_dn (dn smps_bin * (fl smps_only_width / fl smps_bin_width))%fl r in
  let r := set_dn (dn r + dn aps_bin * (fl aps_only_width / fl aps_bin_width))%fl r in
  let r := set_dn (dn r + (fl (1 # 2) * dn smps_bin * fl overlap_width / fl smps_bin_width
                           + fl (1 # 2) * dn aps_bin * fl overlap_width / fl aps_bin_width))%fl r in
  set_flag merged r.

(** Lines 181-190: the smps bin is embraced by one aps bin. *)
Definition merge_embraced (smps_bin aps_bin : Row) (r : Row) : Row :=
  let smps_bin_width := dpes_upper smps_bin - dpes_lower smps_bin in
  let aps_bin_width := dpes_upper aps_bin - dpes_lower aps_bin in
  let r := set_dpes_lower (dpes_lower aps_bin) r in
  let r := set_dpes_upper (dpes_upper aps_bin) r in
  let r := set_dpes (dpes aps_bin) r in
  let r := set_dn (dn aps_bin * fl (aps_bin_width - smps_bin_width) / fl aps_bin_width)%fl r in
  let r := set_dn (dn r + (dn aps_bin * (fl smps_bin_width / fl aps_bin_width) + dn smps_bin) / fl 2)%fl r in
  set_flag merged r.

(** Lines 204-209 and 221-226: one of the two aps bins whose common
    boundary the smps bin overlaps; the two differ in their widths only. *)
Definition merge_boundary (smps_bin aps_bin : Row) (aps_only_width overlap_width : Q)
    (r : Row) : Row :=
  let smps_bin_width := dpes_upper smps_bin - dpes_lower smps_bin in
  let aps_bin_width := dpes_upper aps_bin - dpes_lower aps_bin in
  let r := set_dpes_lower (dpes_lower aps_bin) r in
  let r := set_dpes_upper (dpes_upper aps_bin) r in
  let r := set_dpes (dpes aps_bin) r in
  let r := set_dn (dn aps_bin * (fl aps_only_width / fl aps_bin_width))%fl r in
  let r := set_dn (dn r + (dn aps_bin * (fl overlap_width / fl aps_bin_width)
                           + dn smps_bin * (fl overlap_width / fl smps_bin_width)) / fl 2)%fl r in
  set_flag merged r.

(** Lines 149-228, the body of the loop for one [smps_bin].  [aps_overlap]
    is the copy of the overlapping aps rows taken before the loop (line
    144); [sd_combined] is the frame the loop writes to. *)
Definition merge_bin (aps_overlap : list IRow) (sd_combined : Frame) (smps_bin : Row)
    : result Frame :=
  lo ← py_min (map (fun t => dpes_lower t.2) aps_overlap);
  if Qlt_bool (dpes_lower smps_bin) lo then
    match List.filter (fun t => Qlt_bool (dpes_lower t.2) (dpes_upper smps_bin)) aps_overlap with
    | [(name, aps_bin)] =>
        Ok (loc_update name (merge_left_edge smps_bin aps_bin) sd_combined)
    | _ => Raise AssertionError
    end
  else
    hi ← py_max (map (fun t => dpes_upper t.2) aps_overlap);
    if Qlt_bool lo (dpes_lower smps_bin) && Qlt_bool (dpes_upper smps_bin) hi then
      match List.filter (fun t => Qlt_bool (dpes_lower smps_bin) (dpes_upper t.2)
                                  && Qlt_bool (dpes_lower t.2) (dpes_upper smps_bin))
                        aps_overlap with
      | [(name, aps_bin)] =>
          Ok (loc_update name (merge_embraced smps_bin aps_bin) sd_combined)
      | [(name1, aps_bin1); (name2, aps_bin2)] =>
          let sd1 :=
            loc_update name1
              (merge_boundary smps_bin aps_bin1
                 (dpes_lower smps_bin - dpes_lower aps_bin1)
                 (dpes_upper aps_bin1 - dpes_lower smps_bin)) sd_combined in
          Ok (loc_update name2
                (merge_boundary smps_bin aps_bin2
                   (dpes_upper aps_bin2 - dpes_upper smps_bin)
                   (dpes_upper smps_bin - dpes_lower aps_bin2)) sd1)
      | _ => Ok sd_combined
      end
    else Ok sd_combined.

(** The loop of lines 148-230. *)
Fixpoint merge_loop (aps_overlap : list IRow) (sd_combined : Frame) (smps_overlap : list IRow)
    : result Frame :=
  match smps_overlap with
  | [] => Ok sd_combined
  | (_, smps_bin) :: rest =>
      sd ← merge_bin aps_overlap sd_combined smps_bin;
      merge_loop aps_overlap sd rest
  end.

(** ** Sorting, [sort_values('dpes')]

    A merge sort on the [dpes] column.  pandas' default sort is not stable;
    nothing below depends on the order of rows that share a [dpes]. *)

Module RowOrder <: Orders.TotalLeBool.
Definition t : Type := Row.
Definition leb (a b : Row) : bool := Qle_bool (dpes a) (dpes b).
Lemma leb_total : forall a b, leb a b = true \/ leb b a = true.
Proof.
  intros a b. unfold leb.
  destruct (Qle_bool (dpes a) (dpes b)) eqn:E; [now left|right].
  apply Qle_bool_iff. apply Qlt_le_weak. apply Qnot_le_lt.
  intros H. apply Qle_bool_iff in H. congruence.
Qed.
End RowOrder.

Module RowSort := Mergesort.Sort RowOrder.

Definition sort_values_dpes (sd : Frame) : Frame := RowSort.sort sd.

(** ** The overlap branch, lines 137-233 *)

Definition flag_is (f : Flag) (r : Row) : bool := Flag_eqb (flag r) f.

(** [sd.drop(labels)] *)
Definition drop_labels (labels : list nat) (sd : Frame) : Frame :=
  map snd (List.filter (fun ir => negb (existsb (Nat.eqb ir.1) labels)) (indexed sd)).

Definition merge_overlap_branch (sd_combined : Frame) : result Frame :=
  aps_lo ← py_min (map dpes_lower (List.filter (flag_is aps) sd_combined));
  let smps_mask_overlap (r : Row) := flag_is smps r && Qlt_bool aps_lo (dpes_upper r) in
  smps_hi ← py_max (map dpes_upper (List.filter (flag_is smps) sd_combined));
  let aps_mask_overlap (r : Row) := flag_is aps r && Qlt_bool (dpes_lower r) smps_hi in
  let aps_overlap := List.filter (fun ir => aps_mask_overlap ir.2) (indexed sd_combined) in
  let smps_overlap := List.filter (fun ir => smps_mask_overlap ir.2) (indexed sd_combined) in
  sd ← merge_loop aps_overlap sd_combined smps_overlap;
  let merged_indices := map fst smps_overlap in
  Ok (sort_values_dpes (drop_labels merged_indices sd)).

(** ** The gap interpolator: [interpolate_dndlogd_gap], lines 90-115 *)

(** [Series.idxmax()] and [Series.idxmin()]: the label of the first
    occurrence of the extreme value; [ValueError] on an empty series. *)
Fixpoint idxmax_from (best : nat * Q) (l : list (nat * Q)) : nat :=
  match l with
  | [] => best.1
  | p :: l' => idxmax_from (if Qlt_bool best.2 p.2 then p else best) l'
  end.

Fixpoint idxmin_from (best : nat * Q) (l : list (nat * Q)) : nat :=
  match l with
  | [] => best.1
  | p :: l' => idxmin_from (if Qlt_bool p.2 best.2 then p else best) l'
  end.

Definition idxmax (l : list (nat * Q)) : result nat :=
  match l with
  | [] => Raise ValueError
  | p :: l' => Ok (idxmax_from p l')
  end.

Definition idxmin (l : list (nat * Q)) : result nat :=
  match l with
  | [] => Raise ValueError
  | p :: l' => Ok (idxmin_from p l')
  end.

(** [sd.loc[a:b]]: label slices include both ends.  A start label below
    the first label selects from the first row on, which is what the
    truncated subtraction of [nat] gives the callers. *)
Definition loc_slice (a b : nat) (sd : Frame) : Frame :=
  take (S b - a) (drop a sd).

Definition Qsum (l : list Q) : Q := fold_right Qplus 0 l.

(** [Series.mean()], which skips NaN; NaN when nothing is left. *)
Definition mean (l : list float) : float :=
  match omap id l with
  | [] => None
  | vals => Some (Qsum vals / inject_Z (Z.of_nat (length vals)))
  end.

(** [Series.interpolate(method='index')] on a series whose index is sorted:
    a NaN between two valid values lies on the line through its valid
    neighbours, taken over the index values ([np.interp]); NaNs after the
    last valid value repeat it; NaNs before the first valid value stay.
    Two valid neighbours on the same index value, where [np.interp] has no
    line to offer, are outside the model (the quotient is 0 in [Q]). *)
Fixpoint next_valid (l : list (Q * float)) : option (Q * Q) :=
  match l with
  | [] => None
  | (x, Some y) :: _ => Some (x, y)
  | (_, None) :: l' => next_valid l'
  end.

Definition np_interp (x0 y0 x1 y1 x : Q) : Q :=
  (y1 - y0) / (x1 - x0) * (x - x0) + y0.

Fixpoint interpolate_index_from (prev : option (Q * Q)) (l : list (Q * float)) : list float :=
  match l with
  | [] => []
  | (x, Some y) :: l' => Some y :: interpolate_index_from (Some (x, y)) l'
  | (x, None) :: l' =>
      match prev with
      | None => None
      | Some (x0, y0) =>
          match next_valid l' with
          | Some (x1, y1) => Some (np_interp x0 y0 x1 y1 x)
          | None => Some y0
          end
      end :: interpolate_index_from prev l'
  end.

Definition interpolate_index (l : list (Q * float)) : list float :=
  interpolate_index_from None l.

Definition cell_dndlogd (sd : Frame) (idx : nat) : float :=
  from_option dndlogd None (sd !! idx).

(** Lines 92-99: the two edge labels and the averaged edge densities. *)
Definition edge_bins (sd_gapped : Frame) : result (nat * nat) :=
  edge_bin_min_idx ←
    idxmax (map (fun ir => (ir.1, dpes_upper ir.2))
              (List.filter (fun ir => flag_is smps ir.2) (indexed sd_gapped)));
  edge_bin_max_idx ←
    idxmin (map (fun ir => (ir.1, dpes_lower ir.2))
              (List.filter (fun ir => flag_is aps ir.2) (indexed sd_gapped)));
  Ok (edge_bin_min_idx, edge_bin_max_idx).

Definition edge_bin_min_dndlogd_avg (sd_gapped : Frame) (edge_bin_min_idx : nat)
    (edge_average_window : nat) : float :=
  mean (map dndlogd
          (loc_slice (edge_bin_min_idx - edge_average_window) edge_bin_min_idx sd_gapped)).

Definition edge_bin_max_dndlogd_avg (sd_gapped : Frame) (edge_bin_max_idx : nat)
    (edge_average_window : nat) : float :=
  mean (map dndlogd
          (loc_slice edge_bin_max_idx (edge_bin_max_idx + edge_average_window) sd_gapped)).

Definition interpolate_dndlogd_gap (sd_gapped : Frame) (edge_average_window : nat)
    : result Frame :=
  '(edge_bin_min_idx, edge_bin_max_idx) ← edge_bins sd_gapped;
  let edge_bin_min_dndlogd_0 := cell_dndlogd sd_gapped edge_bin_min_idx in
  let edge_bin_max_dndlogd_0 := cell_dndlogd sd_gapped edge_bin_max_idx in
  let avg_min := edge_bin_min_dndlogd_avg sd_gapped edge_bin_min_idx edge_average_window in
  let avg_max := edge_bin_max_dndlogd_avg sd_gapped edge_bin_max_idx edge_average_window in
  let gap_with_edges := loc_slice edge_bin_min_idx edge_bin_max_idx sd_gapped in
  match gap_with_edges with
  | [] => Raise IndexError
  | _ =>
      let gap_with_edges := alter (set_dndlogd avg_min) 0%nat gap_with_edges in
      let gap_with_edges :=
        alter (set_dndlogd avg_max) (length gap_with_edges - 1)%nat gap_with_edges in
      let values :=
        interpolate_index (map (fun r => (dpes r, dndlogd r)) gap_with_edges) in
      let sd_interpolated_dndlogd :=
        take edge_bin_min_idx sd_gapped
        ++ zip_with set_dndlogd values
             (loc_slice edge_bin_min_idx edge_bin_max_idx sd_gapped)
        ++ drop (S edge_bin_max_idx) sd_gapped in
      let sd_interpolated_dndlogd :=
        loc_update edge_bin_min_idx (set_dndlogd edge_bin_min_dndlogd_0)
          sd_interpolated_dndlogd in
      let sd_interpolated_dndlogd :=
        loc_update edge_bin_max_idx (set_dndlogd edge_bin_max_dndlogd_0)
          sd_interpolated_dndlogd in
      Ok sd_interpolated_dndlogd
  end.

(** Python's [round] to an integer: halves go to the even neighbour. *)
Definition py_round (q : Q) : Z :=
  let f := Qfloor q in
  let d := q - inject_Z f in
  if Qlt_bool d (1 # 2) then f
  else if Qlt_bool (1 # 2) d then (f + 1)%Z
  else if Z.even f then f else (f + 1)%Z.

(** pandas' [Series.max()] and [Series.min()]: NaN on an empty column. *)
Definition col_max (l : list Q) : float :=
  match l with
  | [] => None
  | x :: l' => Some (py_max_from x l')
  end.

Definition col_min (l : list Q) : float :=
  match l with
  | [] => None
  | x :: l' => Some (py_min_from x l')
  end.

Section Combine.

(** numpy's [log10] and [10 ** x] (through [np.logspace]). *)
Variable log10 : Q -> Q.
Variable pow10 : Q -> Q.

Definition flog10 (a : float) : float := log10 <$> a.

(** Lines 16-18. *)
Definition get_channel_resolution (data : Frame) : float :=
  (fl (inject_Z (Z.of_nat (length data)))
   / (flog10 (col_max (map dpes data)) - flog10 (col_min (map dpes data))))%fl.

(** Modelled from the spec: [calc_dXdlogd_from_dX] of
    [py_aps_smps/lib/sd_processing/content.py], called with bin
    boundaries; the density-normalization primitive returns
    [count / (log10(upper) - log10(lower))]. *)
Definition calc_dXdlogd_from_dX (dX : float) (bins_lower bins_upper : Q) : float :=
  (dX / fl (log10 bins_upper - log10 bins_lower))%fl.

(** Lines 72-75; [//] is the floor division. *)
Definition get_interpol_resolution (sd_smps sd_aps : Frame) : float :=
  match (get_channel_resolution sd_smps + get_channel_resolution sd_aps)%fl with
  | Some s => Some (inject_Z (Qfloor (s / 2)))
  | None => None
  end.

(** [np.logspace(start, stop, num, endpoint=False)] *)
Definition logspace (start stop : Q) (num : nat) : list Q :=
  let step := (stop - start) / inject_Z (Z.of_nat num) in
  map (fun i => pow10 (inject_Z (Z.of_nat i) * step + start)) (seq 0 num).

(** Lines 77-88.  [round] of a resolution that is not finite and
    [np.logspace] of a negative [num] raise [ValueError]. *)
Definition get_bin_boundaries_in_interval (x_start x_end : Q) (res : float)
    : result (list Q * list Q) :=
  let decades_in_x_range := log10 x_end - log10 x_start in
  match res with
  | None => Raise ValueError
  | Some res =>
      let bin_num := py_round (res * decades_in_x_range) in
      if (bin_num <? 0)%Z then Raise ValueError
      else
        let bin_bound_lower :=
          logspace (log10 x_start) (log10 x_end) (Z.to_nat bin_num) in
        let bin_bound_upper := tail bin_bound_lower ++ [x_end] in
        Ok (bin_bound_lower, bin_bound_upper)
  end.

(** Lines 118-134.  With no bin to insert the two boundary arrays differ
    in length and the [DataFrame] constructor raises [ValueError]. *)
Definition interpolate_gap_branch (sd_smps sd_aps sd_combined : Frame) : result Frame :=
  match col_max (map dpes_upper sd_smps), col_min (map dpes_lower sd_aps) with
  | Some interpol_dpes_range_start, Some interpol_dpes_range_end =>
      let interpol_resolution := get_interpol_resolution sd_smps sd_aps in
      '(interpol_dpes_bins_lower, interpol_dpes_bins_upper) ←
        get_bin_boundaries_in_interval interpol_dpes_range_start
          interpol_dpes_range_end interpol_resolution;
      if negb (length interpol_dpes_bins_lower =? length interpol_dpes_bins_upper)%nat
      then Raise ValueError
      else
        let interpolated_bins :=
          zip_with (fun lo up => mkRow interpolated ((lo + up) / 2) lo up None None)
            interpol_dpes_bins_lower interpol_dpes_bins_upper in
        let sd_combined := sd_combined ++ interpolated_bins in
        let sd_combined := sort_values_dpes sd_combined in
        sd_combined ← interpolate_dndlogd_gap sd_combined 3;
        Ok (map (fun r =>
                   set_dn (dndlogd r * fl (log10 (dpes_upper r) - log10 (dpes_lower r)))%fl r)
              sd_combined)
  | _, _ => Raise ValueError
  end.

(** Lines 235-238. *)
Definition recompute_modified (sd_combined : Frame) : Frame :=
  map (fun r =>
         if negb (flag_is smps r) && negb (flag_is aps r)
         then set_dndlogd (calc_dXdlogd_from_dX (dn r) (dpes_lower r) (dpes_upper r)) r
         else r)
    sd_combined.

(** Lines 29-239. *)
Definition combine_SMPS_APS_sd (sd_aps sd_smps : Frame)
    (merge_overlap interpolate_gap : bool) : result Frame :=
  let sd_aps := map (set_flag aps) sd_aps in
  let sd_smps := map (set_flag smps) sd_smps in
  let sd_combined := sd_smps ++ sd_aps in
  smps_hi ← py_max (map dpes_upper sd_smps);
  aps_lo ← py_min (map dpes_lower sd_aps);
  let flag_overlap := Qlt_bool aps_lo smps_hi in
  let flag_gap := Qlt_bool smps_hi aps_lo in
  sd_combined ←
    (if interpolate_gap && flag_gap
     then interpolate_gap_branch sd_smps sd_aps sd_combined
     else Ok sd_combined);
  sd_combined ←
    (if merge_overlap && flag_overlap
     then merge_overlap_branch sd_combined
     else Ok sd_combined);
  Ok (recompute_modified sd_combined).

End Combine.

(** ** Running the engine on concrete inputs

    The piecewise-linear interpolants of [log10] and [10 ** x] through the
    integer powers of ten, inverse to one another: they agree with the real
    functions wherever the argument of the first is a power of ten and the
    argument of the second an integer, which is how the concrete inputs
    below are chosen wherever a logarithm enters a stated value. *)

Fixpoint decade_up (fuel : nat) (k : Z) (x : Q) : Z :=
  match fuel with
  | O => k
  | S fuel' => if Qle_bool (10 ^ (k + 1)) x then decade_up fuel' (k + 1) x else k
  end.

Fixpoint decade_down (fuel : nat) (k : Z) (x : Q) : Z :=
  match fuel with
  | O => k
  | S fuel' => if Qle_bool (10 ^ k) x then k else decade_down fuel' (k - 1) x
  end.

Definition decade (x : Q) : Z :=
  if Qle_bool 1 x
  then decade_up (Z.to_nat (Z.log2 (Qnum x))) 0 x
  else decade_down (Pos.to_nat (Qden x)) (-1) x.

Definition log10_pl (x : Q) : Q :=
  let k := decade x in
  inject_Z k + (x - 10 ^ k) / (9 * 10 ^ k).

Definition pow10_pl (y : Q) : Q :=
  let k := Qfloor y in
  10 ^ k * (1 + 9 * (y - inject_Z k)).

(** ** The writes of one pass of the merge loop

    What [merge_bin] does to the frame, as a list of (label, update): used
    to state which rows a pass writes.  [merge_bin_writes] below proves
    that [merge_bin] is the application of these writes. *)

Definition merge_writes (aps_overlap : list IRow) (smps_bin : Row)
    : result (list (nat * (Row -> Row))) :=
  lo ← py_min (map (fun t => dpes_lower t.2) aps_overlap);
  if Qlt_bool (dpes_lower smps_bin) lo then
    match List.filter (fun t => Qlt_bool (dpes_lower t.2) (dpes_upper smps_bin)) aps_overlap with
    | [(name, aps_bin)] => Ok [(name, merge_left_edge smps_bin aps_bin)]
    | _ => Raise AssertionError
    end
  else
    hi ← py_max (map (fun t => dpes_upper t.2) aps_overlap);
    if Qlt_bool lo (dpes_lower smps_bin) && Qlt_bool (dpes_upper smps_bin) hi then
      match List.filter (fun t => Qlt_bool (dpes_lower smps_bin) (dpes_upper t.2)
                                  && Qlt_bool (dpes_lower t.2) (dpes_upper smps_bin))
                        aps_overlap with
      | [(name, aps_bin)] => Ok [(name, merge_embraced smps_bin aps_bin)]
      | [(name1, aps_bin1); (name2, aps_bin2)] =>
          Ok [(name1, merge_boundary smps_bin aps_bin1
                        (dpes_lower smps_bin - dpes_lower aps_bin1)
                        (dpes_upper aps_bin1 - dpes_lower smps_bin));
              (name2, merge_boundary smps_bin aps_bin2
                        (dpes_upper aps_bin2 - dpes_upper smps_bin)
                        (dpes_upper smps_bin - dpes_lower aps_bin2))]
      | _ => Ok []
      end
    else Ok [].

Definition apply_writes (ws : list (nat * (Row -> Row))) (sd : Frame) : Frame :=
  foldl (fun s w => loc_update w.1 w.2 s) sd ws.

(** The labels of the aps rows into which [smps_bin] is folded. *)
Definition folded_into (aps_overlap : list IRow) (smps_bin : Row) : list nat :=
  match merge_writes aps_overlap smps_bin with
  | Ok ws => map fst ws
  | Raise _ => []
  end.

(** An update of the merger overwrites every column but [dndlogd], which
    it leaves alone. *)
Definition overwrites (upd : Row -> Row) : Prop :=
  (forall r, dndlogd (upd r) = dndlogd r)
  /\ (forall r1 r2, dndlogd r1 = dndlogd r2 -> upd r1 = upd r2).

(** ** Counts in the common width *)

Definition width (r : Row) : Q := dpes_upper r - dpes_lower r.

(** The width that the fine bin [f] and the target bin [t] both cover. *)
Definition common_width (f t : Row) : Q :=
  Qmin (dpes_upper f) (dpes_upper t) - Qmax (dpes_lower f) (dpes_lower t).

(** The count of [r] that falls into a part of its width, the count being
    spread evenly over the bin. *)
Definition count_within (r : Row) (part : Q) : float :=
  (dn r * (fl part / fl (width r)))%fl.

Definition fsum (l : list float) : float := fold_right fadd (fl 0) l.

Definition cell_dn (sd : Frame) (idx : nat) : float :=
  from_option dn None (sd !! idx).

(** The three geometries that the merger handles, with the position of the
    fine bin that its formulas take for granted: not beyond the upper
    boundary of the aps bin (left edge), within the aps bin (embraced),
    across the common boundary of two adjacent aps bins (boundary). *)
Inductive fold_geometry (aps_overlap : list IRow) (f : Row) : list IRow -> Prop :=
| geometry_left_edge (lo : Q) (name : nat) (t : Row) :
    py_min (map (fun t => dpes_lower t.2) aps_overlap) = Ok lo ->
    dpes_lower f < lo ->
    List.filter (fun t => Qlt_bool (dpes_lower t.2) (dpes_upper f)) aps_overlap
      = [(name, t)] ->
    dpes_lower f < dpes_lower t ->
    dpes_upper f <= dpes_upper t ->
    fold_geometry aps_overlap f [(name, t)]
| geometry_embraced (lo hi : Q) (name : nat) (t : Row) :
    py_min (map (fun t => dpes_lower t.2) aps_overlap) = Ok lo ->
    py_max (map (fun t => dpes_upper t.2) aps_overlap) = Ok hi ->
    lo < dpes_lower f ->
    dpes_upper f < hi ->
    List.filter (fun t => Qlt_bool (dpes_lower f) (dpes_upper t.2)
                          && Qlt_bool (dpes_lower t.2) (dpes_upper f)) aps_overlap
      = [(name, t)] ->
    dpes_lower t <= dpes_lower f ->
    dpes_upper f <= dpes_upper t ->
    fold_geometry aps_overlap f [(name, t)]
| geometry_boundary (lo hi : Q) (name1 name2 : nat) (t1 t2 : Row) :
    py_min (map (fun t => dpes_lower t.2) aps_overlap) = Ok lo ->
    py_max (map (fun t => dpes_upper t.2) aps_overlap) = Ok hi ->
    lo < dpes_lower f ->
    dpes_upper f < hi ->
    List.filter (fun t => Qlt_bool (dpes_lower f) (dpes_upper t.2)
                          && Qlt_bool (dpes_lower t.2) (dpes_upper f)) aps_overlap
      = [(name1, t1); (name2, t2)] ->
    name1 <> name2 ->
    dpes_lower t1 <= dpes_lower f ->
    dpes_upper t1 == dpes_lower t2 ->
    dpes_upper f <= dpes_upper t2 ->
    fold_geometry aps_overlap f [(name1, t1); (name2, t2)].

(** ** The densities written by the gap interpolator *)

(** The density that [interpolate_dndlogd_gap] leaves in the row of label
    [k]: the value of the interpolation strictly between the two edge
    labels, the density of the row elsewhere. *)
Definition gap_values (sd_gapped : Frame) (edge_average_window i j : nat) : list float :=
  let gap_with_edges := loc_slice i j sd_gapped in
  let gap_with_edges :=
    alter (set_dndlogd (edge_bin_min_dndlogd_avg sd_gapped i edge_average_window))
      0%nat gap_with_edges in
  let gap_with_edges :=
    alter (set_dndlogd (edge_bin_max_dndlogd_avg sd_gapped j edge_average_window))
      (length gap_with_edges - 1)%nat gap_with_edges in
  interpolate_index (map (fun r => (dpes r, dndlogd r)) gap_with_edges).

Definition gap_dndlogd (sd_gapped : Frame) (edge_average_window i j k : nat) (r : Row)
    : float :=
  if bool_decide (i < k < j)%nat
  then from_option id None (gap_values sd_gapped edge_average_window i j !! (k - i)%nat)
  else dndlogd r.

(** ** Relations between a row before and after a branch *)

(** [r'] is [r] up to its [dndlogd], kept when [r] carries a finite one. *)
Definition same_but_dndlogd (r r' : Row) : Prop :=
  exists v, r' = set_dndlogd v r /\ forall d, dndlogd r = Some d -> v = Some d.

(** What the gap-fill branch of [combine_SMPS_APS_sd] makes of a row [r]
    of the sorted frame, [m] being the row that [interpolate_dndlogd_gap]
    returns for it and [r'] the row of the result.  The interpolator
    changes the density alone, and keeps a finite one; the flag, the centre
    and the boundaries stay; the count of [r'] is the density that the
    interpolator left, times the log-width of the bin, whatever the flag;
    a row of one of the two instruments leaves with that density. *)
Definition gap_filled (log10 : Q -> Q) (r m r' : Row) : Prop :=
  same_but_dndlogd r m
  /\ flag r' = flag r
  /\ dpes r' = dpes r
  /\ dpes_lower r' = dpes_lower r
  /\ dpes_upper r' = dpes_upper r
  /\ dn r' = (dndlogd m * fl (log10 (dpes_upper r) - log10 (dpes_lower r)))%fl
  /\ (flag r = smps \/ flag r = aps -> dndlogd r' = dndlogd m).

(** ** Bin boundaries, in double precision

    [calc_bin_boundaries] on Python floats.  A finite double is the
    rational number that it is; the results of the operations are rounded
    to the nearest double, ties to the even significand, and leave the
    finite doubles for an infinity beyond the largest one.  The sign of a
    zero is not kept.  The power [10 ** y] rounds the value [pow10 y] that
    the C library computes for it: [pow10] is a parameter, as in
    [Section Combine].  A division by a zero raises ZeroDivisionError and a
    power that leaves the finite doubles raises OverflowError; the other
    operations return an infinity or a NaN as the hardware does. *)

Module Boundaries.

Inductive double : Type :=
| Finite (q : Q)
| Infinity (negative : bool)
| NaN.

Inductive ArithmeticError : Type :=
| OverflowError
| ZeroDivisionError.

Inductive outcome (A : Type) : Type :=
| Returns (a : A)
| Raises (e : ArithmeticError).

Arguments Returns {A} a.
Arguments Raises {A} e.

#[global] Instance outcome_ret : MRet outcome := fun A a => Returns a.
#[global] Instance outcome_bind : MBind outcome := fun A B f m =>
  match m with
  | Returns a => f a
  | Raises e => Raises e
  end.

(** The exponent of the binade of [q]: [2 ^ ilog2 q <= |q| < 2 ^ (ilog2 q + 1)]. *)
Definition ilog2 (q : Q) : Z :=
  let e := (Z.log2 (Z.abs (Qnum q)) - Z.log2 (Zpos (Qden q)))%Z in
  if Qle_bool (2 ^ e) (Qabs q) then e else (e - 1)%Z.

(** The distance between the doubles about [q]: 53 bits of significand,
    the exponents of the normal numbers from -1022 to 1023, subnormal
    numbers below. *)
Definition ulp64 (q : Q) : Q := 2 ^ (Z.max (ilog2 q) (-1022) - 52).

(** Rounding to the nearest double, ties to the even significand. *)
Definition round64 (q : Q) : double :=
  if Qeq_bool q 0 then Finite 0
  else
    let r := inject_Z (py_round (q / ulp64 q)) * ulp64 q in
    if Qle_bool (2 ^ 1024) (Qabs r) then Infinity (Qlt_bool q 0)
    else Finite (Qred r).

(** [a + b] and [a * b] on floats: no exception. *)
Definition float_add (a b : double) : double :=
  match a, b with
  | Finite x, Finite y => round64 (x + y)
  | NaN, _ | _, NaN => NaN
  | Infinity s, Finite _ | Finite _, Infinity s => Infinity s
  | Infinity s, Infinity s' => if Bool.eqb s s' then Infinity s else NaN
  end.

Definition float_mul (a b : double) : double :=
  match a, b with
  | Finite x, Finite y => round64 (x * y)
  | NaN, _ | _, NaN => NaN
  | Infinity s, Finite y | Finite y, Infinity s =>
      if Qeq_bool y 0 then NaN else Infinity (xorb s (Qlt_bool y 0))
  | Infinity s, Infinity s' => Infinity (xorb s s')
  end.

(** [a / b] on floats: [ZeroDivisionError] on a zero divisor. *)
Definition float_truediv (a b : double) : outcome double :=
  match b with
  | Finite y =>
      if Qeq_bool y 0 then Raises ZeroDivisionError
      else
        match a with
        | Finite x => Returns (round64 (x / y))
        | Infinity s => Returns (Infinity (xorb s (Qlt_bool y 0)))
        | NaN => Returns NaN
        end
  | Infinity _ =>
      match a with
      | Finite _ => Returns (Finite 0)
      | _ => Returns NaN
      end
  | NaN => Returns NaN
  end.

Section Power.

Variable pow10 : Q -> Q.

(** [10 ** y] on a float [y]: 1 at zero, [OverflowError] when the power is
    beyond the largest double, zero when it is below the smallest. *)
Definition float_pow10 (y : double) : outcome double :=
  match y with
  | Finite y =>
      if Qeq_bool y 0 then Returns (Finite 1)
      else
        match round64 (pow10 y) with
        | Infinity _ => Raises OverflowError
        | p => Returns p
        end
  | Infinity false => Returns (Infinity false)
  | Infinity true => Returns (Finite 0)
  | NaN => Returns NaN
  end.

(** Lines 21-26, for one mean diameter. *)
Definition calc_bin_boundaries (bin_mean_diameter channel_resolution : double)
    : outcome (double * double) :=
  exponent ← float_truediv (Finite 1) channel_resolution;
  power ← float_pow10 exponent;
  bin_lower_boundary ←
    float_truediv (float_mul (Finite 2) bin_mean_diameter) (float_add power (Finite 1));
  exponent ← float_truediv (Finite (-1)) channel_resolution;
  power ← float_pow10 exponent;
  bin_upper_boundary ←
    float_truediv (float_mul (Finite 2) bin_mean_diameter) (float_add power (Finite 1));
  Returns (bin_lower_boundary, bin_upper_boundary).

End Power.

(** [a <= b] on floats. *)
Definition float_le (a b : double) : Prop :=
  match a, b with
  | Finite x, Finite y => x <= y
  | Infinity true, (Finite _ | Infinity _) => True
  | (Finite _ | Infinity _), Infinity false => True
  | _, _ => False
  end.

(** A rational number that is a double. *)
Definition is_double (q : Q) : Prop := round64 q = Finite (Qred q).

(** [a] and [b] agree up to [n] roundings to the nearest double: each is
    the other times [n] factors between [1 - 2^-53] and [1 + 2^-53], or
    their inverses. *)
Definition within_roundings (n : Z) (a b : Q) : Prop :=
  (1 - 2 ^ (-53)) ^ n * a <= (1 + 2 ^ (-53)) ^ n * b
  /\ (1 - 2 ^ (-53)) ^ n * b <= (1 + 2 ^ (-53)) ^ n * a.

End Boundaries.

(** ** Lognormal distributions, over the real numbers

    [py_aps_smps/lib/sd_processing/distributions.py]; numpy's [log10],
    [sqrt], [exp] and [pi] are those of the real numbers. *)

Module Distributions.
Import Stdlib.Reals.Reals.
Local Open Scope R_scope.

(** [np.log10] *)
Definition log10 (x : R) : R := ln x / ln 10.

(** Lines 13-22. *)
Definition lognormal (x mu sig tot : R) : R :=
  (tot / (log10 sig * sqrt (2 * PI)))
  * exp (- ((log10 (x / mu)) ^ 2) / (2 * log10 sig ^ 2)).

(** Lines 25-31. *)
Definition bilognormal (x mu1 sig1 N1 mu2 sig2 N2 : R) : R :=
  (N1 / (log10 sig1 * sqrt (2 * PI)))
  * exp (- ((log10 (x / mu1)) ^ 2) / (2 * log10 sig1 ^ 2))
  + (N2 / (log10 sig2 * sqrt (2 * PI)))
    * exp (- ((log10 (x / mu2)) ^ 2) / (2 * log10 sig2 ^ 2)).

End Distributions.

(** ** Concrete distributions *)

(** The single-containment scenario: target bin [50,150] with count 100,
    fine bin [80,120] with count 40, and the same fine bin with count 60. *)
Definition target_50_150 : Row := mkRow aps 100 50 150 (Some 100) (Some 1).
Definition fine_80_120 : Row := mkRow smps 100 80 120 (Some 40) (Some 1).
Definition fine_80_120_60 : Row := mkRow smps 100 80 120 (Some 60) (Some 1).

(** Two fine bins within the same target bin. *)
Definition fine_60_80 : Row := mkRow smps 70 60 80 (Some 1000) (Some 1).

(** Four adjacent aps bins and an smps bin that reaches over three of them. *)
Definition aps_50_250 : Frame :=
  [ mkRow aps 75 50 100 (Some 10) (Some 1);
    mkRow aps 125 100 150 (Some 20) (Some 2);
    mkRow aps 175 150 200 (Some 30) (Some 3);
    mkRow aps 225 200 250 (Some 40) (Some 4) ].
Definition fine_90_160 : Row := mkRow smps 125 90 160 (Some 1000) (Some 9).

(** Overlapping distributions with two bins each. *)
Definition smps_1_5 : Frame :=
  [ mkRow smps 2 1 3 (Some 10) (Some 1); mkRow smps 4 3 5 (Some 10) (Some 1) ].
Definition aps_2_8 : Frame :=
  [ mkRow aps 3 2 4 (Some 10) (Some 1); mkRow aps 6 4 8 (Some 10) (Some 1) ].

(** An smps distribution in which two rows share their centre. *)
Definition smps_twice : Frame :=
  [ mkRow smps 1 0 2 (Some 10) (Some 1); mkRow smps 1 0 2 (Some 10) (Some 1);
    mkRow smps 50 40 60 (Some 10) (Some 1) ].

(** A frame as [interpolate_dndlogd_gap] receives it: two smps rows, one
    interpolated row over the gap from 4 to 16, two aps rows. *)
Definition gapped_1_100 : Frame :=
  [ mkRow smps (1 # 16) (1 # 64) (1 # 4) (Some 1) (Some 1);
    mkRow smps 1 (1 # 4) 4 (Some 3) (Some 3);
    mkRow interpolated 10 4 16 None None;
    mkRow aps 100 16 625 (Some 5) (Some 5);
    mkRow aps 2500 625 10000 (Some 7) (Some 7) ].

(** Distributions of five bins each, one bin per decade, with a gap from
    10^5 to 10^7, and the frame that the gap-fill branch sorts from them:
    the two interpolated rows stand between the rows of the instruments.
    The centres of a distribution are whole decades apart, so that the
    channel resolution, 5 bins over 4 decades, is that of the real
    logarithm. *)
Definition smps_five : Frame :=
  [ mkRow smps (55 # 10) 1 10 (Some 10) (Some 10);
    mkRow smps 55 10 100 (Some 20) (Some 20);
    mkRow smps 550 100 1000 (Some 30) (Some 30);
    mkRow smps 5500 1000 10000 (Some 40) (Some 40);
    mkRow smps 55000 10000 100000 (Some 50) (Some 50) ].
Definition aps_five : Frame :=
  [ mkRow aps 55000000 10000000 100000000 (Some 60) (Some 60);
    mkRow aps 550000000 100000000 1000000000 (Some 70) (Some 70);
    mkRow aps 5500000000 1000000000 10000000000 (Some 80) (Some 80);
    mkRow aps 55000000000 10000000000 100000000000 (Some 90) (Some 90);
    mkRow aps 550000000000 100000000000 1000000000000 (Some 100) (Some 100) ].
Definition gapped_five : Frame :=
  smps_five
  ++ [ mkRow interpolated 550000 100000 1000000 None None;
       mkRow interpolated 5500000 1000000 10000000 None None ]
  ++ aps_five.

(** Distributions with a gap, on boundaries that are powers of ten.  The
    first smps row carries a count that is not its density times its
    log-width. *)
Definition smps_decades : Frame :=
  [ mkRow smps 10 1 100 (Some 5) (Some 0);
    mkRow smps 1000 100 10000 (Some 6) (Some 3) ].
Definition aps_decades : Frame :=
  [ mkRow aps 10000000 1000000 100000000 (Some 8) (Some 4);
    mkRow aps 1000000000 100000000 10000000000 (Some 10) (Some 5) ].

(** ** Well-formed distributions *)

(** The bins of a distribution as the instruments deliver them: the centre
    strictly between the boundaries, the bins in ascending order and not
    reaching into one another. *)
Definition precedes (r1 r2 : Row) : Prop := dpes_upper r1 <= dpes_lower r2.

Definition well_formed (sd : Frame) : Prop :=
  Forall (fun r => dpes_lower r < dpes r < dpes_upper r) sd
  /\ StronglySorted precedes sd.

Definition before (r1 r2 : Row) : Prop := dpes r1 < dpes r2.

(** What the merge loop leaves as the centre of the aps row of label [n],
    [t] in the snapshot: the centre of [t], or the centre that the
    left-edge case computes from a fine bin [f] that starts below all the
    aps bins and reaches into [t] alone. *)
Definition centre_after_merge (aps_overlap : list IRow) (fine : list Row)
    (n : nat) (t r' : Row) : Prop :=
  dpes r' = dpes t
  \/ exists f,
       In f fine
       /\ (forall t', In t' aps_overlap -> dpes_lower f < dpes_lower t'.2)
       /\ List.filter (fun t' => Qlt_bool (dpes_lower t'.2) (dpes_upper f)) aps_overlap
          = [(n, t)]
       /\ dpes r' = (dpes_lower f + dpes_upper t) / 2.

(** * Properties *)

(** ** Comparisons and floats *)

Lemma Qlt_bool_iff (x y : Q) : Qlt_bool x y = true <-> x < y.
Proof.
  unfold Qlt_bool. rewrite negb_true_iff. split.
  - intros H. apply Qnot_le_lt. intros Hle. apply Qle_bool_iff in Hle. congruence.
  - intros H. destruct (Qle_bool y x) eqn:E; [|reflexivity].
    apply Qle_bool_iff in E. lra.
Qed.

Lemma Qlt_bool_false_iff (x y : Q) : Qlt_bool x y = false <-> y <= x.
Proof.
  unfold Qlt_bool. rewrite negb_false_iff. apply Qle_bool_iff.
Qed.

Lemma Qeq_bool_false (x : Q) : ~ x == 0 -> Qeq_bool x 0 = false.
Proof.
  intros H. destruct (Qeq_bool x 0) eqn:E; [|reflexivity].
  apply Qeq_bool_iff in E. contradiction.
Qed.

#[global] Instance feq_equiv : Equivalence feq.
Proof.
  split.
  - intros [x|]; simpl; [reflexivity|exact I].
  - intros [x|] [y|]; simpl; try tauto. intros H; now symmetry.
  - intros [x|] [y|] [z|]; simpl; try tauto. intros H1 H2. now rewrite H1.
Qed.

(** ** The single-containment geometry *)

(** The count that lines 188-189 leave in the aps bin. *)
Lemma merge_embraced_dn (smps_bin aps_bin r : Row) (ct cf : Q) :
  dn aps_bin = Some ct ->
  dn smps_bin = Some cf ->
  ~ dpes_upper aps_bin - dpes_lower aps_bin == 0 ->
  let w_t := dpes_upper aps_bin - dpes_lower aps_bin in
  let w_f := dpes_upper smps_bin - dpes_lower smps_bin in
  dn (merge_embraced smps_bin aps_bin r)
  = Some (ct * (w_t - w_f) / w_t + (ct * (w_f / w_t) + cf) / 2).
Proof.
  intros Ht Hf Hw w_t w_f. unfold merge_embraced. cbn.
  rewrite Ht, Hf. cbn. rewrite (Qeq_bool_false _ Hw). cbn. reflexivity.
Qed.

(** C3.  When [smps_bin] lies strictly within the range of the overlapping
    aps bins and meets exactly one of them, [aps_bin] of width [w_t], the
    pass of the loop succeeds and leaves in the row of [aps_bin] the count
    [t.count*(w_t-w_f)/w_t + (t.count*(w_f/w_t) + f.count)/2], the
    boundaries and the centre of [aps_bin], and the flag [merged]. *)
Theorem merge_bin_single_containment
    (aps_overlap : list IRow) (sd_combined : Frame) (smps_bin aps_bin : Row)
    (name : nat) (lo hi ct cf : Q) :
  py_min (map (fun t => dpes_lower t.2) aps_overlap) = Ok lo ->
  py_max (map (fun t => dpes_upper t.2) aps_overlap) = Ok hi ->
  lo < dpes_lower smps_bin ->
  dpes_upper smps_bin < hi ->
  List.filter (fun t => Qlt_bool (dpes_lower smps_bin) (dpes_upper t.2)
                        && Qlt_bool (dpes_lower t.2) (dpes_upper smps_bin))
    aps_overlap = [(name, aps_bin)] ->
  dn aps_bin = Some ct ->
  dn smps_bin = Some cf ->
  ~ dpes_upper aps_bin - dpes_lower aps_bin == 0 ->
  (name < length sd_combined)%nat ->
  let w_t := dpes_upper aps_bin - dpes_lower aps_bin in
  let w_f := dpes_upper smps_bin - dpes_lower smps_bin in
  exists sd r',
    merge_bin aps_overlap sd_combined smps_bin = Ok sd
    /\ sd !! name = Some r'
    /\ dn r' = Some (ct * (w_t - w_f) / w_t + (ct * (w_f / w_t) + cf) / 2)
    /\ dpes_lower r' = dpes_lower aps_bin
    /\ dpes_upper r' = dpes_upper aps_bin
    /\ dpes r' = dpes aps_bin
    /\ flag r' = merged
    /\ forall j, j <> name -> sd !! j = sd_combined !! j.
Proof.
  intros Hlo Hhi Hlt1 Hlt2 Hsel Ht Hf Hw Hname w_t w_f.
  destruct (lookup_lt_is_Some_2 sd_combined name Hname) as [r Hr].
  exists (loc_update name (merge_embraced smps_bin aps_bin) sd_combined),
         (merge_embraced smps_bin aps_bin r).
  split.
  { unfold merge_bin. rewrite Hlo. cbn.
    assert (Qlt_bool (dpes_lower smps_bin) lo = false) as ->
      by (apply Qlt_bool_false_iff; lra).
    rewrite Hhi. cbn.
    assert (Qlt_bool lo (dpes_lower smps_bin) = true) as -> by now apply Qlt_bool_iff.
    assert (Qlt_bool (dpes_upper smps_bin) hi = true) as -> by now apply Qlt_bool_iff.
    cbn. rewrite Hsel. reflexivity. }
  split.
  { unfold loc_update. rewrite list_lookup_alter_eq, Hr. reflexivity. }
  split; [now apply merge_embraced_dn|].
  repeat split; try reflexivity.
  intros j Hj. unfold loc_update. now rewrite list_lookup_alter_ne.
Qed.


(** ** The merge loop writes from the snapshot *)

Lemma merge_bin_writes (aps_overlap : list IRow) (sd : Frame) (smps_bin : Row) :
  merge_bin aps_overlap sd smps_bin
  = ws ← merge_writes aps_overlap smps_bin; Ok (apply_writes ws sd).
Proof.
  unfold merge_bin, merge_writes.
  destruct (py_min _) as [lo|e]; cbn; [|reflexivity].
  destruct (Qlt_bool (dpes_lower smps_bin) lo).
  - destruct (List.filter _ aps_overlap) as [|[name t] [|? ?]]; reflexivity.
  - destruct (py_max _) as [hi|e]; cbn; [|reflexivity].
    destruct (_ && _); [|reflexivity].
    destruct (List.filter _ aps_overlap) as [|[n1 t1] [|[n2 t2] [|? ?]]]; reflexivity.
Qed.

Lemma merge_left_edge_overwrites f t : overwrites (merge_left_edge f t).
Proof.
  split; [reflexivity|]. intros [] [] H; cbn in *. now subst.
Qed.

Lemma merge_embraced_overwrites f t : overwrites (merge_embraced f t).
Proof.
  split; [reflexivity|]. intros [] [] H; cbn in *. now subst.
Qed.

Lemma merge_boundary_overwrites f t a o : overwrites (merge_boundary f t a o).
Proof.
  split; [reflexivity|]. intros [] [] H; cbn in *. now subst.
Qed.

Lemma merge_writes_overwrite aps_overlap smps_bin ws :
  merge_writes aps_overlap smps_bin = Ok ws ->
  Forall (fun w => overwrites w.2) ws.
Proof.
  unfold merge_writes.
  destruct (py_min _) as [lo|e]; cbn; [|discriminate].
  destruct (Qlt_bool (dpes_lower smps_bin) lo).
  - destruct (List.filter _ aps_overlap) as [|[name t] [|? ?]]; try discriminate.
    intros [= <-]. repeat constructor; apply merge_left_edge_overwrites.
  - destruct (py_max _) as [hi|e]; cbn; [|discriminate].
    destruct (_ && _); [|intros [= <-]; constructor].
    destruct (List.filter _ aps_overlap) as [|[n1 t1] [|[n2 t2] [|? ?]]];
      intros [= <-]; repeat constructor;
      first [apply merge_embraced_overwrites | apply merge_boundary_overwrites].
Qed.

Lemma apply_writes_cons w ws sd :
  apply_writes (w :: ws) sd = apply_writes ws (loc_update w.1 w.2 sd).
Proof. reflexivity. Qed.

Lemma apply_writes_length ws sd : length (apply_writes ws sd) = length sd.
Proof.
  revert sd. induction ws as [|w ws IH]; intros sd; [reflexivity|].
  rewrite apply_writes_cons, IH. unfold loc_update. apply length_alter.
Qed.

Lemma apply_writes_other ws sd j :
  j ∉ map fst ws -> apply_writes ws sd !! j = sd !! j.
Proof.
  revert sd. induction ws as [|[n u] ws IH]; intros sd Hj; [reflexivity|].
  cbn in Hj. apply not_elem_of_cons in Hj as [Hne Hj].
  rewrite apply_writes_cons, IH by assumption. unfold loc_update. cbn.
  now rewrite list_lookup_alter_ne by congruence.
Qed.

Lemma apply_writes_dndlogd ws sd j :
  Forall (fun w => overwrites w.2) ws ->
  dndlogd <$> apply_writes ws sd !! j = dndlogd <$> sd !! j.
Proof.
  revert sd. induction ws as [|[n u] ws IH]; intros sd Hws; [reflexivity|].
  inversion Hws as [|? ? [Hu _] Hws']; subst.
  rewrite apply_writes_cons, IH by assumption.
  unfold loc_update. cbn in *. destruct (decide (n = j)) as [->|Hne].
  - rewrite list_lookup_alter_eq. destruct (sd !! j); cbn; [|reflexivity].
    now rewrite Hu.
  - now rewrite list_lookup_alter_ne.
Qed.

(** A row that a pass writes has, after the pass, a content that depends
    on the frame before the pass through the [dndlogd] of that row only. *)
Lemma apply_writes_written ws sd1 sd2 j :
  Forall (fun w => overwrites w.2) ws ->
  j ∈ map fst ws ->
  dndlogd <$> sd1 !! j = dndlogd <$> sd2 !! j ->
  apply_writes ws sd1 !! j = apply_writes ws sd2 !! j.
Proof.
  revert sd1 sd2. induction ws as [|[n u] ws IH]; intros sd1 sd2 Hws Hj Hd.
  { inversion Hj. }
  inversion Hws as [|? ? [Hu1 Hu2] Hws']; subst. rewrite !apply_writes_cons. cbn in *.
  destruct (decide (j ∈ map fst ws)) as [Hin|Hnin].
  - apply IH; [assumption..|].
    unfold loc_update. destruct (decide (n = j)) as [->|Hne].
    + rewrite !list_lookup_alter_eq.
      destruct (sd1 !! j), (sd2 !! j); cbn in *;
        first [congruence | rewrite !Hu1; congruence].
    + now rewrite !list_lookup_alter_ne.
  - rewrite !apply_writes_other by assumption.
    apply elem_of_cons in Hj as [->|Hj]; [|contradiction].
    unfold loc_update. rewrite !list_lookup_alter_eq.
    destruct (sd1 !! n) as [r1|], (sd2 !! n) as [r2|]; cbn in *; try congruence.
    f_equal. apply Hu2. congruence.
Qed.

Lemma merge_loop_app aps_overlap sd fs1 fs2 :
  merge_loop aps_overlap sd (fs1 ++ fs2)
  = sd' ← merge_loop aps_overlap sd fs1; merge_loop aps_overlap sd' fs2.
Proof.
  revert sd. induction fs1 as [|[i f] fs1 IH]; intros sd; cbn; [reflexivity|].
  destruct (merge_bin aps_overlap sd f) as [sd'|e]; cbn; [apply IH|reflexivity].
Qed.

Lemma merge_loop_dndlogd aps_overlap fs sd sd' j :
  merge_loop aps_overlap sd fs = Ok sd' ->
  dndlogd <$> sd' !! j = dndlogd <$> sd !! j.
Proof.
  revert sd. induction fs as [|[i f] fs IH]; intros sd; cbn.
  { now intros [= <-]. }
  rewrite merge_bin_writes.
  destruct (merge_writes aps_overlap f) as [ws|e] eqn:Hws; cbn; [|discriminate].
  intros H. rewrite (IH _ H).
  apply apply_writes_dndlogd. eapply merge_writes_overwrite; eassumption.
Qed.

Lemma merge_loop_not_folded aps_overlap fs sd sd' j :
  merge_loop aps_overlap sd fs = Ok sd' ->
  Forall (fun g => j ∉ folded_into aps_overlap g.2) fs ->
  sd' !! j = sd !! j.
Proof.
  revert sd. induction fs as [|[i f] fs IH]; intros sd; cbn.
  { now intros [= <-]. }
  rewrite merge_bin_writes. unfold folded_into at 1.
  destruct (merge_writes aps_overlap f) as [ws|e] eqn:Hws; cbn; [|discriminate].
  intros H Hall. inversion Hall as [|? ? Hf Hall']; subst. cbn in Hf.
  unfold folded_into in Hf. rewrite Hws in Hf.
  rewrite (IH _ H Hall'). now apply apply_writes_other.
Qed.

(** C10.  The aps rows are read from the copy [aps_overlap] taken before
    the loop and their counts are assigned, not accumulated: when
    [smps_bin] is the last bin of [smps_overlap] folded into the aps row
    [j], that row is, after the loop, what merging [smps_bin] alone into
    the frame the loop started from makes of it; what earlier bins wrote to
    the row is lost. *)
Theorem merge_loop_last_fold_wins
    (aps_overlap : list IRow) (sd_combined sd_final : Frame)
    (earlier later : list IRow) (i : nat) (smps_bin : Row) (j : nat) :
  merge_loop aps_overlap sd_combined (earlier ++ (i, smps_bin) :: later) = Ok sd_final ->
  j ∈ folded_into aps_overlap smps_bin ->
  Forall (fun g => j ∉ folded_into aps_overlap g.2) later ->
  exists sd_alone,
    merge_bin aps_overlap sd_combined smps_bin = Ok sd_alone
    /\ sd_final !! j = sd_alone !! j.
Proof.
  intros Hloop Hj Hlater.
  rewrite merge_loop_app in Hloop.
  destruct (merge_loop aps_overlap sd_combined earlier) as [sd1|e] eqn:H1;
    cbn in Hloop; [|discriminate].
  rewrite merge_bin_writes in Hloop. rewrite merge_bin_writes.
  unfold folded_into in Hj.
  destruct (merge_writes aps_overlap smps_bin) as [ws|e] eqn:Hws; cbn in *;
    [|discriminate].
  exists (apply_writes ws sd_combined). split; [reflexivity|].
  rewrite (merge_loop_not_folded _ _ _ _ _ Hloop Hlater).
  apply apply_writes_written; [eapply merge_writes_overwrite; eassumption|assumption|].
  eapply merge_loop_dndlogd; eassumption.
Qed.

(** ** Counts across a merge *)

Lemma fdiv_finite (x y : Q) : ~ y == 0 -> (fl x / fl y)%fl = Some (x / y).
Proof. intros H. cbn. now rewrite (Qeq_bool_false _ H). Qed.

Lemma cell_dn_alter_eq (sd : Frame) (upd : Row -> Row) (j : nat) (r : Row) :
  sd !! j = Some r -> cell_dn (alter upd j sd) j = dn (upd r).
Proof. intros H. unfold cell_dn. now rewrite list_lookup_alter_eq, H. Qed.

Lemma cell_dn_alter_ne (sd : Frame) (upd : Row -> Row) (i j : nat) :
  i <> j -> cell_dn (alter upd i sd) j = cell_dn sd j.
Proof. intros H. unfold cell_dn. now rewrite list_lookup_alter_ne. Qed.

Lemma merge_left_edge_dn (f t r : Row) (cf ct : Q) :
  dn f = Some cf -> dn t = Some ct ->
  ~ width f == 0 -> ~ width t == 0 ->
  dn (merge_left_edge f t r)
  = Some (cf * ((dpes_lower t - dpes_lower f) / width f)
          + ct * ((dpes_upper t - dpes_upper f) / width t)
          + ((1 # 2) * cf * (dpes_upper f - dpes_lower t) / width f
             + (1 # 2) * ct * (dpes_upper f - dpes_lower t) / width t)).
Proof.
  intros Hf Ht Hwf Hwt. unfold merge_left_edge, width in *. cbn.
  rewrite Hf, Ht. cbn.
  rewrite (Qeq_bool_false _ Hwf), (Qeq_bool_false _ Hwt). reflexivity.
Qed.

Lemma merge_boundary_dn (f t r : Row) (a o cf ct : Q) :
  dn f = Some cf -> dn t = Some ct ->
  ~ width f == 0 -> ~ width t == 0 ->
  dn (merge_boundary f t a o r)
  = Some (ct * (a / width t) + (ct * (o / width t) + cf * (o / width f)) / 2).
Proof.
  intros Hf Ht Hwf Hwt. unfold merge_boundary, width in *. cbn.
  rewrite Hf, Ht. cbn.
  rewrite (Qeq_bool_false _ Hwf), (Qeq_bool_false _ Hwt). reflexivity.
Qed.

(** C1, as the code has it.  In each of the three geometries, the counts
    of the aps rows that a pass writes sum to the counts of these aps bins
    plus the count of the fine bin, minus half of what the aps bins and the
    fine bin both place in their common width: there the two instruments
    are averaged, not added. *)
Theorem merge_bin_count_balance
    (aps_overlap : list IRow) (sd_combined : Frame) (smps_bin : Row)
    (targets : list IRow) (cf : Q) :
  fold_geometry aps_overlap smps_bin targets ->
  dn smps_bin = Some cf ->
  0 < width smps_bin ->
  Forall (fun t => is_Some (dn t.2) /\ 0 < width t.2
                   /\ (t.1 < length sd_combined)%nat) targets ->
  exists sd,
    merge_bin aps_overlap sd_combined smps_bin = Ok sd
    /\ feq (fsum (map (fun t => cell_dn sd t.1) targets))
         (fsum (map (fun t => dn t.2) targets) + dn smps_bin
          - fl (1 # 2)
            * fsum (map (fun t =>
                           count_within t.2 (common_width smps_bin t.2)
                           + count_within smps_bin (common_width smps_bin t.2))
                      targets))%fl.
Proof.
  intros Hgeo Hcf Hwf Hts.
  destruct Hgeo as [lo name t Hlo Hlt Hsel Hl Hu
                   |lo hi name t Hlo Hhi Hlt1 Hlt2 Hsel Hl Hu
                   |lo hi name1 name2 t1 t2 Hlo Hhi Hlt1 Hlt2 Hsel Hne Hl Hmid Hu].
  - (* left edge *)
    apply Forall_cons in Hts as [([ct Hct] & Hwt & Hname) _]. cbn in *.
    destruct (lookup_lt_is_Some_2 sd_combined name Hname) as [r Hr].
    eexists. split.
    { unfold merge_bin. rewrite Hlo. cbn.
      assert (Qlt_bool (dpes_lower smps_bin) lo = true) as -> by now apply Qlt_bool_iff.
      rewrite Hsel. reflexivity. }
    cbn. unfold loc_update. rewrite (cell_dn_alter_eq _ _ _ _ Hr).
    rewrite (merge_left_edge_dn _ _ _ cf ct) by (assumption || lra).
    unfold count_within, common_width. rewrite Hct, Hcf.
    rewrite !fdiv_finite by lra. cbn.
    rewrite (Q.min_l _ _ Hu), (Q.max_r (dpes_lower smps_bin) (dpes_lower t)) by lra.
    unfold width in *. field. split; lra.
  - (* embraced *)
    apply Forall_cons in Hts as [([ct Hct] & Hwt & Hname) _]. cbn in *.
    destruct (lookup_lt_is_Some_2 sd_combined name Hname) as [r Hr].
    eexists. split.
    { unfold merge_bin. rewrite Hlo. cbn.
      assert (Qlt_bool (dpes_lower smps_bin) lo = false) as ->
        by (apply Qlt_bool_false_iff; lra).
      rewrite Hhi. cbn.
      assert (Qlt_bool lo (dpes_lower smps_bin) = true) as -> by now apply Qlt_bool_iff.
      assert (Qlt_bool (dpes_upper smps_bin) hi = true) as -> by now apply Qlt_bool_iff.
      cbn. rewrite Hsel. reflexivity. }
    cbn. unfold loc_update. rewrite (cell_dn_alter_eq _ _ _ _ Hr).
    rewrite (merge_embraced_dn _ _ _ ct cf) by (assumption || (unfold width in *; lra)).
    unfold count_within, common_width. rewrite Hct, Hcf.
    rewrite !fdiv_finite by lra. cbn.
    rewrite (Q.min_l _ _ Hu), (Q.max_l _ _ Hl).
    unfold width in *. field. split; lra.
  - (* boundary *)
    apply Forall_cons in Hts as [([ct1 Hct1] & Hwt1 & Hname1) Hts].
    apply Forall_cons in Hts as [([ct2 Hct2] & Hwt2 & Hname2) _]. cbn in *.
    destruct (lookup_lt_is_Some_2 sd_combined name1 Hname1) as [r1 Hr1].
    destruct (lookup_lt_is_Some_2 sd_combined name2 Hname2) as [r2 Hr2].
    assert (Hf1 : dpes_lower smps_bin < dpes_upper t1 /\ dpes_lower t2 < dpes_upper smps_bin).
    { assert (Hin1 : In (name1, t1) (List.filter
         (fun t => Qlt_bool (dpes_lower smps_bin) (dpes_upper t.2)
                   && Qlt_bool (dpes_lower t.2) (dpes_upper smps_bin)) aps_overlap))
        by (rewrite Hsel; now left).
      assert (Hin2 : In (name2, t2) (List.filter
         (fun t => Qlt_bool (dpes_lower smps_bin) (dpes_upper t.2)
                   && Qlt_bool (dpes_lower t.2) (dpes_upper smps_bin)) aps_overlap))
        by (rewrite Hsel; right; now left).
      apply filter_In in Hin1 as [_ Hin1]. apply filter_In in Hin2 as [_ Hin2].
      apply andb_true_iff in Hin1 as [Hin1 _]. apply andb_true_iff in Hin2 as [_ Hin2].
      apply Qlt_bool_iff in Hin1, Hin2. cbn in *. split; assumption. }
    destruct Hf1 as [Hf1 Hf2].
    eexists. split.
    { unfold merge_bin. rewrite Hlo. cbn.
      assert (Qlt_bool (dpes_lower smps_bin) lo = false) as ->
        by (apply Qlt_bool_false_iff; lra).
      rewrite Hhi. cbn.
      assert (Qlt_bool lo (dpes_lower smps_bin) = true) as -> by now apply Qlt_bool_iff.
      assert (Qlt_bool (dpes_upper smps_bin) hi = true) as -> by now apply Qlt_bool_iff.
      cbn. rewrite Hsel. reflexivity. }
    cbn. unfold loc_update.
    rewrite (cell_dn_alter_ne _ _ name2 name1) by congruence.
    rewrite (cell_dn_alter_eq _ _ _ _ Hr1).
    rewrite (cell_dn_alter_eq _ _ name2 r2)
      by (now rewrite list_lookup_alter_ne by congruence).
    rewrite (merge_boundary_dn _ _ _ _ _ cf ct1) by (assumption || lra).
    rewrite (merge_boundary_dn _ _ _ _ _ cf ct2) by (assumption || lra).
    unfold count_within, common_width. rewrite Hct1, Hct2, Hcf.
    rewrite !fdiv_finite by lra. cbn.
    unfold width in *.
    rewrite (Q.min_r (dpes_upper smps_bin) (dpes_upper t1)) by lra.
    rewrite (Q.max_l (dpes_lower smps_bin) (dpes_lower t1)) by lra.
    rewrite (Q.min_l (dpes_upper smps_bin) (dpes_upper t2)) by lra.
    rewrite (Q.max_r (dpes_lower smps_bin) (dpes_lower t2)) by lra.
    rewrite Hmid. field. repeat split; lra.
Qed.

(** ** The gap interpolator changes the [dndlogd] column only *)

Lemma indexed_lookup (sd : Frame) (k : nat) (r : Row) :
  (k, r) ∈ indexed sd <-> sd !! k = Some r.
Proof.
  unfold indexed. rewrite list_elem_of_lookup. split.
  - intros [n Hn]. rewrite list_lookup_imap in Hn.
    destruct (sd !! n) eqn:E; cbn in Hn; [|discriminate].
    injection Hn as <- <-. assumption.
  - intros H. exists k. rewrite list_lookup_imap, H. reflexivity.
Qed.

Lemma idxmax_from_In best l :
  idxmax_from best l = best.1 \/ In (idxmax_from best l) (map fst l).
Proof.
  revert best. induction l as [|p l IH]; intros best; cbn; [now left|].
  destruct (IH (if Qlt_bool best.2 p.2 then p else best)) as [H|H];
    [|right; now right].
  rewrite H. destruct (Qlt_bool best.2 p.2); [right; now left|now left].
Qed.

Lemma idxmin_from_In best l :
  idxmin_from best l = best.1 \/ In (idxmin_from best l) (map fst l).
Proof.
  revert best. induction l as [|p l IH]; intros best; cbn; [now left|].
  destruct (IH (if Qlt_bool p.2 best.2 then p else best)) as [H|H];
    [|right; now right].
  rewrite H. destruct (Qlt_bool p.2 best.2); [right; now left|now left].
Qed.

Lemma idxmax_In l i : idxmax l = Ok i -> In i (map fst l).
Proof.
  destruct l as [|p l]; cbn; [discriminate|]. intros [= <-].
  destruct (idxmax_from_In p l); [left; congruence|now right].
Qed.

Lemma idxmin_In l i : idxmin l = Ok i -> In i (map fst l).
Proof.
  destruct l as [|p l]; cbn; [discriminate|]. intros [= <-].
  destruct (idxmin_from_In p l); [left; congruence|now right].
Qed.

(** The edge labels are labels of rows of the frame, of the two instruments. *)
Lemma edge_bins_rows (sd : Frame) (i j : nat) :
  edge_bins sd = Ok (i, j) ->
  (exists r, sd !! i = Some r /\ flag r = smps)
  /\ (exists r, sd !! j = Some r /\ flag r = aps).
Proof.
  unfold edge_bins.
  destruct (idxmax _) as [i'|e] eqn:Hi; cbn; [|discriminate].
  destruct (idxmin _) as [j'|e] eqn:Hj; cbn; [|discriminate].
  intros [= <- <-].
  apply idxmax_In in Hi. apply idxmin_In in Hj.
  rewrite map_map in Hi, Hj. cbn in Hi, Hj.
  apply in_map_iff in Hi as [[i0 ri] [<- Hi]].
  apply in_map_iff in Hj as [[j0 rj] [<- Hj]].
  apply filter_In in Hi as [Hi Hfi]. apply filter_In in Hj as [Hj Hfj].
  apply list_elem_of_In, indexed_lookup in Hi, Hj. cbn in *.
  split; [exists ri|exists rj]; (split; [assumption|]).
  - unfold flag_is in Hfi. now destruct (flag ri).
  - unfold flag_is in Hfj. now destruct (flag rj).
Qed.

Lemma interpolate_index_from_length prev l :
  length (interpolate_index_from prev l) = length l.
Proof.
  revert prev. induction l as [|[x [y|]] l IH]; intros prev; cbn;
    [reflexivity|now rewrite IH..].
Qed.

Lemma interpolate_index_from_valid prev l n x y :
  l !! n = Some (x, Some y) ->
  interpolate_index_from prev l !! n = Some (Some y).
Proof.
  revert prev n. induction l as [|[x' [y'|]] l IH]; intros prev [|n] H; cbn in *;
    try discriminate; try (now injection H as -> ->); now apply IH.
Qed.

Lemma set_dndlogd_same (r : Row) : set_dndlogd (dndlogd r) r = r.
Proof. now destruct r. Qed.

Lemma set_dndlogd_twice (v v' : float) (r : Row) :
  set_dndlogd v (set_dndlogd v' r) = set_dndlogd v r.
Proof. reflexivity. Qed.

Lemma loc_slice_lookup (a b : nat) (sd : Frame) (n : nat) :
  (a + n <= b)%nat -> loc_slice a b sd !! n = sd !! (a + n)%nat.
Proof.
  intros H. unfold loc_slice. rewrite lookup_take_lt by lia. apply lookup_drop.
Qed.

Lemma loc_slice_length (a b : nat) (sd : Frame) :
  (a <= b)%nat -> (b < length sd)%nat -> length (loc_slice a b sd) = (S b - a)%nat.
Proof.
  intros H1 H2. unfold loc_slice. rewrite length_take, length_drop. lia.
Qed.

Lemma interpolate_dndlogd_gap_lookup (sd sd' : Frame) (w i j : nat) :
  edge_bins sd = Ok (i, j) ->
  interpolate_dndlogd_gap sd w = Ok sd' ->
  (i < j < length sd)%nat
  /\ length sd' = length sd
  /\ forall k r, sd !! k = Some r ->
       sd' !! k = Some (set_dndlogd (gap_dndlogd sd w i j k r) r).
Proof.
  intros He H. unfold interpolate_dndlogd_gap in H. rewrite He in H. cbn in H.
  destruct (edge_bins_rows _ _ _ He) as [(ri & Hri & Hfi) (rj & Hrj & Hfj)].
  assert (Hij : i <> j) by (intros ->; congruence).
  assert (Hj : (j < length sd)%nat) by (eapply lookup_lt_Some; eassumption).
  assert (Hi : (i < length sd)%nat) by (eapply lookup_lt_Some; eassumption).
  destruct (loc_slice i j sd) as [|r0 rest] eqn:Hs.
  { discriminate. }
  assert (Hle : (i <= j)%nat).
  { destruct (le_lt_dec i j) as [|Hgt]; [assumption|].
    unfold loc_slice in Hs. replace (S j - i)%nat with 0%nat in Hs by lia.
    discriminate. }
  rewrite <- Hs in H. injection H as <-.
  fold (gap_values sd w i j).
  assert (Hlen : length (gap_values sd w i j) = (S j - i)%nat).
  { unfold gap_values, interpolate_index.
    rewrite interpolate_index_from_length, length_map, !length_alter.
    now apply loc_slice_length. }
  split; [lia|]. split.
  { unfold loc_update. rewrite !length_alter, !length_app, length_take, length_zip_with,
      length_drop, Hlen, loc_slice_length by assumption. lia. }
  intros k r Hk.
  assert (Hkl : (k < length sd)%nat) by (eapply lookup_lt_Some; eassumption).
  assert (Hmid : forall n, (i <= n <= j)%nat ->
            (take i sd ++ zip_with set_dndlogd (gap_values sd w i j) (loc_slice i j sd)
               ++ drop (S j) sd) !! n
            = (fun r => set_dndlogd
                 (from_option id None (gap_values sd w i j !! (n - i)%nat)) r) <$> sd !! n).
  { intros n Hn. rewrite lookup_app_r by (rewrite length_take; lia).
    rewrite length_take, Nat.min_l by lia.
    rewrite lookup_app_l
      by (rewrite length_zip_with, Hlen, loc_slice_length by assumption; lia).
    rewrite lookup_zip_with, loc_slice_lookup by lia.
    replace (i + (n - i))%nat with n by lia.
    destruct (lookup_lt_is_Some_2 (gap_values sd w i j) (n - i)) as [v Hv]; [lia|].
    destruct (sd !! n); cbn; rewrite Hv; reflexivity. }
  unfold loc_update, gap_dndlogd, cell_dndlogd.
  destruct (decide (k = j)) as [->|Hkj].
  { rewrite list_lookup_alter_eq, list_lookup_alter_ne, Hmid, Hk by lia. cbn.
    rewrite Hrj in *. injection Hk as <-. cbn.
    rewrite bool_decide_eq_false_2 by lia. reflexivity. }
  rewrite list_lookup_alter_ne by congruence.
  destruct (decide (k = i)) as [->|Hki].
  { rewrite list_lookup_alter_eq, Hmid, Hk by lia. cbn.
    rewrite bool_decide_eq_false_2 by lia. reflexivity. }
  rewrite list_lookup_alter_ne by congruence.
  destruct (decide (i < k < j)%nat) as [Hin|Hout].
  { rewrite Hmid, Hk by lia. cbn. rewrite bool_decide_eq_true_2 by assumption.
    reflexivity. }
  rewrite bool_decide_eq_false_2 by assumption. rewrite set_dndlogd_same.
  destruct (le_lt_dec i k) as [Hik|Hik].
  - rewrite lookup_app_r by (rewrite length_take; lia).
    rewrite lookup_app_r
      by (rewrite length_take, length_zip_with, Hlen, loc_slice_length by assumption; lia).
    rewrite length_take, length_zip_with, Hlen, loc_slice_length by assumption.
    rewrite lookup_drop, <- Hk. f_equal. lia.
  - rewrite lookup_app_l by (rewrite length_take; lia).
    now rewrite lookup_take_lt.
Qed.

(** ** Interpolation across the gap *)

Lemma next_valid_run (l : list (Q * float)) (n1 : nat) (x1 y1 : Q) :
  l !! n1 = Some (x1, Some y1) ->
  (forall m, (m < n1)%nat -> exists xm, l !! m = Some (xm, None)) ->
  next_valid l = Some (x1, y1).
Proof.
  revert n1. induction l as [|[x [y|]] l IH]; intros n1 H1 Hrun.
  - discriminate.
  - destruct n1 as [|n1].
    + cbn in *. now injection H1 as -> ->.
    + destruct (Hrun 0%nat) as [xm Hm]; [lia|]. discriminate.
  - destruct n1 as [|n1]; [discriminate|]. cbn in *.
    apply (IH n1); [assumption|]. intros m Hm. apply (Hrun (S m)). lia.
Qed.

Lemma interpolate_index_from_run (l : list (Q * float)) (n1 n : nat)
    (x0 y0 x1 y1 x : Q) :
  l !! n1 = Some (x1, Some y1) ->
  (forall m, (m < n1)%nat -> exists xm, l !! m = Some (xm, None)) ->
  (n < n1)%nat ->
  l !! n = Some (x, None) ->
  interpolate_index_from (Some (x0, y0)) l !! n
  = Some (Some (np_interp x0 y0 x1 y1 x)).
Proof.
  revert n1 n. induction l as [|[xa [ya|]] l IH]; intros n1 n H1 Hrun Hn Hx.
  - discriminate.
  - destruct (Hrun 0%nat) as [xm Hm]; [lia|]. discriminate.
  - destruct n1 as [|n1]; [lia|]. cbn in H1.
    assert (Hrun' : forall m, (m < n1)%nat -> exists xm, l !! m = Some (xm, None))
      by (intros m Hm; apply (Hrun (S m)); lia).
    cbn. rewrite (next_valid_run _ _ _ _ H1 Hrun').
    destruct n as [|n]; cbn in *.
    + now injection Hx as ->.
    + apply (IH n1); [assumption..|lia|assumption].
Qed.

(** C4, as the code has it.  When the rows strictly between the two edge
    rows carry no density yet and the two averaged edge densities are
    finite, [interpolate_dndlogd_gap] succeeds and gives each of these rows
    the density on the straight line, over [dpes] itself, from the averaged
    density at the [dpes] of the lower edge row to the averaged density at
    the [dpes] of the upper edge row. *)
Theorem interpolate_dndlogd_gap_linear_in_dpes
    (sd_gapped : Frame) (edge_average_window i j : nat)
    (edge_low edge_high : Row) (avg_low avg_high : Q) :
  edge_bins sd_gapped = Ok (i, j) ->
  (i < j)%nat ->
  sd_gapped !! i = Some edge_low ->
  sd_gapped !! j = Some edge_high ->
  edge_bin_min_dndlogd_avg sd_gapped i edge_average_window = Some avg_low ->
  edge_bin_max_dndlogd_avg sd_gapped j edge_average_window = Some avg_high ->
  (forall k r, (i < k < j)%nat -> sd_gapped !! k = Some r -> dndlogd r = None) ->
  exists sd,
    interpolate_dndlogd_gap sd_gapped edge_average_window = Ok sd
    /\ forall k r, (i < k < j)%nat -> sd_gapped !! k = Some r ->
         sd !! k
         = Some (set_dndlogd
                   (Some (np_interp (dpes edge_low) avg_low (dpes edge_high) avg_high
                            (dpes r))) r).
Proof.
  intros He Hij Hlow Hhigh Hal Hah Hnan.
  assert (Hj : (j < length sd_gapped)%nat) by (eapply lookup_lt_Some; eassumption).
  assert (Hsl : length (loc_slice i j sd_gapped) = (S j - i)%nat)
    by (apply loc_slice_length; lia).
  destruct (interpolate_dndlogd_gap sd_gapped edge_average_window) as [sd|e] eqn:Hrun.
  2:{ exfalso. unfold interpolate_dndlogd_gap in Hrun. rewrite He in Hrun. cbn in Hrun.
      destruct (loc_slice i j sd_gapped); [cbn in Hsl; lia|discriminate]. }
  exists sd. split; [reflexivity|]. intros k r Hk Hr.
  destruct (interpolate_dndlogd_gap_lookup _ _ _ _ _ He Hrun) as (_ & _ & Hlk).
  rewrite (Hlk k r Hr). do 2 f_equal.
  unfold gap_dndlogd. rewrite bool_decide_eq_true_2 by assumption.
  unfold gap_values, interpolate_index. rewrite Hal, Hah.
  set (g := alter _ _ (alter _ _ _)).
  assert (Hg : forall n, (n <= j - i)%nat ->
            map (fun r => (dpes r, dndlogd r)) g !! n
            = (fun r => (dpes r,
                         if decide (n = 0)%nat then Some avg_low
                         else if decide (n = j - i)%nat then Some avg_high
                         else dndlogd r)) <$> sd_gapped !! (i + n)%nat).
  { intros n Hn. subst g. rewrite list_lookup_fmap, length_alter, Hsl.
    replace (S j - i - 1)%nat with (j - i)%nat by lia.
    destruct (decide (n = j - i)%nat) as [->|Hne].
    - rewrite list_lookup_alter_eq, list_lookup_alter_ne, loc_slice_lookup by lia.
      destruct (decide (j - i = 0)%nat); [lia|].
      destruct (sd_gapped !! (i + (j - i))%nat); reflexivity.
    - rewrite list_lookup_alter_ne by congruence.
      destruct (decide (n = 0)%nat) as [->|Hn0].
      + rewrite list_lookup_alter_eq, loc_slice_lookup by lia.
        destruct (sd_gapped !! (i + 0)%nat); reflexivity.
      + rewrite list_lookup_alter_ne, loc_slice_lookup by lia.
        destruct (sd_gapped !! (i + n)%nat); reflexivity. }
  destruct (map (fun r => (dpes r, dndlogd r)) g) as [|[x0 y0] l] eqn:Hl.
  { specialize (Hg 0%nat ltac:(lia)). rewrite Nat.add_0_r, Hlow in Hg. discriminate. }
  pose proof (Hg 0%nat ltac:(lia)) as H0.
  rewrite Nat.add_0_r, Hlow in H0. cbn in H0. injection H0 as -> ->.
  destruct (k - i)%nat as [|n] eqn:Hki; [lia|]. cbn.
  assert (Hlast : l !! (j - i - 1)%nat = Some (dpes edge_high, Some avg_high)).
  { specialize (Hg (j - i)%nat ltac:(lia)).
    replace (i + (j - i))%nat with j in Hg by lia. rewrite Hhigh in Hg.
    destruct (j - i)%nat as [|m] eqn:Hji; [lia|]. cbn in Hg.
    replace (S m - 1)%nat with m by lia.
    destruct (decide (S m = 0)%nat); [lia|].
    destruct (decide (S m = S m)); [assumption|congruence]. }
  assert (Hmids : forall m, (m < j - i - 1)%nat ->
            exists r', sd_gapped !! (i + S m)%nat = Some r'
                       /\ l !! m = Some (dpes r', None)).
  { intros m Hm.
    destruct (lookup_lt_is_Some_2 sd_gapped (i + S m)) as [r' Hr']; [lia|].
    exists r'. split; [assumption|].
    specialize (Hg (S m) ltac:(lia)). rewrite Hr' in Hg. cbn in Hg.
    destruct (decide (S m = j - i)%nat); [lia|].
    rewrite (Hnan (i + S m)%nat r') in Hg by (lia || assumption). assumption. }
  assert (Hn : (n < j - i - 1)%nat) by lia.
  destruct (Hmids n Hn) as (r' & Hr' & Hln).
  replace (i + S n)%nat with k in Hr' by lia.
  rewrite Hr in Hr'. injection Hr' as <-.
  erewrite interpolate_index_from_run; [reflexivity|exact Hlast| |exact Hn|exact Hln].
  intros m Hm. destruct (Hmids m Hm) as (r' & _ & Hlm). eauto.
Qed.

(** ** The frame across the gap-fill branch *)

Lemma gap_dndlogd_valid (sd : Frame) (w i j k : nat) (r : Row) (d : Q) :
  (i < j < length sd)%nat ->
  sd !! k = Some r ->
  dndlogd r = Some d ->
  gap_dndlogd sd w i j k r = Some d.
Proof.
  intros Hij Hk Hd. unfold gap_dndlogd. case_bool_decide as Hin; [|assumption].
  unfold gap_values, interpolate_index.
  erewrite interpolate_index_from_valid; [reflexivity|].
  rewrite list_lookup_fmap, length_alter, loc_slice_length by lia.
  rewrite !list_lookup_alter_ne, loc_slice_lookup by lia.
  replace (i + (k - i))%nat with k by lia. rewrite Hk. cbn. now rewrite Hd.
Qed.

Lemma interpolate_dndlogd_gap_keeps (sd sd' : Frame) (w : nat) :
  interpolate_dndlogd_gap sd w = Ok sd' ->
  Forall2 same_but_dndlogd sd sd'.
Proof.
  intros H.
  destruct (edge_bins sd) as [[i j]|e] eqn:He.
  2:{ unfold interpolate_dndlogd_gap in H. rewrite He in H. discriminate. }
  destruct (interpolate_dndlogd_gap_lookup _ _ _ _ _ He H) as (Hij & Hlen & Hlk).
  apply Forall2_same_length_lookup_2; [now symmetry|].
  intros k r r' Hr Hr'. rewrite (Hlk k r Hr) in Hr'. injection Hr' as <-.
  eexists. split; [reflexivity|]. intros d Hd. now apply gap_dndlogd_valid.
Qed.

Lemma same_but_dndlogd_dpes (sd sd' : Frame) :
  Forall2 same_but_dndlogd sd sd' -> map dpes sd' = map dpes sd.
Proof.
  induction 1 as [|r r' sd sd' (v & -> & _) _ IH]; cbn; [reflexivity|].
  now rewrite IH.
Qed.

(** ** Strict order after the overlap branch *)

Lemma py_min_from_spec (m : Q) (l : list Q) :
  (py_min_from m l = m \/ In (py_min_from m l) l)
  /\ py_min_from m l <= m
  /\ Forall (Qle (py_min_from m l)) l.
Proof.
  revert m. induction l as [|x l IH]; intros m; cbn.
  { split; [now left|]. split; [lra|constructor]. }
  destruct (IH (if Qlt_bool x m then x else m)) as (Hin & Hle & Hall).
  destruct (Qlt_bool x m) eqn:E.
  - apply Qlt_bool_iff in E. split; [|split].
    + destruct Hin as [->|Hin]; [right; now left|right; now right].
    + lra.
    + constructor; assumption.
  - apply Qlt_bool_false_iff in E. split; [|split].
    + destruct Hin as [Hin|Hin]; [now left|right; now right].
    + assumption.
    + constructor; [lra|assumption].
Qed.

Lemma py_min_spec (l : list Q) (m : Q) :
  py_min l = Ok m -> In m l /\ Forall (Qle m) l.
Proof.
  destruct l as [|x l]; cbn; [discriminate|]. intros [= <-].
  destruct (py_min_from_spec x l) as (Hin & Hle & Hall). split.
  - destruct Hin as [->|Hin]; [now left|now right].
  - constructor; assumption.
Qed.

Lemma StronglySorted_lookup_lt {A} (R : A -> A -> Prop) (l : list A) (i j : nat) (x y : A) :
  StronglySorted R l -> (i < j)%nat -> l !! i = Some x -> l !! j = Some y -> R x y.
Proof.
  intros H. revert i j. induction H as [|a l Hl IH Hall]; intros i j Hij Hi Hj.
  { discriminate. }
  destruct j as [|j]; [lia|]. destruct i as [|i]; cbn in *.
  - injection Hi as <-. rewrite Forall_forall in Hall. apply Hall.
    eapply list_elem_of_lookup_2; eassumption.
  - apply (IH i j); [lia|assumption..].
Qed.

Lemma StronglySorted_of_lookup {A} (R : A -> A -> Prop) (l : list A) :
  (forall i j x y, (i < j)%nat -> l !! i = Some x -> l !! j = Some y -> R x y) ->
  StronglySorted R l.
Proof.
  induction l as [|a l IH]; intros H; constructor.
  - apply IH. intros i j x y Hij Hi Hj. apply (H (S i) (S j)); [lia|assumption..].
  - apply Forall_forall. intros y Hy. apply list_elem_of_lookup in Hy as [j Hj].
    apply (H 0%nat (S j)); [lia|reflexivity|assumption].
Qed.

Lemma StronglySorted_filter_map {A B} (keep : A -> bool) (g : A -> B)
    (R : B -> B -> Prop) (l : list A) :
  StronglySorted (fun a b => keep a = true -> keep b = true -> R (g a) (g b)) l ->
  StronglySorted R (map g (List.filter keep l)).
Proof.
  induction 1 as [|a l Hl IH Hall]; cbn; [constructor|].
  destruct (keep a) eqn:Ea; [|assumption].
  cbn. constructor; [assumption|].
  apply Forall_forall. intros y Hy.
  apply list_elem_of_In, in_map_iff in Hy as (b & <- & Hb).
  apply filter_In in Hb as [Hb Hkb]. rewrite Forall_forall in Hall.
  apply Hall; [now apply list_elem_of_In|reflexivity|assumption].
Qed.

Lemma drop_labels_sorted (R : Row -> Row -> Prop) (labels : list nat) (sd : Frame) :
  (forall i j x y, (i < j)%nat -> sd !! i = Some x -> sd !! j = Some y ->
                   ~ In i labels -> ~ In j labels -> R x y) ->
  StronglySorted R (drop_labels labels sd).
Proof.
  intros H. unfold drop_labels. apply StronglySorted_filter_map.
  apply StronglySorted_of_lookup. intros i j [i' x] [j' y] Hij Hi Hj Hki Hkj.
  unfold indexed in Hi, Hj. rewrite list_lookup_imap in Hi, Hj.
  destruct (sd !! i) as [x'|] eqn:Ei; [|discriminate].
  destruct (sd !! j) as [y'|] eqn:Ej; [|discriminate].
  cbn in *. injection Hi as <- <-. injection Hj as <- <-.
  apply negb_true_iff in Hki, Hkj.
  apply (H i j); try assumption.
  - intros Hin. apply not_true_iff_false in Hki. apply Hki.
    apply existsb_exists. exists i. split; [assumption|apply Nat.eqb_refl].
  - intros Hin. apply not_true_iff_false in Hkj. apply Hkj.
    apply existsb_exists. exists j. split; [assumption|apply Nat.eqb_refl].
Qed.

(** A list in strict order of [dpes] is left as it is by the sort. *)
Lemma leb_transitive : Transitive (fun a b => is_true (RowOrder.leb a b)).
Proof.
  intros a b c Hab Hbc. unfold RowOrder.leb, is_true in *.
  apply Qle_bool_iff in Hab, Hbc. apply Qle_bool_iff. lra.
Qed.

Lemma StronglySorted_cases {A} (R : A -> A -> Prop) (l : list A) (x y : A) :
  StronglySorted R l -> In x l -> In y l -> x = y \/ R x y \/ R y x.
Proof.
  induction 1 as [|a l Hl IH Hall]; intros Hx Hy; [contradiction|].
  rewrite Forall_forall in Hall.
  destruct Hx as [<-|Hx], Hy as [<-|Hy]; auto.
  - right; left. now apply Hall, list_elem_of_In.
  - right; right. now apply Hall, list_elem_of_In.
Qed.

Lemma StronglySorted_weaken {A} (R R' : A -> A -> Prop) (l : list A) :
  (forall x y, R x y -> R' x y) -> StronglySorted R l -> StronglySorted R' l.
Proof.
  intros HR. induction 1 as [|a l Hl IH Hall]; constructor; [assumption|].
  eapply Forall_impl; [exact Hall|]. intros y. apply HR.
Qed.

Lemma sort_values_dpes_id (sd : Frame) :
  StronglySorted before sd -> sort_values_dpes sd = sd.
Proof.
  intros H. unfold sort_values_dpes. symmetry.
  apply (StronglySorted_unique_strong (fun a b => is_true (RowOrder.leb a b))).
  - intros x y Hx Hy Hxy Hyx. unfold RowOrder.leb, is_true, before in *.
    apply Qle_bool_iff in Hxy, Hyx.
    apply list_elem_of_In in Hx, Hy.
    apply (Permutation_in _ (Permutation_sym (RowSort.Permuted_sort sd))) in Hy.
    destruct (StronglySorted_cases before _ _ _ H Hx Hy) as [?|[?|?]];
      [assumption|unfold before in *; lra..].
  - eapply StronglySorted_weaken; [|exact H].
    intros x y Hxy. unfold before, RowOrder.leb, is_true in *.
    apply Qle_bool_iff. lra.
  - apply RowSort.StronglySorted_sort. exact leb_transitive.
  - apply RowSort.Permuted_sort.
Qed.

Lemma merge_writes_centres (aps_overlap : list IRow) (f : Row)
    (ws : list (nat * (Row -> Row))) :
  merge_writes aps_overlap f = Ok ws ->
  Forall (fun w => exists t, In (w.1, t) aps_overlap
                             /\ forall r, centre_after_merge aps_overlap [f] w.1 t (w.2 r))
    ws.
Proof.
  unfold merge_writes.
  destruct (py_min _) as [lo|e] eqn:Hlo; cbn; [|discriminate].
  destruct (Qlt_bool (dpes_lower f) lo) eqn:Hedge.
  - destruct (List.filter _ aps_overlap) as [|[name t] [|? ?]] eqn:Hsel; try discriminate.
    intros [= <-]. constructor; [|constructor]. exists t. cbn. split.
    + assert (Hin : In (name, t) (List.filter
                 (fun t0 => Qlt_bool (dpes_lower t0.2) (dpes_upper f)) aps_overlap))
        by (rewrite Hsel; now left).
      now apply filter_In in Hin.
    + intros r. right. exists f. split; [now left|]. split; [|split; [assumption|reflexivity]].
      intros t' Ht'. apply Qlt_bool_iff in Hedge.
      apply py_min_spec in Hlo as [_ Hall]. rewrite Forall_forall in Hall.
      specialize (Hall (dpes_lower t'.2)).
      assert (lo <= dpes_lower t'.2).
      { apply Hall. apply list_elem_of_In, in_map_iff. now exists t'. }
      lra.
  - destruct (py_max _) as [hi|e]; cbn; [|discriminate].
    destruct (_ && _); [|intros [= <-]; constructor].
    destruct (List.filter _ aps_overlap) as [|[n1 t1] [|[n2 t2] [|? ?]]] eqn:Hsel;
      intros [= <-]; repeat constructor.
    + exists t1. cbn. split; [|intros r; now left].
      assert (Hin : In (n1, t1) (List.filter
                 (fun t0 => Qlt_bool (dpes_lower f) (dpes_upper t0.2)
                            && Qlt_bool (dpes_lower t0.2) (dpes_upper f)) aps_overlap))
        by (rewrite Hsel; now left).
      now apply filter_In in Hin.
    + exists t1. cbn. split; [|intros r; now left].
      assert (Hin : In (n1, t1) (List.filter
                 (fun t0 => Qlt_bool (dpes_lower f) (dpes_upper t0.2)
                            && Qlt_bool (dpes_lower t0.2) (dpes_upper f)) aps_overlap))
        by (rewrite Hsel; now left).
      now apply filter_In in Hin.
    + exists t2. cbn. split; [|intros r; now left].
      assert (Hin : In (n2, t2) (List.filter
                 (fun t0 => Qlt_bool (dpes_lower f) (dpes_upper t0.2)
                            && Qlt_bool (dpes_lower t0.2) (dpes_upper f)) aps_overlap))
        by (rewrite Hsel; right; now left).
      now apply filter_In in Hin.
Qed.

Lemma centre_after_merge_incl (aps_overlap : list IRow) (fine fine' : list Row)
    (n : nat) (t r' : Row) :
  (forall f, In f fine -> In f fine') ->
  centre_after_merge aps_overlap fine n t r' ->
  centre_after_merge aps_overlap fine' n t r'.
Proof.
  intros Hincl [H|(f & Hf & H)]; [now left|]. right. exists f. split; [auto|assumption].
Qed.

Lemma apply_writes_keeps (P : Row -> Prop) (ws : list (nat * (Row -> Row)))
    (sd : Frame) (n : nat) (r : Row) :
  sd !! n = Some r ->
  P r ->
  Forall (fun w => w.1 = n -> forall r, P (w.2 r)) ws ->
  exists r', apply_writes ws sd !! n = Some r' /\ P r'.
Proof.
  revert sd r. induction ws as [|[m u] ws IH]; intros sd r Hr HP Hws.
  { exists r. now split. }
  rewrite apply_writes_cons. inversion Hws as [|? ? Hw Hws']; subst. cbn in *.
  unfold loc_update. destruct (decide (m = n)) as [->|Hne].
  - apply (IH _ (u r)); [|auto|assumption].
    now rewrite list_lookup_alter_eq, Hr.
  - apply (IH _ r); [|assumption..].
    now rewrite list_lookup_alter_ne.
Qed.

Lemma NoDup_fst_eq {A} (l : list (nat * A)) (n : nat) (x y : A) :
  NoDup (map fst l) -> In (n, x) l -> In (n, y) l -> x = y.
Proof.
  induction l as [|[m z] l IH]; cbn; intros Hnd Hx Hy; [contradiction|].
  apply NoDup_cons in Hnd as [Hm Hnd].
  destruct Hx as [Hx|Hx], Hy as [Hy|Hy].
  - congruence.
  - injection Hx as -> ->. exfalso. apply Hm.
    apply list_elem_of_In, in_map_iff. now exists (n, y).
  - injection Hy as -> ->. exfalso. apply Hm.
    apply list_elem_of_In, in_map_iff. now exists (n, x).
  - now apply IH.
Qed.

Lemma merge_loop_centres (aps_overlap : list IRow) (fine : list Row)
    (fs : list IRow) (sd sd' : Frame) (n : nat) (t r : Row) :
  NoDup (map fst aps_overlap) ->
  (forall g, In g fs -> In g.2 fine) ->
  merge_loop aps_overlap sd fs = Ok sd' ->
  In (n, t) aps_overlap ->
  sd !! n = Some r ->
  centre_after_merge aps_overlap fine n t r ->
  exists r', sd' !! n = Some r' /\ centre_after_merge aps_overlap fine n t r'.
Proof.
  intros Hnd. revert sd r. induction fs as [|[i f] fs IH]; intros sd r Hfine Hloop Hin Hr Hc.
  { cbn in Hloop. injection Hloop as <-. exists r. now split. }
  cbn in Hloop. rewrite merge_bin_writes in Hloop.
  destruct (merge_writes aps_overlap f) as [ws|e] eqn:Hws; cbn in Hloop; [|discriminate].
  destruct (apply_writes_keeps (centre_after_merge aps_overlap fine n t) ws sd n r Hr Hc)
    as (r1 & Hr1 & Hc1).
  { eapply Forall_impl; [apply (merge_writes_centres _ _ _ Hws)|].
    intros [m u] (t' & Ht' & Hu) Hm r0. cbn in *. subst m.
    rewrite (NoDup_fst_eq _ _ _ _ Hnd Hin Ht').
    eapply centre_after_merge_incl; [|apply Hu].
    intros f0 [<-|[]]. apply (Hfine (i, f)). now left. }
  apply (IH (apply_writes ws sd) r1); try assumption.
  intros g Hg. apply Hfine. now right.
Qed.

Lemma merge_loop_outside (aps_overlap : list IRow) (fs : list IRow) (sd sd' : Frame)
    (n : nat) :
  merge_loop aps_overlap sd fs = Ok sd' ->
  ~ In n (map fst aps_overlap) ->
  sd' !! n = sd !! n.
Proof.
  intros Hloop Hn. eapply merge_loop_not_folded; [eassumption|].
  apply Forall_forall. intros [i g] _ Hin. cbn in Hin. apply Hn.
  unfold folded_into in Hin.
  destruct (merge_writes aps_overlap g) as [ws|e] eqn:Hws; [|inversion Hin].
  apply merge_writes_centres in Hws. rewrite Forall_forall in Hws.
  apply list_elem_of_In, in_map_iff in Hin as ([m u] & <- & Hw).
  destruct (Hws (m, u)) as (t & Ht & _); [now apply list_elem_of_In|].
  apply in_map_iff. now exists (m, t).
Qed.

Lemma merge_loop_length (aps_overlap : list IRow) (fs : list IRow) (sd sd' : Frame) :
  merge_loop aps_overlap sd fs = Ok sd' -> length sd' = length sd.
Proof.
  revert sd. induction fs as [|[i f] fs IH]; intros sd; cbn.
  { now intros [= <-]. }
  rewrite merge_bin_writes.
  destruct (merge_writes aps_overlap f) as [ws|e]; cbn; [|discriminate].
  intros H. rewrite (IH _ H). apply apply_writes_length.
Qed.

Lemma indexed_fst_lookup (sd : Frame) (i n : nat) :
  map fst (indexed sd) !! i = Some n -> n = i.
Proof.
  unfold indexed. change (map fst (imap pair sd)) with (fst <$> imap pair sd).
  rewrite list_lookup_fmap, list_lookup_imap.
  destruct (sd !! i); cbn; [|discriminate]. now intros [= <-].
Qed.

Lemma NoDup_fst_filter {A} (keep : nat * A -> bool) (l : list (nat * A)) :
  NoDup (map fst l) -> NoDup (map fst (List.filter keep l)).
Proof.
  induction l as [|a l IH]; cbn; intros Hnd; [constructor|].
  apply NoDup_cons in Hnd as [Ha Hnd].
  destruct (keep a); [|now apply IH].
  cbn. apply NoDup_cons. split; [|now apply IH].
  intros Hin. apply Ha. apply list_elem_of_In, in_map_iff in Hin as (b & Hb & Hin).
  apply filter_In in Hin as [Hin _].
  apply list_elem_of_In, in_map_iff. now exists b.
Qed.

Lemma indexed_NoDup (sd : Frame) : NoDup (map fst (indexed sd)).
Proof.
  apply NoDup_alt. intros i j n Hi Hj.
  apply indexed_fst_lookup in Hi, Hj. congruence.
Qed.

Lemma indexed_In (sd : Frame) (n : nat) (r : Row) :
  In (n, r) (indexed sd) <-> sd !! n = Some r.
Proof. rewrite <- list_elem_of_In. apply indexed_lookup. Qed.

Lemma merge_overlap_branch_steps (sd out : Frame) :
  merge_overlap_branch sd = Ok out ->
  exists aps_lo smps_hi sd',
    py_min (map dpes_lower (List.filter (flag_is aps) sd)) = Ok aps_lo
    /\ py_max (map dpes_upper (List.filter (flag_is smps) sd)) = Ok smps_hi
    /\ merge_loop
         (List.filter (fun ir => flag_is aps ir.2 && Qlt_bool (dpes_lower ir.2) smps_hi)
            (indexed sd))
         sd
         (List.filter (fun ir => flag_is smps ir.2 && Qlt_bool aps_lo (dpes_upper ir.2))
            (indexed sd)) = Ok sd'
    /\ out = sort_values_dpes
               (drop_labels
                  (map fst
                     (List.filter
                        (fun ir => flag_is smps ir.2 && Qlt_bool aps_lo (dpes_upper ir.2))
                        (indexed sd)))
                  sd').
Proof.
  unfold merge_overlap_branch.
  destruct (py_min _) as [aps_lo|e]; cbn; [|discriminate].
  destruct (py_max _) as [smps_hi|e]; cbn; [|discriminate].
  destruct (merge_loop _ _ _) as [sd'|e] eqn:Hloop; cbn; [|discriminate].
  intros [= <-]. now exists aps_lo, smps_hi, sd'.
Qed.

(** On distributions in order, the overlap branch leaves the rows in
    strict order of their centres. *)
Lemma merge_overlap_branch_strict (S A out : Frame) :
  Forall (fun r => flag r = smps) S ->
  Forall (fun r => flag r = aps) A ->
  well_formed S ->
  well_formed A ->
  merge_overlap_branch (S ++ A) = Ok out ->
  StronglySorted before out.
Proof.
  intros HfS HfA [HcS HsS] [HcA HsA] H.
  apply merge_overlap_branch_steps in H as (aps_lo & smps_hi & sd' & Hlo & Hhi & Hloop & ->).
  set (sd := S ++ A) in *.
  set (aps_overlap :=
         List.filter (fun ir : nat * Row =>
                        flag_is aps ir.2 && Qlt_bool (dpes_lower ir.2) smps_hi)
           (indexed sd)) in *.
  set (smps_overlap :=
         List.filter (fun ir : nat * Row =>
                        flag_is smps ir.2 && Qlt_bool aps_lo (dpes_upper ir.2))
           (indexed sd)) in *.
  rewrite Forall_forall in HfS, HfA, HcS, HcA.
  assert (HinS : forall n s, (n < length S)%nat -> sd !! n = Some s -> In s S).
  { intros n s Hn Hs. subst sd. rewrite lookup_app_l in Hs by assumption.
    apply list_elem_of_In. eapply list_elem_of_lookup_2; eassumption. }
  assert (HinA : forall n t, (length S <= n)%nat -> sd !! n = Some t ->
                             A !! (n - length S)%nat = Some t).
  { intros n t Hn Ht. subst sd. now rewrite lookup_app_r in Ht by assumption. }
  assert (HA_lo : forall t, In t A -> aps_lo <= dpes_lower t).
  { intros t Ht. apply py_min_spec in Hlo as [_ Hall]. rewrite Forall_forall in Hall.
    apply Hall. apply list_elem_of_In, in_map_iff. exists t. split; [reflexivity|].
    apply filter_In. split; [subst sd; apply in_or_app; now right|].
    unfold flag_is. rewrite (HfA t) by (now apply list_elem_of_In). reflexivity. }
  assert (Hov : forall n t, In (n, t) aps_overlap <->
                  sd !! n = Some t /\ flag t = aps /\ dpes_lower t < smps_hi).
  { intros n t. subst aps_overlap. rewrite filter_In, indexed_In. cbn.
    rewrite andb_true_iff, Qlt_bool_iff. unfold flag_is.
    split; intros (H1 & H2 & H3); (split; [assumption|split; [|assumption]]).
    - now destruct (flag t).
    - now rewrite H2. }
  assert (Hfine : forall f, In f (map snd smps_overlap) ->
                    flag f = smps /\ aps_lo < dpes_upper f /\ In f sd).
  { intros f Hf. apply in_map_iff in Hf as ([i f'] & <- & Hf). subst smps_overlap.
    apply filter_In in Hf as [Hf Hm]. cbn in *.
    apply andb_true_iff in Hm as [Hm1 Hm2]. apply Qlt_bool_iff in Hm2.
    apply indexed_In in Hf. split; [|split; [assumption|]].
    - unfold flag_is in Hm1. now destruct (flag f').
    - apply list_elem_of_In. eapply list_elem_of_lookup_2; eassumption. }
  assert (HfineS : forall f, In f (map snd smps_overlap) ->
                     In f S /\ aps_lo < dpes_upper f).
  { intros f Hf. destruct (Hfine f Hf) as (Hfl & Hup & Hin). split; [|assumption].
    subst sd. apply in_app_or in Hin as [Hin|Hin]; [assumption|].
    rewrite (HfA f) in Hfl by (now apply list_elem_of_In). discriminate. }
  assert (Hnd : NoDup (map fst aps_overlap))
    by (apply NoDup_fst_filter, indexed_NoDup).
  assert (Hrow : forall n t, (length S <= n)%nat -> sd !! n = Some t ->
            exists r', sd' !! n = Some r'
                       /\ centre_after_merge aps_overlap (map snd smps_overlap) n t r').
  { intros n t Hn Ht.
    assert (Hta : flag t = aps).
    { apply HfA. eapply list_elem_of_lookup_2. apply (HinA n t Hn Ht). }
    destruct (Qlt_le_dec (dpes_lower t) smps_hi) as [Hlt|Hge].
    - apply (merge_loop_centres aps_overlap (map snd smps_overlap) smps_overlap sd sd'
               n t t); try assumption.
      + intros g Hg. now apply in_map.
      + now apply Hov.
      + now left.
    - exists t. split; [|now left].
      rewrite (merge_loop_outside _ _ _ _ n Hloop); [assumption|].
      intros Hin. apply in_map_iff in Hin as ([m t'] & Hm & Hin). cbn in Hm. subst m.
      apply Hov in Hin as (Ht' & _ & Hlt). rewrite Ht in Ht'. injection Ht' as <-. lra. }
  assert (Hsrow : forall n, (n < length S)%nat -> sd' !! n = sd !! n).
  { intros n Hn. apply (merge_loop_outside _ _ _ _ n Hloop).
    intros Hin. apply in_map_iff in Hin as ([m t'] & Hm & Hin). cbn in Hm. subst m.
    apply Hov in Hin as (Ht' & Hfl & _).
    rewrite (HfS t') in Hfl; [discriminate|].
    apply list_elem_of_In. now apply (HinS n). }
  assert (Hkept : forall n s, sd !! n = Some s -> flag s = smps ->
                    ~ In n (map fst smps_overlap) -> dpes_upper s <= aps_lo).
  { intros n s Hs Hfl Hn. apply Qnot_lt_le. intros Hlt. apply Hn.
    apply in_map_iff. exists (n, s). split; [reflexivity|]. subst smps_overlap.
    apply filter_In. split; [now apply indexed_In|]. cbn.
    apply andb_true_iff. split; [unfold flag_is; now rewrite Hfl|now apply Qlt_bool_iff]. }
  assert (HK : StronglySorted before (drop_labels (map fst smps_overlap) sd')).
  2:{ now rewrite sort_values_dpes_id. }
  apply drop_labels_sorted. intros i j x y Hij Hx Hy Hki Hkj.
  assert (Hlen : length sd' = length sd) by (eapply merge_loop_length; eassumption).
  assert (Hj : (j < length sd)%nat) by (rewrite <- Hlen; eapply lookup_lt_Some; eassumption).
  destruct (lookup_lt_is_Some_2 sd j Hj) as [tj Htj].
  destruct (lookup_lt_is_Some_2 sd i ltac:(lia)) as [ti Hti].
  unfold before.
  destruct (le_lt_dec (length S) j) as [HjA|HjS].
  - (* the later row is an aps row *)
    destruct (Hrow j tj HjA Htj) as (y' & Hy' & Hcj).
    rewrite Hy in Hy'. injection Hy' as <-.
    pose proof (HinA j tj HjA Htj) as HtjA.
    assert (HtjIn : In tj A) by (apply list_elem_of_In; eapply list_elem_of_lookup_2; eassumption).
    destruct (HcA tj ltac:(now apply list_elem_of_In)) as [Hj1 Hj2].
    destruct (le_lt_dec (length S) i) as [HiA|HiS].
    + (* both are aps rows *)
      destruct (Hrow i ti HiA Hti) as (x' & Hx' & Hci).
      rewrite Hx in Hx'. injection Hx' as <-.
      pose proof (HinA i ti HiA Hti) as HtiA.
      assert (Hprec : precedes ti tj).
      { apply (StronglySorted_lookup_lt precedes A (i - length S) (j - length S));
          [assumption|lia|assumption..]. }
      unfold precedes in Hprec.
      destruct (HcA ti ltac:(eapply list_elem_of_lookup_2; eassumption)) as [Hi1 Hi2].
      destruct Hcj as [Hcj|(f & Hf & Hbelow & Hsel & Hcj)].
      * destruct Hci as [Hci|(g & Hg & Hgbelow & Hgsel & Hci)].
        -- rewrite Hci, Hcj. lra.
        -- rewrite Hci, Hcj.
           assert (Hgi : In (i, ti) aps_overlap).
           { assert (Hin : In (i, ti) (List.filter
                       (fun t' => Qlt_bool (dpes_lower t'.2) (dpes_upper g)) aps_overlap))
               by (rewrite Hgsel; now left).
             now apply filter_In in Hin. }
           specialize (Hgbelow _ Hgi). cbn in Hgbelow.
           apply Qlt_shift_div_r; lra.
      * exfalso.
        assert (Hjsel : In (j, tj) (List.filter
                    (fun t' => Qlt_bool (dpes_lower t'.2) (dpes_upper f)) aps_overlap))
          by (rewrite Hsel; now left).
        apply filter_In in Hjsel as [Hjin Hjlt]. cbn in Hjlt. apply Qlt_bool_iff in Hjlt.
        apply Hov in Hjin as (_ & _ & Hjhi).
        assert (Hisel : In (i, ti) (List.filter
                    (fun t' => Qlt_bool (dpes_lower t'.2) (dpes_upper f)) aps_overlap)).
        { apply filter_In. split.
          - apply Hov. split; [assumption|]. split; [|lra].
            apply HfA. eapply list_elem_of_lookup_2; eassumption.
          - cbn. apply Qlt_bool_iff. lra. }
        rewrite Hsel in Hisel. destruct Hisel as [[= Heq _]|[]]. lia.
    + (* an smps row, then an aps row *)
      rewrite (Hsrow i HiS), Hti in Hx. injection Hx as <-.
      pose proof (HinS i ti HiS Hti) as HtiS.
      destruct (HcS ti ltac:(now apply list_elem_of_In)) as [Hi1 Hi2].
      assert (Hup : dpes_upper ti <= aps_lo).
      { apply (Hkept i); [assumption| |assumption].
        apply HfS. now apply list_elem_of_In. }
      pose proof (HA_lo tj HtjIn) as Hlo_j.
      destruct Hcj as [Hcj|(f & Hf & Hbelow & Hsel & Hcj)].
      * rewrite Hcj. lra.
      * rewrite Hcj.
        assert (Hjsel : In (j, tj) (List.filter
                    (fun t' => Qlt_bool (dpes_lower t'.2) (dpes_upper f)) aps_overlap))
          by (rewrite Hsel; now left).
        apply filter_In in Hjsel as [Hjin Hjlt]. cbn in Hjlt. apply Qlt_bool_iff in Hjlt.
        specialize (Hbelow _ Hjin). cbn in Hbelow.
        destruct (HfineS f Hf) as [HfS' Hfup].
        destruct (HcS f ltac:(now apply list_elem_of_In)) as [Hf1 Hf2].
        destruct (StronglySorted_cases precedes S ti f HsS HtiS HfS') as [->|[Hp|Hp]];
          unfold precedes in *.
        -- lra.
        -- apply Qlt_shift_div_l; lra.
        -- lra.
  - (* both are smps rows *)
    rewrite (Hsrow i ltac:(lia)), Hti in Hx. injection Hx as <-.
    rewrite (Hsrow j HjS), Htj in Hy. injection Hy as <-.
    assert (Hprec : precedes ti tj).
    { apply (StronglySorted_lookup_lt precedes S i j); [assumption..| |].
      - subst sd. now rewrite lookup_app_l in Hti by lia.
      - subst sd. now rewrite lookup_app_l in Htj by lia. }
    unfold precedes in Hprec.
    destruct (HcS ti ltac:(apply list_elem_of_In; apply (HinS i); [lia|assumption])) as [Hi1 Hi2].
    destruct (HcS tj ltac:(apply list_elem_of_In; now apply (HinS j))) as [Hj1 Hj2].
    lra.
Qed.

Lemma before_sorted (sd : Frame) :
  StronglySorted before sd -> Sorted Qlt (map dpes sd).
Proof.
  intros H. apply StronglySorted_Sorted in H.
  induction H as [|r l Hl IH Hhd]; cbn; constructor; [assumption|].
  destruct Hhd as [|r' l' Hlt]; cbn; constructor. exact Hlt.
Qed.

Lemma well_formed_tagged (f : Flag) (sd : Frame) :
  well_formed sd -> well_formed (map (set_flag f) sd).
Proof.
  intros [Hc Hs]. split.
  - apply Forall_fmap. eapply Forall_impl; [exact Hc|]. now intros r.
  - induction Hs as [|r l Hl IH Hall]; cbn; constructor.
    + apply IH. now apply Forall_cons in Hc as [_ Hc].
    + apply Forall_fmap. eapply Forall_impl; [exact Hall|]. now intros r'.
Qed.

Lemma tagged_dpes_upper (f : Flag) (sd : Frame) :
  map dpes_upper (map (set_flag f) sd) = map dpes_upper sd.
Proof. rewrite map_map. now apply map_ext. Qed.

Lemma tagged_dpes_lower (f : Flag) (sd : Frame) :
  map dpes_lower (map (set_flag f) sd) = map dpes_lower sd.
Proof. rewrite map_map. now apply map_ext. Qed.

(** ** Strict order after the gap-fill branch *)

Lemma py_max_from_spec (m : Q) (l : list Q) :
  (py_max_from m l = m \/ In (py_max_from m l) l)
  /\ m <= py_max_from m l
  /\ Forall (fun x => x <= py_max_from m l) l.
Proof.
  revert m. induction l as [|x l IH]; intros m; cbn.
  { split; [now left|]. split; [lra|constructor]. }
  destruct (IH (if Qlt_bool m x then x else m)) as (Hin & Hle & Hall).
  destruct (Qlt_bool m x) eqn:E.
  - apply Qlt_bool_iff in E. split; [|split].
    + destruct Hin as [->|Hin]; [right; now left|right; now right].
    + lra.
    + constructor; assumption.
  - apply Qlt_bool_false_iff in E. split; [|split].
    + destruct Hin as [Hin|Hin]; [now left|right; now right].
    + assumption.
    + constructor; [lra|assumption].
Qed.

Lemma py_max_spec (l : list Q) (m : Q) :
  py_max l = Ok m -> In m l /\ Forall (fun x => x <= m) l.
Proof.
  destruct l as [|x l]; cbn; [discriminate|]. intros [= <-].
  destruct (py_max_from_spec x l) as (Hin & Hle & Hall). split.
  - destruct Hin as [->|Hin]; [now left|now right].
  - constructor; assumption.
Qed.

Lemma py_max_col_max (l : list Q) (m : Q) : py_max l = Ok m -> col_max l = Some m.
Proof. destruct l; cbn; [discriminate|]. now intros [= <-]. Qed.

Lemma py_min_col_min (l : list Q) (m : Q) : py_min l = Ok m -> col_min l = Some m.
Proof. destruct l; cbn; [discriminate|]. now intros [= <-]. Qed.

Lemma well_formed_before (sd : Frame) : well_formed sd -> StronglySorted before sd.
Proof.
  intros [Hc Hs]. induction Hs as [|r l Hl IH Hall]; constructor.
  - apply IH. now apply Forall_cons in Hc as [_ Hc].
  - apply Forall_cons in Hc as [Hr Hc]. rewrite Forall_forall in Hall, Hc.
    apply Forall_forall. intros r' Hr'. specialize (Hall r' Hr'). specialize (Hc r' Hr').
    unfold before, precedes in *. lra.
Qed.

Lemma well_formed_app (l1 l2 : Frame) :
  well_formed l1 -> well_formed l2 ->
  (forall x y, In x l1 -> In y l2 -> precedes x y) ->
  well_formed (l1 ++ l2).
Proof.
  intros [Hc1 Hs1] [Hc2 Hs2] H. split.
  - now apply Forall_app.
  - apply StronglySorted_app_2; [|assumption..].
    intros x y Hx Hy. apply H; now apply list_elem_of_In.
Qed.

(** The sort returns the one arrangement of the rows that is in strict
    order of [dpes], when there is one. *)
Lemma sort_values_dpes_perm (sd sd0 : Frame) :
  Permutation sd sd0 -> StronglySorted before sd0 -> sort_values_dpes sd = sd0.
Proof.
  intros Hp H. unfold sort_values_dpes. symmetry.
  apply (StronglySorted_unique_strong (fun a b => is_true (RowOrder.leb a b))).
  - intros x y Hx Hy Hxy Hyx. unfold RowOrder.leb, is_true, before in *.
    apply Qle_bool_iff in Hxy, Hyx.
    apply list_elem_of_In in Hx, Hy.
    apply (Permutation_in _ (Permutation_sym (RowSort.Permuted_sort sd))) in Hy.
    apply (Permutation_in _ Hp) in Hy.
    destruct (StronglySorted_cases before _ _ _ H Hx Hy) as [?|[?|?]];
      [assumption|unfold before in *; lra..].
  - eapply StronglySorted_weaken; [|exact H].
    intros x y Hxy. unfold before, RowOrder.leb, is_true in *.
    apply Qle_bool_iff. lra.
  - apply RowSort.StronglySorted_sort. exact leb_transitive.
  - etransitivity; [symmetry; exact Hp|apply RowSort.Permuted_sort].
Qed.

(** The rows laid over a grid of boundaries that ascends from [x] to
    [x_end]. *)
Lemma grid_bins_well_formed (x x_end : Q) (bin_bound_lower : list Q) :
  Forall (Qle x) bin_bound_lower ->
  StronglySorted Qlt (bin_bound_lower ++ [x_end]) ->
  let bins :=
    zip_with (fun lo up => mkRow interpolated ((lo + up) / 2) lo up None None)
      bin_bound_lower (tail bin_bound_lower ++ [x_end]) in
  well_formed bins
  /\ Forall (fun b => x <= dpes_lower b /\ dpes_upper b <= x_end) bins.
Proof.
  revert x. induction bin_bound_lower as [|a l IH]; intros x Hx Hs bins.
  { subst bins. cbn. split; [split|]; constructor. }
  apply Forall_cons in Hx as [Hxa Hxl].
  cbn in Hs. apply StronglySorted_cons in Hs as [Ha Hs].
  destruct l as [|b l'].
  { subst bins. cbn in *. apply Forall_cons in Ha as [Ha _].
    split; [split|]; repeat constructor; cbn; try lra.
    - apply Qlt_shift_div_l; lra.
    - apply Qlt_shift_div_r; lra. }
  assert (Hb : Forall (Qle b) (b :: l')).
  { constructor; [lra|]. cbn in Hs. apply StronglySorted_cons in Hs as [Hb _].
    apply Forall_app in Hb as [Hb _]. eapply Forall_impl; [exact Hb|].
    intros y Hy. now apply Qlt_le_weak. }
  destruct (IH b Hb Hs) as [[Hc Hp] Hin].
  cbn in Ha. apply Forall_cons in Ha as [Hab Ha].
  assert (Hend : b < x_end).
  { cbn in Hs. apply StronglySorted_cons in Hs as [Hbl _].
    apply Forall_app in Hbl as [_ Hbl]. now apply Forall_cons in Hbl as [Hbl _]. }
  subst bins. cbn [tail app zip_with]. cbn [tail] in Hc, Hp, Hin.
  split; [split|].
  - constructor; [|exact Hc]. cbn. split.
    + apply Qlt_shift_div_l; lra.
    + apply Qlt_shift_div_r; lra.
  - constructor; [exact Hp|].
    eapply Forall_impl; [exact Hin|]. intros r [Hr _]. unfold precedes. cbn. exact Hr.
  - constructor; [cbn; lra|].
    eapply Forall_impl; [exact Hin|]. intros r [Hr1 Hr2]. lra.
Qed.

Section GapOrder.

Variable log10 : Q -> Q.
Variable pow10 : Q -> Q.

Lemma logspace_lookup (start stop : Q) (num i : nat) :
  (i < num)%nat ->
  logspace pow10 start stop num !! i
  = Some (pow10 (inject_Z (Z.of_nat i) * ((stop - start) / inject_Z (Z.of_nat num))
                 + start)).
Proof.
  intros Hi. unfold logspace.
  change (map ?f ?l) with (f <$> l).
  rewrite list_lookup_fmap, lookup_seq_lt by assumption. reflexivity.
Qed.

Lemma logspace_length (start stop : Q) (num : nat) :
  length (logspace pow10 start stop num) = num.
Proof. unfold logspace. now rewrite length_map, length_seq. Qed.

(** The gap-fill branch, with the boundaries of the new rows. *)
Lemma interpolate_gap_branch_bins (sd_smps sd_aps sd_combined sd1 : Frame) :
  interpolate_gap_branch log10 pow10 sd_smps sd_aps sd_combined = Ok sd1 ->
  exists x_start x_end res num sd',
    col_max (map dpes_upper sd_smps) = Some x_start
    /\ col_min (map dpes_lower sd_aps) = Some x_end
    /\ get_interpol_resolution log10 sd_smps sd_aps = Some res
    /\ (0 < num)%nat
    /\ interpolate_dndlogd_gap
         (sort_values_dpes
            (sd_combined
             ++ zip_with (fun lo up => mkRow interpolated ((lo + up) / 2) lo up None None)
                  (logspace pow10 (log10 x_start) (log10 x_end) num)
                  (tail (logspace pow10 (log10 x_start) (log10 x_end) num) ++ [x_end])))
         3 = Ok sd'
    /\ sd1 = map (fun r =>
                    set_dn (dndlogd r
                            * fl (log10 (dpes_upper r) - log10 (dpes_lower r)))%fl r)
               sd'.
Proof.
  unfold interpolate_gap_branch.
  destruct (col_max _) as [x_start|]; [|discriminate].
  destruct (col_min _) as [x_end|]; [|discriminate].
  unfold get_bin_boundaries_in_interval.
  destruct (get_interpol_resolution _ _ _) as [res|]; [|discriminate].
  destruct (_ <? 0)%Z; [discriminate|]. cbn.
  set (num := Z.to_nat _).
  destruct (negb _) eqn:Hlen; [discriminate|].
  destruct (interpolate_dndlogd_gap _ 3) as [sd'|e] eqn:Hrun; cbn; [|discriminate].
  intros [= <-]. exists x_start, x_end, res, num, sd'.
  repeat split; try reflexivity; try assumption.
  apply negb_false_iff, Nat.eqb_eq in Hlen.
  rewrite length_app, logspace_length in Hlen. cbn in Hlen.
  destruct num; [|lia].
  cbn in Hlen. lia.
Qed.

(** With a power function that is strictly increasing and that inverts
    [log10] at the two ends of the gap, the boundaries of [np.logspace]
    ascend from [x_start] and stay below [x_end]. *)
Lemma logspace_ascends (x_start x_end : Q) (num : nat) :
  (forall x y, pow10 x < pow10 y <-> x < y) ->
  pow10 (log10 x_start) == x_start ->
  pow10 (log10 x_end) == x_end ->
  x_start < x_end ->
  (0 < num)%nat ->
  Forall (Qle x_start) (logspace pow10 (log10 x_start) (log10 x_end) num)
  /\ StronglySorted Qlt (logspace pow10 (log10 x_start) (log10 x_end) num ++ [x_end]).
Proof.
  intros Hmono Hs He Hlt Hnum.
  set (a := log10 x_start) in *. set (b := log10 x_end) in *.
  assert (Hab : a < b) by (apply (proj1 (Hmono _ _)); lra).
  assert (Hn : 0 < inject_Z (Z.of_nat num)).
  { change 0 with (inject_Z 0). rewrite <- Zlt_Qlt. lia. }
  set (step := (b - a) / inject_Z (Z.of_nat num)).
  assert (Hstep : 0 < step) by (apply Qlt_shift_div_l; lra).
  assert (Hnstep : inject_Z (Z.of_nat num) * step == b - a).
  { unfold step. field. lra. }
  assert (Hle : forall x y, x <= y -> pow10 x <= pow10 y).
  { intros x y Hxy. apply Qnot_lt_le. intros H. apply (proj1 (Hmono _ _)) in H. lra. }
  assert (Hiz : forall i j : nat, (i < j)%nat ->
            inject_Z (Z.of_nat i) < inject_Z (Z.of_nat j)).
  { intros i j Hij. rewrite <- Zlt_Qlt. lia. }
  assert (Hiz' : forall i j : nat, (i <= j)%nat ->
            inject_Z (Z.of_nat i) <= inject_Z (Z.of_nat j)).
  { intros i j Hij. rewrite <- Zle_Qle. lia. }
  split.
  - apply Forall_forall. intros v Hv. apply list_elem_of_lookup in Hv as [i Hi].
    assert (Hin : (i < num)%nat).
    { rewrite <- (logspace_length a b num). eapply lookup_lt_Some; eassumption. }
    rewrite logspace_lookup in Hi by assumption. injection Hi as <-. fold step.
    rewrite <- Hs at 1. apply Hle.
    assert (H0 : 0 <= inject_Z (Z.of_nat i) * step).
    { apply Qmult_le_0_compat; [|lra]. apply (Hiz' 0%nat i). lia. }
    lra.
  - apply StronglySorted_of_lookup. intros i j v w Hij Hi Hj.
    assert (Hjn : (j <= num)%nat).
    { apply lookup_lt_Some in Hj. rewrite length_app, logspace_length in Hj.
      cbn in Hj. lia. }
    rewrite lookup_app_l in Hi by (rewrite logspace_length; lia).
    rewrite logspace_lookup in Hi by lia. injection Hi as <-. fold step.
    pose proof (Hiz i j Hij) as Hijq.
    destruct (decide (j = num)) as [->|Hne].
    + rewrite lookup_app_r in Hj by (rewrite logspace_length; lia).
      rewrite logspace_length, Nat.sub_diag in Hj. injection Hj as <-.
      apply Qlt_le_trans with (pow10 b); [|rewrite He; lra].
      apply (proj2 (Hmono _ _)).
      assert (inject_Z (Z.of_nat i) * step < inject_Z (Z.of_nat num) * step)
        by (apply Qmult_lt_r; assumption).
      lra.
    + rewrite lookup_app_l in Hj by (rewrite logspace_length; lia).
      rewrite logspace_lookup in Hj by lia. injection Hj as <-. fold step.
      apply (proj2 (Hmono _ _)).
      assert (inject_Z (Z.of_nat i) * step < inject_Z (Z.of_nat j) * step)
        by (apply Qmult_lt_r; assumption).
      lra.
Qed.

(** After the gap-fill branch the rows stand in strict order of their
    centres: the smps rows, the new rows, the aps rows. *)
Lemma interpolate_gap_branch_strict (sd_smps sd_aps sd : Frame) (smps_hi aps_lo : Q) :
  interpolate_gap_branch log10 pow10 sd_smps sd_aps (sd_smps ++ sd_aps) = Ok sd ->
  py_max (map dpes_upper sd_smps) = Ok smps_hi ->
  py_min (map dpes_lower sd_aps) = Ok aps_lo ->
  smps_hi < aps_lo ->
  well_formed sd_smps ->
  well_formed sd_aps ->
  (forall x y, pow10 x < pow10 y <-> x < y) ->
  pow10 (log10 smps_hi) == smps_hi ->
  pow10 (log10 aps_lo) == aps_lo ->
  Sorted Qlt (map dpes sd).
Proof.
  intros H Hhi Hlo Hgap Hws Hwa Hmono Hs He.
  apply interpolate_gap_branch_bins in H
    as (x_start & x_end & res & num & sd' & Hmax & Hmin & _ & Hnum & Hrun & ->).
  rewrite (py_max_col_max _ _ Hhi) in Hmax. injection Hmax as <-.
  rewrite (py_min_col_min _ _ Hlo) in Hmin. injection Hmin as <-.
  set (lower := logspace pow10 (log10 smps_hi) (log10 aps_lo) num) in *.
  set (bins := zip_with _ lower _) in *.
  destruct (logspace_ascends smps_hi aps_lo num Hmono Hs He Hgap Hnum) as [Hfrom Hasc].
  pose proof (grid_bins_well_formed smps_hi aps_lo lower Hfrom Hasc) as Hgrid.
  cbv zeta in Hgrid. fold bins in Hgrid. destruct Hgrid as [Hwb Hbin].
  apply py_max_spec in Hhi as [_ Hhi]. apply py_min_spec in Hlo as [_ Hlo].
  rewrite Forall_forall in Hhi. rewrite Forall_forall in Hlo.
  rewrite Forall_forall in Hbin.
  assert (Hsup : forall r, In r sd_smps -> dpes_upper r <= smps_hi).
  { intros r Hr. apply Hhi. apply list_elem_of_In. now apply in_map. }
  assert (Halo : forall r, In r sd_aps -> aps_lo <= dpes_lower r).
  { intros r Hr. apply Hlo. apply list_elem_of_In. now apply in_map. }
  assert (Hall : well_formed (sd_smps ++ bins ++ sd_aps)).
  { apply well_formed_app; [assumption| |].
    - apply well_formed_app; [assumption..|].
      intros x y Hx Hy. unfold precedes.
      destruct (Hbin x) as [_ Hxu]; [now apply list_elem_of_In|].
      specialize (Halo y Hy). lra.
    - intros x y Hx Hy. unfold precedes. specialize (Hsup x Hx).
      apply in_app_or in Hy as [Hy|Hy].
      + destruct (Hbin y) as [Hyl _]; [now apply list_elem_of_In|]. lra.
      + specialize (Halo y Hy). lra. }
  assert (Hsort : sort_values_dpes ((sd_smps ++ sd_aps) ++ bins)
                  = sd_smps ++ bins ++ sd_aps).
  { apply sort_values_dpes_perm; [|now apply well_formed_before].
    rewrite <- app_assoc. apply Permutation_app_head, Permutation_app_comm. }
  rewrite Hsort in Hrun.
  apply interpolate_dndlogd_gap_keeps, same_but_dndlogd_dpes in Hrun.
  rewrite map_map. cbn. change (map (fun x => dpes x) sd') with (map dpes sd').
  rewrite Hrun. apply before_sorted. now apply well_formed_before.
Qed.

End GapOrder.

(** The surrogate power function is strictly increasing. *)
Lemma pow10_pl_increasing (x y : Q) : pow10_pl x < pow10_pl y <-> x < y.
Proof.
  assert (Hpos : forall k : Z, 0 < 10 ^ k) by (intros k; apply Qpower_0_lt; lra).
  assert (Hfrac : forall z : Q, 0 <= z - inject_Z (Qfloor z) < 1).
  { intros z. pose proof (Qfloor_le z). pose proof (Qlt_floor z) as Hlt.
    rewrite inject_Z_plus in Hlt. change (inject_Z 1) with 1 in Hlt. lra. }
  assert (Hup : forall x y, x < y -> pow10_pl x < pow10_pl y).
  { clear x y. intros x y Hxy. unfold pow10_pl.
    pose proof (Qfloor_resp_le x y ltac:(lra)) as Hk.
    pose proof (Hfrac x) as Hfx. pose proof (Hfrac y) as Hfy.
    destruct (Z.eq_dec (Qfloor x) (Qfloor y)) as [Heq|Hne].
    - rewrite <- Heq in *. apply Qmult_lt_l; [apply Hpos|]. lra.
    - assert (Hlt : (Qfloor x + 1 <= Qfloor y)%Z) by lia.
      apply Qlt_le_trans with (10 ^ (Qfloor x + 1)).
      + rewrite Qpower_plus by lra. change (10 ^ 1) with 10.
        apply Qmult_lt_l; [apply Hpos|]. lra.
      + apply Qle_trans with (10 ^ Qfloor y).
        * apply Qpower_le_compat_l; [assumption|lra].
        * rewrite <- (Qmult_1_r (10 ^ Qfloor y)) at 1.
          apply Qmult_le_l; [apply Hpos|]. lra. }
  split; [|apply Hup].
  intros H. apply Qnot_le_lt. intros Hle.
  destruct (Qle_lt_or_eq _ _ Hle) as [Hlt|Heq].
  - apply Hup in Hlt. lra.
  - assert (pow10_pl y == pow10_pl x).
    { unfold pow10_pl. rewrite (Qfloor_comp _ _ Heq), Heq. reflexivity. }
    lra.
Qed.

Section CombineFacts.

Variable log10 : Q -> Q.
Variable pow10 : Q -> Q.

Lemma recompute_modified_dpes (sd : Frame) :
  map dpes (recompute_modified log10 sd) = map dpes sd.
Proof.
  unfold recompute_modified. rewrite map_map. apply map_ext.
  intros r. now destruct (_ && _).
Qed.

(** The gap-fill branch: new rows flagged [interpolated] join the frame,
    the frame is sorted, [interpolate_dndlogd_gap] runs on it and the
    counts of all rows are set. *)
Lemma interpolate_gap_branch_steps (sd_smps sd_aps sd_combined sd1 : Frame) :
  interpolate_gap_branch log10 pow10 sd_smps sd_aps sd_combined = Ok sd1 ->
  exists interpolated_bins sd',
    Forall (fun r => flag r = interpolated /\ dndlogd r = None) interpolated_bins
    /\ interpolate_dndlogd_gap
         (sort_values_dpes (sd_combined ++ interpolated_bins)) 3 = Ok sd'
    /\ sd1 = map (fun r =>
                    set_dn (dndlogd r
                            * fl (log10 (dpes_upper r) - log10 (dpes_lower r)))%fl r)
               sd'.
Proof.
  unfold interpolate_gap_branch.
  destruct (col_max _) as [x_start|]; [|discriminate].
  destruct (col_min _) as [x_end|]; [|discriminate].
  destruct (get_bin_boundaries_in_interval _ _ _ _ _) as [[lower upper]|e];
    cbn; [|discriminate].
  destruct (negb _); [discriminate|].
  set (bins := zip_with _ lower upper).
  destruct (interpolate_dndlogd_gap _ 3) as [sd'|e] eqn:Hrun; cbn; [|discriminate].
  intros [= <-]. exists bins, sd'. split; [|split; [assumption|reflexivity]].
  subst bins. clear Hrun. revert upper.
  induction lower as [|lo lower IH]; intros [|up upper]; cbn; constructor;
    [now split|apply IH].
Qed.

(** C6, as the code has it.  The gap-fill branch sorts the rows of the two
    instruments together with the new rows, flagged [interpolated] and
    without density, and runs [interpolate_dndlogd_gap] on the sorted
    frame.  Every row keeps its flag, its centre and its boundaries, and a
    row of one of the two instruments, the two edge rows among them, its
    finite density.  The count of every row of the frame, not of the
    interpolated rows alone, is recomputed: it is the density that
    [interpolate_dndlogd_gap] left in the row, for an interpolated row the
    interpolated density, for a row of an instrument its own, times the
    log-width of the row. *)
Theorem combine_gap_fill_frame (sd_aps sd_smps : Frame) (merge_overlap : bool)
    (out : Frame) (smps_hi aps_lo : Q) :
  combine_SMPS_APS_sd log10 pow10 sd_aps sd_smps merge_overlap true = Ok out ->
  py_max (map dpes_upper sd_smps) = Ok smps_hi ->
  py_min (map dpes_lower sd_aps) = Ok aps_lo ->
  smps_hi < aps_lo ->
  exists interpolated_bins sorted_rows filled,
    Forall (fun r => flag r = interpolated /\ dndlogd r = None) interpolated_bins
    /\ Permutation
         (map (set_flag smps) sd_smps ++ map (set_flag aps) sd_aps ++ interpolated_bins)
         sorted_rows
    /\ interpolate_dndlogd_gap sorted_rows 3 = Ok filled
    /\ length out = length sorted_rows
    /\ forall k r, sorted_rows !! k = Some r ->
         exists m r',
           filled !! k = Some m /\ out !! k = Some r' /\ gap_filled log10 r m r'.
Proof.
  intros H Hhi Hlo Hgap. unfold combine_SMPS_APS_sd in H.
  rewrite tagged_dpes_upper, tagged_dpes_lower, Hhi, Hlo in H. cbn in H.
  assert (Qlt_bool smps_hi aps_lo = true) as Hg by now apply Qlt_bool_iff.
  assert (Qlt_bool aps_lo smps_hi = false) as Ho by (apply Qlt_bool_false_iff; lra).
  rewrite Hg, Ho, andb_false_r in H. cbn in H.
  destruct (interpolate_gap_branch _ _ _ _ _) as [sd1|e] eqn:Hb; cbn in H;
    [|discriminate].
  injection H as <-.
  apply interpolate_gap_branch_steps in Hb as (bins & sd' & Hbins & Hrun & ->).
  exists bins, (sort_values_dpes ((map (set_flag smps) sd_smps
                                   ++ map (set_flag aps) sd_aps) ++ bins)), sd'.
  split; [exact Hbins|].
  split; [rewrite app_assoc; apply RowSort.Permuted_sort|].
  split; [exact Hrun|].
  pose proof (interpolate_dndlogd_gap_keeps _ _ _ Hrun) as Hkeep.
  split.
  { unfold recompute_modified. rewrite !length_map.
    symmetry. eapply Forall2_length; eassumption. }
  intros k r Hr.
  destruct (Forall2_lookup_l _ _ _ _ _ Hkeep Hr) as (m & Hm & Hsame).
  eexists m, _. split; [exact Hm|]. split.
  { unfold recompute_modified. rewrite !list_lookup_fmap, Hm. reflexivity. }
  split; [exact Hsame|].
  destruct Hsame as (v & -> & Hv). unfold flag_is.
  do 4 (split; [now destruct (_ && _)|]).
  destruct (flag r) eqn:Hf; cbn; rewrite ?Hf; cbn;
    (split; [reflexivity|]); try (intros [|]; discriminate);
    intros _; reflexivity.
Qed.

(** ** Order of the result *)

Lemma sort_values_dpes_sorted (sd : Frame) :
  Sorted Qle (map dpes (sort_values_dpes sd)).
Proof.
  unfold sort_values_dpes.
  pose proof (RowSort.Sorted_sort sd) as H.
  induction H as [|r l Hl IH Hhd]; cbn; constructor; [assumption|].
  destruct Hhd as [|r' l' Hle]; cbn; constructor.
  now apply Qle_bool_iff.
Qed.

Lemma merge_overlap_branch_sorted (sd_combined sd : Frame) :
  merge_overlap_branch sd_combined = Ok sd -> Sorted Qle (map dpes sd).
Proof.
  unfold merge_overlap_branch.
  destruct (py_min _) as [aps_lo|e]; cbn; [|discriminate].
  destruct (py_max _) as [smps_hi|e]; cbn; [|discriminate].
  destruct (merge_loop _ _ _) as [sd'|e]; cbn; [|discriminate].
  intros [= <-]. apply sort_values_dpes_sorted.
Qed.

Lemma interpolate_gap_branch_sorted (sd_smps sd_aps sd_combined sd : Frame) :
  interpolate_gap_branch log10 pow10 sd_smps sd_aps sd_combined = Ok sd ->
  Sorted Qle (map dpes sd).
Proof.
  intros H. apply interpolate_gap_branch_steps in H as (bins & sd' & _ & Hrun & ->).
  apply interpolate_dndlogd_gap_keeps, same_but_dndlogd_dpes in Hrun.
  rewrite map_map. cbn. change (map (fun x => dpes x) sd') with (map dpes sd').
  rewrite Hrun. apply sort_values_dpes_sorted.
Qed.

Lemma recompute_modified_instruments (sd_smps sd_aps : Frame) :
  recompute_modified log10 (map (set_flag smps) sd_smps ++ map (set_flag aps) sd_aps)
  = map (set_flag smps) sd_smps ++ map (set_flag aps) sd_aps.
Proof.
  unfold recompute_modified. rewrite map_app, !map_map. reflexivity.
Qed.

(** C9, as the code has it.  When the overlap branch runs (the ranges
    overlap and [merge_overlap] is set) or the gap-fill branch runs (there
    is a gap and [interpolate_gap] is set), a successful combination
    returns a frame in ascending order of [dpes]: the frame is sorted in
    these two branches, and nowhere else.  After either branch the order is
    strict, no two rows sharing their [dpes], when the two distributions
    are well formed; for the gap-fill branch, whose new boundaries come
    from [np.logspace], with a power function that is strictly increasing
    and inverts [log10] at the two ends of the gap, as the real functions
    are.  When neither branch runs, the result is the smps rows followed
    by the aps rows, as they came. *)
Theorem combine_sorted_after_branch (sd_aps sd_smps : Frame)
    (merge_overlap interpolate_gap : bool) (out : Frame) (smps_hi aps_lo : Q) :
  combine_SMPS_APS_sd log10 pow10 sd_aps sd_smps merge_overlap interpolate_gap
    = Ok out ->
  py_max (map dpes_upper sd_smps) = Ok smps_hi ->
  py_min (map dpes_lower sd_aps) = Ok aps_lo ->
  ((merge_overlap = true /\ aps_lo < smps_hi)
   \/ (interpolate_gap = true /\ smps_hi < aps_lo) ->
   Sorted Qle (map dpes out))
  /\ (merge_overlap = true -> aps_lo < smps_hi ->
      well_formed sd_smps -> well_formed sd_aps ->
      Sorted Qlt (map dpes out))
  /\ (interpolate_gap = true -> smps_hi < aps_lo ->
      well_formed sd_smps -> well_formed sd_aps ->
      (forall x y, pow10 x < pow10 y <-> x < y) ->
      pow10 (log10 smps_hi) == smps_hi ->
      pow10 (log10 aps_lo) == aps_lo ->
      Sorted Qlt (map dpes out))
  /\ ((merge_overlap = false \/ smps_hi <= aps_lo) ->
      (interpolate_gap = false \/ aps_lo <= smps_hi) ->
      out = map (set_flag smps) sd_smps ++ map (set_flag aps) sd_aps).
Proof.
  intros H Hhi Hlo. unfold combine_SMPS_APS_sd in H.
  rewrite tagged_dpes_upper, tagged_dpes_lower, Hhi, Hlo in H. cbn in H.
  split; [|split; [|split]].
  - intros [[-> Hov]|[-> Hgap]].
    + assert (Qlt_bool aps_lo smps_hi = true) as Ho by now apply Qlt_bool_iff.
      assert (Qlt_bool smps_hi aps_lo = false) as Hg
        by (apply Qlt_bool_false_iff; lra).
      rewrite Hg, Ho, andb_false_r in H. cbn in H.
      destruct (merge_overlap_branch _) as [sd|e] eqn:Hb; cbn in H; [|discriminate].
      injection H as <-. rewrite recompute_modified_dpes.
      eapply merge_overlap_branch_sorted; eassumption.
    + assert (Qlt_bool smps_hi aps_lo = true) as Hg by now apply Qlt_bool_iff.
      assert (Qlt_bool aps_lo smps_hi = false) as Ho
        by (apply Qlt_bool_false_iff; lra).
      rewrite Hg, Ho, andb_false_r in H. cbn in H.
      destruct (interpolate_gap_branch _ _ _ _ _) as [sd|e] eqn:Hb; cbn in H;
        [|discriminate].
      injection H as <-. rewrite recompute_modified_dpes.
      eapply interpolate_gap_branch_sorted; eassumption.
  - intros -> Hov Hsmps Haps.
    assert (Qlt_bool aps_lo smps_hi = true) as Ho by now apply Qlt_bool_iff.
    assert (Qlt_bool smps_hi aps_lo = false) as Hg
      by (apply Qlt_bool_false_iff; lra).
    rewrite Hg, Ho, andb_false_r in H. cbn in H.
    destruct (merge_overlap_branch _) as [sd|e] eqn:Hb; cbn in H; [|discriminate].
    injection H as <-. rewrite recompute_modified_dpes.
    apply before_sorted.
    apply (merge_overlap_branch_strict (map (set_flag smps) sd_smps)
             (map (set_flag aps) sd_aps)); try assumption.
    + apply Forall_fmap, Forall_true. reflexivity.
    + apply Forall_fmap, Forall_true. reflexivity.
    + now apply well_formed_tagged.
    + now apply well_formed_tagged.
  - intros -> Hgap Hsmps Haps Hmono Hstart Hend.
    assert (Qlt_bool smps_hi aps_lo = true) as Hg by now apply Qlt_bool_iff.
    assert (Qlt_bool aps_lo smps_hi = false) as Ho
      by (apply Qlt_bool_false_iff; lra).
    rewrite Hg, Ho, andb_false_r in H. cbn in H.
    destruct (interpolate_gap_branch _ _ _ _ _) as [sd|e] eqn:Hb; cbn in H;
      [|discriminate].
    injection H as <-. rewrite recompute_modified_dpes.
    apply (interpolate_gap_branch_strict log10 pow10 (map (set_flag smps) sd_smps)
             (map (set_flag aps) sd_aps) sd smps_hi aps_lo); try assumption.
    + now rewrite tagged_dpes_upper.
    + now rewrite tagged_dpes_lower.
    + now apply well_formed_tagged.
    + now apply well_formed_tagged.
  - intros Hno_merge Hno_gap.
    assert (merge_overlap && Qlt_bool aps_lo smps_hi = false) as Ho.
    { destruct Hno_merge as [->|Hle]; [reflexivity|].
      apply andb_false_iff. right. now apply Qlt_bool_false_iff. }
    assert (interpolate_gap && Qlt_bool smps_hi aps_lo = false) as Hg.
    { destruct Hno_gap as [->|Hle]; [reflexivity|].
      apply andb_false_iff. right. now apply Qlt_bool_false_iff. }
    rewrite Hg in H. cbn in H. rewrite Ho in H. cbn in H.
    injection H as <-. apply recompute_modified_instruments.
Qed.

(** ** Empty inputs *)

(** C8, as the code has it.  With an empty distribution on either side
    the combination raises [ValueError], from the [max] or the [min] of an
    empty column in the test for an overlap; nothing is returned. *)
Theorem combine_empty_raises (sd : Frame) (merge_overlap interpolate_gap : bool) :
  combine_SMPS_APS_sd log10 pow10 [] sd merge_overlap interpolate_gap
    = Raise ValueError
  /\ combine_SMPS_APS_sd log10 pow10 sd [] merge_overlap interpolate_gap
     = Raise ValueError.
Proof.
  unfold combine_SMPS_APS_sd. split.
  - destruct sd; reflexivity.
  - reflexivity.
Qed.

End CombineFacts.


(** ** Bin boundaries *)

Module BoundariesFacts.
Import Boundaries.

(** Powers of two. *)

Lemma pow2_pos (e : Z) : 0 < 2 ^ e.
Proof. apply Qpower_0_lt. lra. Qed.

Lemma pow2_le (a b : Z) : (a <= b)%Z -> 2 ^ a <= 2 ^ b.
Proof. intros H. apply Qpower_le_compat_l; [assumption|lra]. Qed.

Lemma pow2_lt (a b : Z) : (a < b)%Z -> 2 ^ a < 2 ^ b.
Proof. intros H. apply Qpower_lt_compat_l; [assumption|lra]. Qed.

Lemma pow2_lt_inv (a b : Z) : 2 ^ a < 2 ^ b -> (a < b)%Z.
Proof. intros H. apply (Qpower_lt_compat_l_inv 2); [assumption|lra]. Qed.

Lemma pow2_plus (a b : Z) : 2 ^ (a + b) == 2 ^ a * 2 ^ b.
Proof. apply Qpower_plus. lra. Qed.

Lemma pow2_inject (k : Z) : (0 <= k)%Z -> 2 ^ k == inject_Z (2 ^ k).
Proof. intros H. now rewrite Zpower_Qpower. Qed.

(** The exponent of the binade. *)

Lemma ilog2_spec (q : Q) : 0 < q -> 2 ^ ilog2 q <= q /\ q < 2 ^ (ilog2 q + 1).
Proof.
  intros Hq. unfold ilog2. rewrite (Qabs_pos q) by lra.
  destruct q as [n d]. cbn [Qnum Qden].
  assert (Hn : (0 < n)%Z) by (unfold Qlt in Hq; cbn in Hq; lia).
  rewrite (Z.abs_eq n) by lia.
  pose proof (Z.log2_spec n Hn) as [Ha1 Ha2].
  pose proof (Z.log2_spec (Zpos d) ltac:(lia)) as [Hb1 Hb2].
  pose proof (Z.log2_nonneg n) as Ha0. pose proof (Z.log2_nonneg (Zpos d)) as Hb0.
  set (a := Z.log2 n) in *. set (b := Z.log2 (Zpos d)) in *.
  assert (HN1 : 2 ^ a <= inject_Z n).
  { rewrite pow2_inject by lia. now rewrite <- Zle_Qle. }
  assert (HN2 : inject_Z n < 2 ^ (a + 1)).
  { rewrite pow2_inject by lia. rewrite <- Zlt_Qlt. unfold Z.succ in Ha2. lia. }
  assert (HD1 : 2 ^ b <= inject_Z (Zpos d)).
  { rewrite pow2_inject by lia. now rewrite <- Zle_Qle. }
  assert (HD2 : inject_Z (Zpos d) < 2 ^ (b + 1)).
  { rewrite pow2_inject by lia. rewrite <- Zlt_Qlt. unfold Z.succ in Hb2. lia. }
  assert (Hq' : (n # d) * inject_Z (Zpos d) == inject_Z n).
  { unfold Qeq. cbn. rewrite Pos.mul_1_r. ring. }
  assert (HD0 : 0 < inject_Z (Zpos d)) by (pose proof (pow2_pos b); lra).
  set (D := inject_Z (Zpos d)) in *. set (N := inject_Z n) in *. set (x := n # d) in *.
  assert (Hup : x < 2 ^ (a - b + 1)).
  { apply (Qmult_lt_r _ _ D HD0). rewrite Hq'.
    apply Qlt_le_trans with (2 ^ (a + 1)); [assumption|].
    replace (a + 1)%Z with ((a - b + 1) + b)%Z by lia. rewrite pow2_plus.
    apply Qmult_le_l; [apply pow2_pos|assumption]. }
  assert (Hlow : 2 ^ (a - b - 1) <= x).
  { apply (Qmult_le_r _ _ D HD0). rewrite Hq'.
    apply Qle_trans with (2 ^ a); [|assumption].
    replace a with ((a - b - 1) + (b + 1))%Z at 2 by lia. rewrite pow2_plus.
    apply Qmult_le_l; [apply pow2_pos|]. lra. }
  destruct (Qle_bool (2 ^ (a - b)) x) eqn:E.
  - apply Qle_bool_iff in E. split; assumption.
  - split; [assumption|].
    replace (a - b - 1 + 1)%Z with (a - b)%Z by lia.
    apply Qnot_le_lt. intros H. apply Qle_bool_iff in H. congruence.
Qed.

Lemma ilog2_mono (x y : Q) : 0 < x -> x <= y -> (ilog2 x <= ilog2 y)%Z.
Proof.
  intros Hx Hxy.
  destruct (ilog2_spec x Hx) as [H1 _]. destruct (ilog2_spec y ltac:(lra)) as [_ H2].
  assert (H : 2 ^ ilog2 x < 2 ^ (ilog2 y + 1)) by lra.
  apply pow2_lt_inv in H. lia.
Qed.

Lemma ilog2_unique (x : Q) (e : Z) :
  0 < x -> 2 ^ e <= x -> x < 2 ^ (e + 1) -> ilog2 x = e.
Proof.
  intros Hx H1 H2. destruct (ilog2_spec x Hx) as [H3 H4].
  assert (Ha : 2 ^ e < 2 ^ (ilog2 x + 1)) by lra.
  assert (Hb : 2 ^ ilog2 x < 2 ^ (e + 1)) by lra.
  apply pow2_lt_inv in Ha, Hb. lia.
Qed.

(** Python's [round]. *)

Lemma py_round_cases (q : Q) :
  (py_round q = Qfloor q /\ q - inject_Z (Qfloor q) <= 1 # 2)
  \/ (py_round q = (Qfloor q + 1)%Z /\ 1 # 2 <= q - inject_Z (Qfloor q)).
Proof.
  unfold py_round.
  destruct (Qlt_bool (q - inject_Z (Qfloor q)) (1 # 2)) eqn:E1.
  { apply Qlt_bool_iff in E1. left. split; [reflexivity|lra]. }
  apply Qlt_bool_false_iff in E1.
  destruct (Qlt_bool (1 # 2) (q - inject_Z (Qfloor q))) eqn:E2.
  { right. split; [reflexivity|assumption]. }
  apply Qlt_bool_false_iff in E2.
  destruct (Z.even (Qfloor q)); [left|right]; (split; [reflexivity|assumption]).
Qed.

Lemma py_round_le_int (q : Q) (N : Z) : q <= inject_Z N -> (py_round q <= N)%Z.
Proof.
  intros H. pose proof (Qfloor_le q) as Hf.
  assert (Hfn : (Qfloor q <= N)%Z) by (rewrite Zle_Qle; lra).
  destruct (py_round_cases q) as [[-> _]|[-> Hd]]; [assumption|].
  assert (Hlt : inject_Z (Qfloor q) < inject_Z N) by lra.
  rewrite <- Zlt_Qlt in Hlt. lia.
Qed.

Lemma py_round_ge_int (q : Q) (N : Z) : inject_Z N <= q -> (N <= py_round q)%Z.
Proof.
  intros H. pose proof (Qfloor_resp_le _ _ H) as Hf. rewrite Qfloor_Z in Hf.
  destruct (py_round_cases q) as [[-> _]|[-> _]]; lia.
Qed.

Lemma py_round_error (q : Q) :
  q - (1 # 2) <= inject_Z (py_round q) /\ inject_Z (py_round q) <= q + (1 # 2).
Proof.
  pose proof (Qfloor_le q) as Hf. pose proof (Qlt_floor q) as Hc.
  rewrite inject_Z_plus in Hc. change (inject_Z 1) with 1 in Hc.
  destruct (py_round_cases q) as [[-> Hd]|[-> Hd]].
  - lra.
  - rewrite inject_Z_plus. change (inject_Z 1) with 1. lra.
Qed.

(** Rounding to the nearest double. *)

Lemma ulp64_pos (x : Q) : 0 < ulp64 x.
Proof. apply pow2_pos. Qed.

Lemma round64_pos (x : Q) :
  0 < x ->
  0 <= inject_Z (py_round (x / ulp64 x)) * ulp64 x
  /\ round64 x
     = if Qle_bool (2 ^ 1024) (inject_Z (py_round (x / ulp64 x)) * ulp64 x)
       then Infinity false
       else Finite (Qred (inject_Z (py_round (x / ulp64 x)) * ulp64 x)).
Proof.
  intros Hx. pose proof (ulp64_pos x) as Hu.
  assert (Hm : (0 <= py_round (x / ulp64 x))%Z).
  { apply py_round_ge_int. change (inject_Z 0) with 0.
    apply Qle_shift_div_l; [assumption|lra]. }
  assert (Hr : 0 <= inject_Z (py_round (x / ulp64 x)) * ulp64 x).
  { apply Qmult_le_0_compat; [|lra]. change 0 with (inject_Z 0).
    now rewrite <- Zle_Qle. }
  split; [assumption|]. unfold round64.
  rewrite (Qeq_bool_false x) by lra.
  rewrite (Qabs_pos _ Hr).
  assert (Qlt_bool x 0 = false) as -> by (apply Qlt_bool_false_iff; lra).
  reflexivity.
Qed.

Lemma round64_neg (x : Q) :
  x < 0 -> round64 x = Infinity true \/ exists r, round64 x = Finite r /\ r <= 0.
Proof.
  intros Hx. pose proof (ulp64_pos x) as Hu. unfold round64.
  rewrite (Qeq_bool_false x) by lra.
  assert (Qlt_bool x 0 = true) as -> by (apply Qlt_bool_iff; lra).
  destruct (Qle_bool _ _); [now left|right].
  eexists. split; [reflexivity|]. rewrite Qred_correct.
  assert (Hm : (py_round (x / ulp64 x) <= 0)%Z).
  { apply py_round_le_int. change (inject_Z 0) with 0.
    apply Qle_shift_div_r; [assumption|lra]. }
  rewrite Zle_Qle in Hm. change (inject_Z 0) with 0 in Hm.
  assert (H0 : 0 <= - inject_Z (py_round (x / ulp64 x)) * ulp64 x)
    by (apply Qmult_le_0_compat; lra).
  lra.
Qed.

(** A positive double is a whole number of its [ulp64]. *)
Lemma is_double_repr (d : Q) :
  0 < d -> is_double d ->
  d == inject_Z (py_round (d / ulp64 d)) * ulp64 d /\ d < 2 ^ 1024.
Proof.
  intros Hd H. unfold is_double in H.
  destruct (round64_pos d Hd) as [Hr Hround]. rewrite Hround in H.
  destruct (Qle_bool _ _) eqn:E; [discriminate|].
  injection H as H. apply (f_equal (fun q => q : Q)) in H.
  assert (Heq : inject_Z (py_round (d / ulp64 d)) * ulp64 d == d).
  { rewrite <- (Qred_correct (_ * _)), H. apply Qred_correct. }
  split; [now symmetry|].
  rewrite <- Heq. apply Qnot_le_lt. intros Hle. apply Qle_bool_iff in Hle. congruence.
Qed.

Lemma ulp64_mono (x y : Q) :
  0 < x -> x <= y ->
  exists k : Z, (0 <= k)%Z /\ ulp64 y == inject_Z (2 ^ k) * ulp64 x.
Proof.
  intros Hx Hxy. pose proof (ilog2_mono x y Hx Hxy) as He. unfold ulp64.
  exists (Z.max (ilog2 y) (-1022) - Z.max (ilog2 x) (-1022))%Z.
  split; [lia|]. rewrite <- pow2_inject by lia. rewrite <- pow2_plus.
  now replace (Z.max (ilog2 y) (-1022) - Z.max (ilog2 x) (-1022)
               + (Z.max (ilog2 x) (-1022) - 52))%Z
    with (Z.max (ilog2 y) (-1022) - 52)%Z by lia.
Qed.

(** Rounding does not cross a double. *)
Lemma round64_le_double (x d : Q) :
  0 < x -> x <= d -> is_double d ->
  exists r, round64 x = Finite r /\ 0 <= r /\ r <= d.
Proof.
  intros Hx Hxd Hd.
  destruct (is_double_repr d ltac:(lra) Hd) as [Hrep Hfin].
  destruct (ulp64_mono x d Hx Hxd) as (k & Hk & Hulp).
  destruct (round64_pos x Hx) as [Hr Hround].
  pose proof (ulp64_pos x) as Hu.
  set (m := py_round (d / ulp64 d)) in *.
  assert (HN : d == inject_Z (m * 2 ^ k) * ulp64 x).
  { rewrite inject_Z_mult, Hrep at 1. rewrite Hulp. ring. }
  assert (Hm : (py_round (x / ulp64 x) <= m * 2 ^ k)%Z).
  { apply py_round_le_int. apply Qle_shift_div_r; [assumption|]. now rewrite <- HN. }
  assert (Hle : inject_Z (py_round (x / ulp64 x)) * ulp64 x <= d).
  { rewrite HN. apply Qmult_le_r; [assumption|]. now rewrite <- Zle_Qle. }
  rewrite Hround.
  assert (Qle_bool (2 ^ 1024) (inject_Z (py_round (x / ulp64 x)) * ulp64 x) = false) as ->.
  { apply not_true_iff_false. intros H. apply Qle_bool_iff in H. lra. }
  eexists. split; [reflexivity|]. rewrite Qred_correct. split; assumption.
Qed.

Lemma round64_ge_double (x d : Q) :
  0 < x -> 0 <= d -> d <= x -> is_double d -> float_le (Finite d) (round64 x).
Proof.
  intros Hx Hd0 Hdx Hd.
  destruct (round64_pos x Hx) as [Hr Hround]. rewrite Hround.
  destruct (Qle_bool _ _); [exact I|]. cbn. rewrite Qred_correct.
  destruct (Qle_lt_or_eq _ _ Hd0) as [Hpos|Hzero]; [|lra].
  destruct (is_double_repr d Hpos Hd) as [Hrep _].
  destruct (ulp64_mono d x Hpos Hdx) as (k & Hk & Hulp).
  pose proof (ulp64_pos x) as Hu. pose proof (ulp64_pos d) as Hud.
  destruct (Z.eq_dec k 0%Z) as [->|Hk0].
  - (* the same binade *)
    assert (Hulp' : ulp64 x == ulp64 d).
    { rewrite Hulp. change (inject_Z (2 ^ 0)) with 1. ring. }
    clear Hulp. rename Hulp' into Hulp.
    assert (Hm : (py_round (d / ulp64 d) <= py_round (x / ulp64 x))%Z).
    { apply py_round_ge_int. apply Qle_shift_div_l; [assumption|].
      rewrite Hulp, <- Hrep. assumption. }
    apply Qle_trans with (inject_Z (py_round (d / ulp64 d)) * ulp64 x).
    { rewrite Hulp, <- Hrep. apply Qle_refl. }
    apply Qmult_le_r; [assumption|]. now rewrite <- Zle_Qle.
  - (* [x] in a higher binade *)
    assert (Hex : (Z.max (ilog2 d) (-1022) < Z.max (ilog2 x) (-1022))%Z).
    { assert (Hlt : ulp64 d < ulp64 x).
      { rewrite Hulp. rewrite <- (Qmult_1_l (ulp64 d)) at 1.
        apply Qmult_lt_r; [assumption|].
        change 1 with (inject_Z 1). rewrite <- Zlt_Qlt.
        assert (2 ^ 0 < 2 ^ k)%Z by (apply Z.pow_lt_mono_r; lia). lia. }
      unfold ulp64 in Hlt. apply pow2_lt_inv in Hlt. lia. }
    destruct (ilog2_spec d Hpos) as [_ Hdu]. destruct (ilog2_spec x Hx) as [Hxl _].
    assert (Hmax : Z.max (ilog2 x) (-1022) = ilog2 x) by lia.
    assert (Hd2 : d < 2 ^ ilog2 x).
    { apply Qlt_le_trans with (2 ^ (ilog2 d + 1)); [assumption|]. apply pow2_le. lia. }
    assert (H52 : 2 ^ ilog2 x == inject_Z (2 ^ 52) * ulp64 x).
    { unfold ulp64. rewrite Hmax, <- pow2_inject, <- pow2_plus by lia.
      now replace (52 + (ilog2 x - 52))%Z with (ilog2 x) by lia. }
    assert (Hm : (2 ^ 52 <= py_round (x / ulp64 x))%Z).
    { apply py_round_ge_int. apply Qle_shift_div_l; [assumption|]. now rewrite <- H52. }
    apply Qle_trans with (2 ^ ilog2 x); [lra|]. rewrite H52.
    apply Qmult_le_r; [assumption|]. now rewrite <- Zle_Qle.
Qed.

Lemma is_double_twice (c : Q) :
  0 < c -> is_double c -> 2 * c < 2 ^ 1024 -> is_double (2 * c).
Proof.
  intros Hc Hd Hfin. destruct (is_double_repr c Hc Hd) as [Hrep _].
  destruct (ilog2_spec c Hc) as [Hl Hu].
  assert (Hlog : ilog2 (2 * c) = (ilog2 c + 1)%Z).
  { apply ilog2_unique; [lra| |].
    - rewrite Z.add_comm, pow2_plus. change (2 ^ 1) with 2. lra.
    - replace (ilog2 c + 1 + 1)%Z with (1 + (ilog2 c + 1))%Z by lia.
      rewrite pow2_plus. change (2 ^ 1) with 2. lra. }
  pose proof (ulp64_pos c) as Hpos. pose proof (ulp64_pos (2 * c)) as Hpos2.
  set (m := py_round (c / ulp64 c)) in *.
  assert (Hm : exists N : Z, 2 * c == inject_Z N * ulp64 (2 * c)).
  { destruct (Z_lt_le_dec (ilog2 c) (-1022)) as [Hsub|Hnorm].
    - exists (2 * m)%Z.
      assert (ulp64 (2 * c) = ulp64 c) as ->.
      { unfold ulp64. rewrite Hlog. f_equal. lia. }
      rewrite inject_Z_mult. change (inject_Z 2) with 2. rewrite Hrep at 1. ring.
    - exists m.
      assert (ulp64 (2 * c) == 2 * ulp64 c) as ->.
      { unfold ulp64. rewrite Hlog.
        replace (Z.max (ilog2 c + 1) (-1022) - 52)%Z
          with (1 + (Z.max (ilog2 c) (-1022) - 52))%Z by lia.
        rewrite pow2_plus. reflexivity. }
      rewrite Hrep at 1. ring. }
  destruct Hm as [N HN].
  assert (Hround : py_round (2 * c / ulp64 (2 * c)) = N).
  { assert (Hq : 2 * c / ulp64 (2 * c) == inject_Z N).
    { rewrite HN at 1. field. lra. }
    apply Z.le_antisymm.
    - apply py_round_le_int. rewrite Hq. apply Qle_refl.
    - apply py_round_ge_int. rewrite Hq. apply Qle_refl. }
  unfold is_double. destruct (round64_pos (2 * c) ltac:(lra)) as [_ ->].
  rewrite Hround.
  assert (Qle_bool (2 ^ 1024) (inject_Z N * ulp64 (2 * c)) = false) as ->.
  { apply not_true_iff_false. intros H. apply Qle_bool_iff in H. rewrite <- HN in H. lra. }
  f_equal. apply Qred_complete. now symmetry.
Qed.

(** The relative error of a rounding in the range of the normal numbers. *)
Lemma round64_relative (x r : Q) :
  2 ^ (-1022) <= x -> round64 x = Finite r ->
  (1 - 2 ^ (-53)) * x <= r /\ r <= (1 + 2 ^ (-53)) * x.
Proof.
  intros Hx H. pose proof (pow2_pos (-1022)) as H0.
  destruct (round64_pos x ltac:(lra)) as [_ Hround]. rewrite Hround in H.
  destruct (Qle_bool _ _); [discriminate|]. injection H as <-. rewrite Qred_correct.
  destruct (ilog2_spec x ltac:(lra)) as [Hl Hu].
  assert (He : (-1022 <= ilog2 x)%Z).
  { assert (Hlt : 2 ^ (-1022) < 2 ^ (ilog2 x + 1)) by lra.
    apply pow2_lt_inv in Hlt. lia. }
  assert (Hulp : ulp64 x == 2 * 2 ^ (-53) * 2 ^ ilog2 x).
  { unfold ulp64. rewrite Z.max_l by lia.
    replace (ilog2 x - 52)%Z with (1 + (-53 + ilog2 x))%Z by lia.
    rewrite !pow2_plus. change (2 ^ 1) with 2. ring. }
  pose proof (ulp64_pos x) as Hpos.
  destruct (py_round_error (x / ulp64 x)) as [He1 He2].
  set (m := inject_Z (py_round (x / ulp64 x))) in *.
  assert (Hx' : x / ulp64 x * ulp64 x == x) by (field; lra).
  assert (H1 : (x / ulp64 x - (1 # 2)) * ulp64 x <= m * ulp64 x)
    by (apply Qmult_le_r; assumption).
  assert (H2 : m * ulp64 x <= (x / ulp64 x + (1 # 2)) * ulp64 x)
    by (apply Qmult_le_r; assumption).
  assert (H3 : (1 # 2) * ulp64 x <= 2 ^ (-53) * x).
  { rewrite Hulp. pose proof (pow2_pos (-53)) as H53.
    assert (Heq : (1 # 2) * (2 * 2 ^ (-53) * 2 ^ ilog2 x) == 2 ^ (-53) * 2 ^ ilog2 x)
      by ring.
    rewrite Heq. apply Qmult_le_l; assumption. }
  split; nra.
Qed.

Lemma is_double_0 : is_double 0.
Proof. reflexivity. Qed.

Lemma is_double_1 : is_double 1.
Proof. vm_compute. reflexivity. Qed.

Lemma is_double_2 : is_double 2.
Proof. vm_compute. reflexivity. Qed.

Lemma is_double_min_normal : is_double (2 ^ (-1022)).
Proof. vm_compute. reflexivity. Qed.

Lemma round64_0 (x : Q) : x == 0 -> round64 x = Finite 0.
Proof.
  intros H. unfold round64.
  assert (Qeq_bool x 0 = true) as -> by now apply Qeq_bool_iff. reflexivity.
Qed.

(** Two roundings between a boundary and its formula. *)
Lemma boundary_tolerance (t p s l : Q) :
  0 < t -> 0 <= p ->
  round64 (p + 1) = Finite s ->
  round64 (t / s) = Finite l ->
  2 ^ (-1022) <= t / s ->
  within_roundings 1 t ((p + 1) * l).
Proof.
  intros Ht Hp Hs Hl Hnorm.
  pose proof (pow2_pos (-53)) as He. pose proof (pow2_pos (-1022)) as Hmin.
  assert (He1 : 2 ^ (-53) < 1).
  { change 1 with (2 ^ 0). apply pow2_lt. lia. }
  assert (H1 : 2 ^ (-1022) <= p + 1).
  { apply Qle_trans with 1; [|lra]. change 1 with (2 ^ 0). apply pow2_le. lia. }
  destruct (round64_relative _ _ H1 Hs) as [Hs1 Hs2].
  destruct (round64_relative _ _ Hnorm Hl) as [Hl1 Hl2].
  set (e := 2 ^ (-53)) in *.
  assert (Hspos : 0 < s) by nra.
  assert (Hts : t / s * s == t) by (field; lra).
  set (x := t / s) in *.
  assert (Hx : 0 < x) by lra.
  assert (Hlpos : 0 < l) by nra.
  unfold within_roundings. fold e. change ((1 - e) ^ 1) with (1 - e).
  change ((1 + e) ^ 1) with (1 + e).
  assert (Ha : (1 - e) * t <= l * s).
  { rewrite <- Hts. assert ((1 - e) * x * s <= l * s) by (apply Qmult_le_r; assumption).
    lra. }
  assert (Hb : l * s <= (1 + e) * t).
  { rewrite <- Hts. assert (l * s <= (1 + e) * x * s) by (apply Qmult_le_r; assumption).
    lra. }
  assert (Hc : l * s <= (1 + e) * ((p + 1) * l)).
  { assert (l * s <= l * ((1 + e) * (p + 1))) by (apply Qmult_le_l; assumption). lra. }
  assert (Hd : (1 - e) * ((p + 1) * l) <= l * s).
  { assert (l * ((1 - e) * (p + 1)) <= l * s) by (apply Qmult_le_l; assumption). lra. }
  split; lra.
Qed.

(** Rounding is the same on equal rationals, and symmetric. *)

Lemma py_round_nearest (q : Q) :
  (q - (1 # 2) < inject_Z (py_round q) /\ inject_Z (py_round q) < q + (1 # 2))
  \/ ((inject_Z (py_round q) == q - (1 # 2) \/ inject_Z (py_round q) == q + (1 # 2))
      /\ Z.even (py_round q) = true).
Proof.
  pose proof (Qfloor_le q) as Hf. pose proof (Qlt_floor q) as Hc.
  rewrite inject_Z_plus in Hc. change (inject_Z 1) with 1 in Hc.
  unfold py_round.
  destruct (Qlt_bool (q - inject_Z (Qfloor q)) (1 # 2)) eqn:E1.
  { apply Qlt_bool_iff in E1. left. lra. }
  apply Qlt_bool_false_iff in E1.
  destruct (Qlt_bool (1 # 2) (q - inject_Z (Qfloor q))) eqn:E2.
  { apply Qlt_bool_iff in E2. left. rewrite inject_Z_plus.
    change (inject_Z 1) with 1. lra. }
  apply Qlt_bool_false_iff in E2.
  destruct (Z.even (Qfloor q)) eqn:E3; right.
  - split; [left; lra|assumption].
  - split.
    + right. rewrite inject_Z_plus. change (inject_Z 1) with 1. lra.
    + rewrite Z.even_add, E3. reflexivity.
Qed.

Lemma py_round_unique (q : Q) (n : Z) :
  (q - (1 # 2) < inject_Z n /\ inject_Z n < q + (1 # 2))
  \/ ((inject_Z n == q - (1 # 2) \/ inject_Z n == q + (1 # 2)) /\ Z.even n = true) ->
  py_round q = n.
Proof.
  intros Hn. pose proof (py_round_nearest q) as Hm.
  set (m := py_round q) in *.
  assert (Hclose : (m + -1 <= n <= m + 1)%Z).
  { split; rewrite Zle_Qle; rewrite inject_Z_plus;
      [change (inject_Z (-1)) with (-1)|change (inject_Z 1) with 1];
      destruct Hn as [[? ?]|[[?|?] _]], Hm as [[? ?]|[[?|?] _]]; lra. }
  destruct (Z.eq_dec m n) as [|Hne]; [assumption|exfalso].
  assert (Hcase : (n = m + -1 \/ n = m + 1)%Z) by lia.
  assert (Hq : inject_Z n == inject_Z m + -1 \/ inject_Z n == inject_Z m + 1).
  { destruct Hcase as [->| ->]; [left|right]; rewrite inject_Z_plus; reflexivity. }
  assert (Hen : Z.even n = true).
  { destruct Hn as [[? ?]|[_ ?]]; [|assumption].
    destruct Hq, Hm as [[? ?]|[[?|?] _]]; lra. }
  assert (Hem : Z.even m = true).
  { destruct Hm as [[? ?]|[_ ?]]; [|assumption].
    destruct Hq, Hn as [[? ?]|[[?|?] _]]; lra. }
  destruct Hcase as [->| ->].
  - rewrite Z.even_add, Hem in Hen. discriminate.
  - rewrite Z.even_add, Hem in Hen. discriminate.
Qed.

Lemma py_round_comp (q q' : Q) : q == q' -> py_round q = py_round q'.
Proof.
  intros H. symmetry. apply py_round_unique.
  destruct (py_round_nearest q) as [[? ?]|[[?|?] ?]].
  - left. lra.
  - right. split; [left; lra|assumption].
  - right. split; [right; lra|assumption].
Qed.

Lemma py_round_opp (q : Q) : py_round (- q) = (- py_round q)%Z.
Proof.
  apply py_round_unique. rewrite inject_Z_opp, Z.even_opp.
  destruct (py_round_nearest q) as [[? ?]|[[?|?] ?]].
  - left. lra.
  - right. split; [right; lra|assumption].
  - right. split; [left; lra|assumption].
Qed.

Lemma ilog2_Qabs (q : Q) : ilog2 (Qabs q) = ilog2 q.
Proof.
  unfold ilog2.
  assert (Hn : Qnum (Qabs q) = Z.abs (Qnum q)) by now destruct q.
  assert (Hd : Qden (Qabs q) = Qden q) by now destruct q.
  rewrite Hn, Hd, (Z.abs_eq (Z.abs (Qnum q))) by apply Z.abs_nonneg.
  set (e := (Z.log2 (Z.abs (Qnum q)) - Z.log2 (Z.pos (Qden q)))%Z).
  assert (Qle_bool (2 ^ e) (Qabs (Qabs q)) = Qle_bool (2 ^ e) (Qabs q)) as ->
    by (apply Qleb_comp; [reflexivity|apply Qabs_pos, Qabs_nonneg]).
  reflexivity.
Qed.

Lemma ilog2_comp (x x' : Q) : ~ x == 0 -> Qabs x == Qabs x' -> ilog2 x = ilog2 x'.
Proof.
  intros Hx H. rewrite <- (ilog2_Qabs x), <- (ilog2_Qabs x').
  assert (Hpos : 0 < Qabs x).
  { pose proof (Qabs_nonneg x) as H0.
    destruct (Qle_lt_or_eq _ _ H0) as [?|Hz]; [assumption|exfalso].
    apply Hx. revert Hz. apply Qabs_case; intros; lra. }
  destruct (ilog2_spec (Qabs x) Hpos) as [H1 H2].
  symmetry. apply ilog2_unique; lra.
Qed.

Lemma round64_comp (x x' : Q) : x == x' -> round64 x = round64 x'.
Proof.
  intros H. unfold round64. rewrite <- H at 1.
  destruct (Qeq_bool x 0) eqn:E; [reflexivity|].
  apply Qeq_bool_neq in E.
  assert (Hu : ulp64 x' = ulp64 x).
  { unfold ulp64. rewrite (ilog2_comp x x' E); [reflexivity|now rewrite H]. }
  rewrite Hu. rewrite (py_round_comp (x' / ulp64 x) (x / ulp64 x))
    by (apply Qmult_comp; [now symmetry|reflexivity]).
  assert (Qlt_bool x' 0 = Qlt_bool x 0) as ->
    by (unfold Qlt_bool; now rewrite H).
  reflexivity.
Qed.

Lemma round64_opp (x y : Q) : round64 x = Finite y -> round64 (- x) = Finite (- y).
Proof.
  unfold round64.
  assert (Qeq_bool (- x) 0 = Qeq_bool x 0) as ->.
  { destruct (Qeq_bool x 0) eqn:E.
    - apply Qeq_bool_iff in E. apply Qeq_bool_iff. lra.
    - apply Qeq_bool_neq in E. apply Qeq_bool_false. lra. }
  destruct (Qeq_bool x 0) eqn:E.
  { intros [= <-]. reflexivity. }
  apply Qeq_bool_neq in E.
  assert (Hu : ulp64 (- x) = ulp64 x).
  { unfold ulp64. rewrite (ilog2_comp (- x) x); [reflexivity|lra|apply Qabs_opp]. }
  rewrite Hu.
  rewrite (py_round_comp (- x / ulp64 x) (- (x / ulp64 x)))
    by (field; pose proof (ulp64_pos x); lra).
  rewrite py_round_opp, inject_Z_opp.
  set (m := inject_Z (py_round (x / ulp64 x))).
  assert (Hr : - m * ulp64 x == - (m * ulp64 x)) by ring.
  rewrite Hr at 1. rewrite Qabs_opp.
  destruct (Qle_bool _ _); [discriminate|].
  intros [= <-]. rewrite (Qred_complete _ _ Hr), Qred_opp. reflexivity.
Qed.

(** Below the normal range the error is at most half the spacing of the
    subnormal doubles. *)
Lemma round64_subnormal (x r : Q) :
  0 < x -> x < 2 ^ (-1022) -> round64 x = Finite r ->
  x - 2 ^ (-1075) <= r /\ r <= x + 2 ^ (-1075).
Proof.
  intros Hx Hsub H.
  destruct (round64_pos x Hx) as [_ Hround]. rewrite Hround in H.
  destruct (Qle_bool _ _); [discriminate|]. injection H as <-. rewrite Qred_correct.
  destruct (ilog2_spec x Hx) as [Hl Hu].
  assert (He : (ilog2 x < -1022)%Z).
  { assert (Hlt : 2 ^ ilog2 x < 2 ^ (-1022)) by lra. now apply pow2_lt_inv in Hlt. }
  assert (Hulp : ulp64 x == 2 * 2 ^ (-1075)).
  { unfold ulp64. rewrite Z.max_r by lia. reflexivity. }
  pose proof (ulp64_pos x) as Hpos.
  destruct (py_round_error (x / ulp64 x)) as [He1 He2].
  set (m := inject_Z (py_round (x / ulp64 x))) in *.
  assert (Hx' : x / ulp64 x * ulp64 x == x) by (field; lra).
  assert (H1 : (x / ulp64 x - (1 # 2)) * ulp64 x <= m * ulp64 x)
    by (apply Qmult_le_r; assumption).
  assert (H2 : m * ulp64 x <= (x / ulp64 x + (1 # 2)) * ulp64 x)
    by (apply Qmult_le_r; assumption).
  split; nra.
Qed.

(** One rounding of a non-negative number, seen after adding 1. *)
Lemma round64_plus_one (x r : Q) :
  0 <= x -> round64 x = Finite r ->
  (1 - 2 ^ (-53)) * (x + 1) <= r + 1 /\ r + 1 <= (1 + 2 ^ (-53)) * (x + 1).
Proof.
  intros Hx H. pose proof (pow2_pos (-53)) as He.
  destruct (Qle_lt_or_eq _ _ Hx) as [Hpos|Hzero].
  2:{ rewrite (round64_0 x) in H by now symmetry. injection H as <-. lra. }
  destruct (Qlt_le_dec x (2 ^ (-1022))) as [Hsub|Hnorm].
  - destruct (round64_subnormal x r Hpos Hsub H) as [H1 H2].
    assert (Hs : 2 ^ (-1075) <= 2 ^ (-53)) by (apply pow2_le; lia).
    nra.
  - destruct (round64_relative x r Hnorm H) as [H1 H2]. nra.
Qed.
(** The two roundings of a power and of its inverse, between the ratio of
    the boundaries and the power. *)
Lemma ratio_tolerance (t P Q p q l u : Q) :
  0 < t -> 1 <= P -> Q * P == 1 ->
  round64 P = Finite p -> round64 Q = Finite q ->
  0 < l -> 0 < u ->
  within_roundings 1 t ((p + 1) * l) -> within_roundings 1 t ((q + 1) * u) ->
  within_roundings 3 (P * l) u /\ within_roundings 2 (l + u) t.
Proof.
  intros Ht HP HQP Hp Hq Hl Hu [H1 H2] [H3 H4].
  assert (HQ : 0 < Q) by nra.
  destruct (round64_plus_one P p ltac:(lra) Hp) as [R1 R2].
  destruct (round64_plus_one Q q ltac:(lra) Hq) as [R3 R4].
  pose proof (pow2_pos (-53)) as He.
  assert (He1 : 2 ^ (-53) < 1).
  { change 1 with (2 ^ 0). apply pow2_lt. lia. }
  unfold within_roundings.
  change ((1 - 2 ^ (-53)) ^ 1) with (1 - 2 ^ (-53)) in *.
  change ((1 + 2 ^ (-53)) ^ 1) with (1 + 2 ^ (-53)) in *.
  assert (Ea3 : (1 - 2 ^ (-53)) ^ 3 == (1 - 2 ^ (-53)) * (1 - 2 ^ (-53)) * (1 - 2 ^ (-53)))
    by (cbn [Qpower Qpower_positive pow_pos Pos.iter_op]; ring).
  assert (Eb3 : (1 + 2 ^ (-53)) ^ 3 == (1 + 2 ^ (-53)) * (1 + 2 ^ (-53)) * (1 + 2 ^ (-53)))
    by (cbn [Qpower Qpower_positive pow_pos Pos.iter_op]; ring).
  assert (Ea2 : (1 - 2 ^ (-53)) ^ 2 == (1 - 2 ^ (-53)) * (1 - 2 ^ (-53))) by reflexivity.
  assert (Eb2 : (1 + 2 ^ (-53)) ^ 2 == (1 + 2 ^ (-53)) * (1 + 2 ^ (-53))) by reflexivity.
  rewrite Ea3, Eb3, Ea2, Eb2. clear Ea3 Eb3 Ea2 Eb2.
  assert (Ha : 0 < 1 - 2 ^ (-53)) by lra.
  assert (Hb : 0 < 1 + 2 ^ (-53)) by lra.
  assert (Ha1 : 1 - 2 ^ (-53) <= 1) by lra.
  assert (Hb1 : 1 <= 1 + 2 ^ (-53)) by lra.
  set (a := 1 - 2 ^ (-53)) in *. set (b := 1 + 2 ^ (-53)) in *.
  clearbody a b. clear He He1.
  assert (Haa : 0 < a * a) by (apply Qmult_lt_0_compat; assumption).
  assert (Hbb : 0 < b * b) by (apply Qmult_lt_0_compat; assumption).
  assert (Haal : 0 < a * a * l) by (apply Qmult_lt_0_compat; assumption).
  assert (Haau : 0 < a * a * u) by (apply Qmult_lt_0_compat; assumption).
  assert (Hbbl : 0 < b * b * l) by (apply Qmult_lt_0_compat; assumption).
  assert (Hbbu : 0 < b * b * u) by (apply Qmult_lt_0_compat; assumption).
  assert (Hal : 0 < a * l) by (apply Qmult_lt_0_compat; assumption).
  assert (Hau : 0 < a * u) by (apply Qmult_lt_0_compat; assumption).
  assert (Hbl : 0 < b * l) by (apply Qmult_lt_0_compat; assumption).
  assert (Hbu : 0 < b * u) by (apply Qmult_lt_0_compat; assumption).
  assert (HQ1 : 0 < Q + 1) by lra.
  assert (HP1 : 0 < P + 1) by lra.
  (* the chains of the four roundings *)
  assert (S1 : a * a * l * (a * (P + 1)) <= a * a * l * (p + 1))
    by (apply Qmult_le_l; assumption).
  assert (S2 : a * (a * ((p + 1) * l)) <= a * (b * t))
    by (apply Qmult_le_l; assumption).
  assert (S3 : b * (a * t) <= b * (b * ((q + 1) * u)))
    by (apply Qmult_le_l; assumption).
  assert (S4 : b * b * u * (q + 1) <= b * b * u * (b * (Q + 1)))
    by (apply Qmult_le_l; assumption).
  assert (T1 : a * a * u * (a * (Q + 1)) <= a * a * u * (q + 1))
    by (apply Qmult_le_l; assumption).
  assert (T2 : a * (a * ((q + 1) * u)) <= a * (b * t))
    by (apply Qmult_le_l; assumption).
  assert (T3 : b * (a * t) <= b * (b * ((p + 1) * l)))
    by (apply Qmult_le_l; assumption).
  assert (T4 : b * b * l * (p + 1) <= b * b * l * (b * (P + 1)))
    by (apply Qmult_le_l; assumption).
  assert (EP : P * l * (Q + 1) == l * (P + 1)).
  { assert (E : P * l * (Q + 1) == l * (Q * P) + l * P) by ring.
    rewrite E, HQP. ring. }
  assert (K1 : a * a * a * (l * (P + 1)) <= b * b * b * (u * (Q + 1))) by lra.
  assert (K2 : a * a * a * (u * (Q + 1)) <= b * b * b * (l * (P + 1))) by lra.
  split; split.
  - apply (Qmult_le_r _ _ (Q + 1)); [assumption|].
    assert (E : a * a * a * (P * l) * (Q + 1) == a * a * a * (P * l * (Q + 1))) by ring.
    rewrite E, EP. lra.
  - apply (Qmult_le_r _ _ (Q + 1)); [assumption|].
    assert (E : b * b * b * (P * l) * (Q + 1) == b * b * b * (P * l * (Q + 1))) by ring.
    rewrite E, EP. lra.
  - assert (U1 : a * l * (a * (P + 1)) <= a * l * (p + 1))
      by (apply Qmult_le_l; assumption).
    assert (U2 : a * u * (a * (Q + 1)) <= a * u * (q + 1))
      by (apply Qmult_le_l; assumption).
    assert (U3 : P * (a * a * u * (Q + 1)) <= P * (b * t))
      by (apply Qmult_le_l; [lra|lra]).
    assert (E : P * (a * a * u * (Q + 1)) == a * a * u * (Q * P) + a * a * u * P) by ring.
    rewrite E, HQP in U3.
    assert (Hbt : 0 < b * t) by (apply Qmult_lt_0_compat; assumption).
    assert (U4 : b * t * 1 <= b * t * b) by (apply Qmult_le_l; assumption).
    assert (U5 : P * (b * t * 1) <= P * (b * t * b)) by (apply Qmult_le_l; [lra|assumption]).
    apply (Qmult_le_r _ _ (P + 1)); [assumption|]. lra.
  - assert (V1 : b * l * (p + 1) <= b * l * (b * (P + 1)))
      by (apply Qmult_le_l; assumption).
    assert (V2 : b * u * (q + 1) <= b * u * (b * (Q + 1)))
      by (apply Qmult_le_l; assumption).
    assert (V3 : P * (a * t) <= P * (b * b * u * (Q + 1)))
      by (apply Qmult_le_l; [lra|lra]).
    assert (E : P * (b * b * u * (Q + 1)) == b * b * u * (Q * P) + b * b * u * P) by ring.
    rewrite E, HQP in V3.
    assert (Hat : 0 < a * t) by (apply Qmult_lt_0_compat; assumption).
    assert (V4 : a * t * a <= a * t * 1) by (apply Qmult_le_l; assumption).
    assert (V5 : P * (a * t * a) <= P * (a * t * 1)) by (apply Qmult_le_l; [lra|assumption]).
    apply (Qmult_le_r _ _ (P + 1)); [assumption|]. lra.
Qed.
Section PowerFacts.

Variable pow10 : Q -> Q.

(** What the proofs need of the power of the C library: it is at least 1
    at a positive exponent, and between 0 and 1 at a negative one. *)
Hypothesis pow10_above : forall y, 0 < y -> 1 <= pow10 y.
Hypothesis pow10_below : forall y, y < 0 -> 0 <= pow10 y /\ pow10 y <= 1.

Lemma power_of_positive (z : Q) :
  0 < z ->
  float_pow10 pow10 (round64 z) = Raises OverflowError
  \/ exists P, float_pow10 pow10 (round64 z) = Returns P /\ float_le (Finite 1) P.
Proof.
  intros Hz. destruct (round64_pos z Hz) as [Hr ->].
  destruct (Qle_bool _ _).
  { right. exists (Infinity false). now split. }
  set (y := Qred _). assert (Hy : 0 <= y) by (subst y; now rewrite Qred_correct).
  cbn. destruct (Qeq_bool y 0) eqn:E.
  { right. exists (Finite 1). split; [reflexivity|]. cbn. lra. }
  apply Qeq_bool_neq in E.
  assert (Hpos : 0 < y).
  { destruct (Qle_lt_or_eq _ _ Hy) as [?|Heq]; [assumption|]. exfalso. apply E. lra. }
  pose proof (pow10_above y Hpos) as Hp.
  pose proof (round64_ge_double (pow10 y) 1 ltac:(lra) ltac:(lra) Hp is_double_1) as Hle.
  destruct (round64 (pow10 y)) as [p|s|]; cbn in Hle.
  - right. exists (Finite p). now split.
  - now left.
  - contradiction.
Qed.

Lemma power_of_negative (z : Q) :
  z < 0 ->
  exists q, float_pow10 pow10 (round64 z) = Returns (Finite q) /\ 0 <= q /\ q <= 1.
Proof.
  intros Hz. destruct (round64_neg z Hz) as [->|(r & -> & Hr)].
  { exists 0. cbn. repeat split; lra. }
  cbn. destruct (Qeq_bool r 0) eqn:E.
  { exists 1. repeat split; lra. }
  apply Qeq_bool_neq in E.
  assert (Hneg : r < 0).
  { destruct (Qle_lt_or_eq _ _ Hr) as [?|Heq]; [assumption|]. exfalso. now apply E. }
  destruct (pow10_below r Hneg) as [H0 H1].
  destruct (Qle_lt_or_eq _ _ H0) as [Hpos|Hzero].
  - destruct (round64_le_double (pow10 r) 1 Hpos H1 is_double_1) as (q & -> & Hq0 & Hq1).
    exists q. now repeat split.
  - rewrite (round64_0 (pow10 r)) by now symmetry.
    exists 0. repeat split; lra.
Qed.

Lemma float_pow10_finite (y : Q) :
  ~ y == 0 ->
  float_pow10 pow10 (Finite y)
  = match round64 (pow10 y) with
    | Infinity _ => Raises OverflowError
    | p => Returns p
    end.
Proof. intros Hy. cbn. now rewrite (Qeq_bool_false y Hy). Qed.

(** The boundary on the side of the power that is at least 1. *)
Lemma lower_half (c : Q) (P : double) :
  0 < c -> is_double c -> 2 * c < 2 ^ 1024 ->
  float_le (Finite 1) P ->
  exists l,
    float_truediv (float_mul (Finite 2) (Finite c)) (float_add P (Finite 1))
    = Returns (Finite l)
    /\ 0 <= l /\ l <= c
    /\ forall p, P = Finite p -> 2 ^ (-1022) < l ->
         within_roundings 1 (2 * c) ((p + 1) * l).
Proof.
  intros Hc Hd Hfin HP. pose proof (pow2_pos (-1022)) as Hmin.
  cbn [float_mul]. rewrite (is_double_twice c Hc Hd Hfin).
  assert (Ht : Qred (2 * c) == 2 * c) by apply Qred_correct.
  set (t := Qred (2 * c)) in *.
  destruct P as [p|[|]|]; cbn in HP; try contradiction.
  2:{ exists 0. cbn [float_add float_truediv].
      split; [reflexivity|]. split; [lra|]. split; [lra|].
      intros p _ H. lra. }
  cbn [float_add].
  pose proof (round64_ge_double (p + 1) 2 ltac:(lra) ltac:(lra) ltac:(lra) is_double_2)
    as Hs.
  destruct (round64 (p + 1)) as [s|[|]|] eqn:Es; cbn in Hs; try contradiction.
  2:{ exists 0. cbn [float_add float_truediv].
      split; [reflexivity|]. split; [lra|]. split; [lra|].
      intros p' _ H. lra. }
  cbn [float_truediv]. rewrite (Qeq_bool_false s) by lra.
  assert (Hx : 0 < t / s) by (apply Qlt_shift_div_l; lra).
  assert (Hxc : t / s <= c) by (apply Qle_shift_div_r; nra).
  destruct (round64_le_double (t / s) c Hx Hxc Hd) as (l & El & Hl0 & Hlc).
  exists l. split; [now rewrite El|]. split; [exact Hl0|]. split; [exact Hlc|].
  intros p' [= <-] Hnorm.
  assert (Hn : 2 ^ (-1022) <= t / s).
  { apply Qnot_lt_le. intros Hlt.
    destruct (round64_le_double (t / s) (2 ^ (-1022)) Hx ltac:(lra) is_double_min_normal)
      as (l' & El' & _ & Hl').
    rewrite El in El'. injection El' as <-. lra. }
  destruct (boundary_tolerance t p s l ltac:(lra) ltac:(lra) Es El Hn) as [H1 H2].
  unfold within_roundings. rewrite <- Ht. now split.
Qed.

(** The boundary on the side of the power that is at most 1. *)
Lemma upper_half (c q : Q) :
  0 < c -> is_double c -> 2 * c < 2 ^ 1024 ->
  0 <= q -> q <= 1 ->
  exists u,
    float_truediv (float_mul (Finite 2) (Finite c)) (float_add (Finite q) (Finite 1))
    = Returns (Finite u)
    /\ c <= u /\ u <= 2 * c
    /\ (2 ^ (-1022) < c -> within_roundings 1 (2 * c) ((q + 1) * u)).
Proof.
  intros Hc Hd Hfin Hq0 Hq1.
  cbn [float_mul float_add]. pose proof (is_double_twice c Hc Hd Hfin) as Hd2.
  rewrite Hd2.
  assert (Ht : Qred (2 * c) == 2 * c) by apply Qred_correct.
  set (t := Qred (2 * c)) in *.
  destruct (round64_le_double (q + 1) 2 ltac:(lra) ltac:(lra) is_double_2)
    as (s & Es & _ & Hs2).
  pose proof (round64_ge_double (q + 1) 1 ltac:(lra) ltac:(lra) ltac:(lra) is_double_1)
    as Hs1.
  rewrite Es in Hs1 |- *. cbn in Hs1.
  cbn [float_truediv]. rewrite (Qeq_bool_false s) by lra.
  assert (Hx : 0 < t / s) by (apply Qlt_shift_div_l; lra).
  assert (Hxc : c <= t / s) by (apply Qle_shift_div_l; nra).
  assert (Hxt : t / s <= 2 * c) by (apply Qle_shift_div_r; nra).
  destruct (round64_le_double (t / s) (2 * c) Hx Hxt Hd2) as (u & Eu & _ & Hu2).
  pose proof (round64_ge_double (t / s) c Hx ltac:(lra) Hxc Hd) as HU.
  rewrite Eu in HU |- *. cbn in HU.
  exists u. split; [reflexivity|]. split; [exact HU|]. split; [exact Hu2|].
  intros Hnorm.
  destruct (boundary_tolerance t q s u ltac:(lra) Hq0 Es Eu ltac:(lra)) as [H1 H2].
  unfold within_roundings. rewrite <- Ht. now split.
Qed.

(** One boundary from the exponent: the side of the positive exponent ... *)
Lemma low_side (c z : Q) :
  0 < c -> is_double c -> 2 * c < 2 ^ 1024 -> 0 < z ->
  float_pow10 pow10 (round64 z) = Raises OverflowError
  \/ exists P l,
       float_pow10 pow10 (round64 z) = Returns P
       /\ float_truediv (float_mul (Finite 2) (Finite c)) (float_add P (Finite 1))
          = Returns (Finite l)
       /\ 0 <= l /\ l <= c
       /\ forall y, round64 z = Finite y -> 0 < y -> 2 ^ (-1022) < l ->
            exists p, round64 (pow10 y) = Finite p
                      /\ within_roundings 1 (2 * c) ((p + 1) * l).
Proof.
  intros Hc Hd Hfin Hz.
  destruct (power_of_positive z Hz) as [?|(P & HP & Hle)]; [now left|right].
  destruct (lower_half c P Hc Hd Hfin Hle) as (l & HL & Hl0 & Hlc & Htol).
  exists P, l. repeat split; try assumption.
  intros y Hy Hpos Hnorm. rewrite Hy, float_pow10_finite in HP by lra.
  destruct (round64 (pow10 y)) as [p| |] eqn:Ep; try discriminate.
  - exists p. split; [reflexivity|]. apply Htol; [congruence|assumption].
  - injection HP as <-. contradiction.
Qed.

(** ... and the side of the negative one. *)
Lemma high_side (c z : Q) :
  0 < c -> is_double c -> 2 * c < 2 ^ 1024 -> z < 0 ->
  exists q u,
    float_pow10 pow10 (round64 z) = Returns (Finite q)
    /\ float_truediv (float_mul (Finite 2) (Finite c)) (float_add (Finite q) (Finite 1))
       = Returns (Finite u)
    /\ c <= u /\ u <= 2 * c
    /\ forall y, round64 z = Finite y -> y < 0 -> 2 ^ (-1022) < c ->
         round64 (pow10 y) = Finite q /\ within_roundings 1 (2 * c) ((q + 1) * u).
Proof.
  intros Hc Hd Hfin Hz.
  destruct (power_of_negative z Hz) as (q & HQ & Hq0 & Hq1).
  destruct (upper_half c q Hc Hd Hfin Hq0 Hq1) as (u & HU & Huc & Hu2 & Htol).
  exists q, u. repeat split; try assumption.
  - rewrite H, float_pow10_finite in HQ by lra.
    destruct (round64 (pow10 y)) as [q'| |]; congruence.
  - apply Htol; (assumption || lra).
  - apply Htol; (assumption || lra).
Qed.

Lemma exponent_of_double (res y : Q) :
  0 < res -> is_double res -> round64 (1 / res) = Finite y -> 0 < y.
Proof.
  intros Hr Hd Hy. destruct (is_double_repr res Hr Hd) as [_ Hfin].
  pose proof (pow2_pos (-1024)) as Hmin.
  assert (Hone : 2 ^ (-1024) * 2 ^ 1024 == 1) by (rewrite <- pow2_plus; reflexivity).
  assert (Hz : 0 < 1 / res) by (apply Qlt_shift_div_l; lra).
  assert (Hle : 2 ^ (-1024) <= 1 / res).
  { apply Qle_shift_div_l; [assumption|].
    assert (2 ^ (-1024) * res <= 2 ^ (-1024) * 2 ^ 1024)
      by (apply Qmult_le_l; [assumption|lra]).
    lra. }
  assert (Hdm : is_double (2 ^ (-1024))) by (vm_compute; reflexivity).
  pose proof (round64_ge_double (1 / res) (2 ^ (-1024)) Hz ltac:(lra) Hle Hdm) as H.
  rewrite Hy in H. cbn [float_le] in H. lra.
Qed.

Lemma calc_bin_boundaries_positive_resolution (c res : Q) :
  0 < c -> is_double c -> 2 * c < 2 ^ 1024 ->
  0 < res -> is_double res ->
  (calc_bin_boundaries pow10 (Finite c) (Finite res) = Raises OverflowError
   /\ float_pow10 pow10 (round64 (1 / res)) = Raises OverflowError)
  \/ exists l u,
       calc_bin_boundaries pow10 (Finite c) (Finite res) = Returns (Finite l, Finite u)
       /\ 0 <= l /\ l <= c /\ c <= u /\ u <= 2 * c
       /\ forall y,
            round64 (1 / res) = Finite y -> 2 ^ (-1022) < l ->
            pow10 (- y) * pow10 y == 1 ->
            within_roundings 3 (pow10 y * l) u /\ within_roundings 2 (l + u) (2 * c).
Proof.
  intros Hc Hdc Hfin Hr Hdr.
  assert (Hz : 0 < 1 / res) by (apply Qlt_shift_div_l; lra).
  assert (Hz' : -1 / res < 0) by (apply Qlt_shift_div_r; lra).
  unfold calc_bin_boundaries. cbn [float_truediv].
  rewrite (Qeq_bool_false res) by lra. cbn [mbind outcome_bind].
  destruct (low_side c (1 / res) Hc Hdc Hfin Hz)
    as [Hraise|(P & l & HP & HL & Hl0 & Hlc & Hlow)].
  { left. rewrite Hraise. now split. }
  right. rewrite HP. cbn [mbind outcome_bind]. rewrite HL. cbn [mbind outcome_bind].
  destruct (high_side c (-1 / res) Hc Hdc Hfin Hz')
    as (q & u & HQ & HU & Huc & Hu2 & Hhigh).
  rewrite HQ. cbn [mbind outcome_bind]. rewrite HU. cbn [mbind outcome_bind].
  exists l, u. split; [reflexivity|]. do 4 (split; [assumption|]).
  intros y Hy Hnorm Hinv.
  pose proof (exponent_of_double res y Hr Hdr Hy) as Hpos.
  destruct (Hlow y Hy Hpos Hnorm) as (p & Ep & Hw1).
  assert (Hy' : round64 (-1 / res) = Finite (- y)).
  { rewrite (round64_comp (-1 / res) (- (1 / res))) by (field; lra).
    now apply round64_opp. }
  destruct (Hhigh (- y) Hy' ltac:(lra) ltac:(lra)) as (Eq & Hw2).
  apply (ratio_tolerance (2 * c) (pow10 y) (pow10 (- y)) p q l u);
    try assumption; try lra.
  now apply pow10_above.
Qed.


(** X12. [calc_bin_boundaries] on doubles: when the call returns, the mean
    diameter is the arithmetic mean of the two boundaries within two
    roundings (positive mean diameter below 2^1023, positive resolution,
    lower boundary in the normal range, the power at the negated exponent
    the inverse of the power at the exponent). *)
Theorem calc_bin_boundaries_centre (bin_mean_diameter channel_resolution l u y : Q) :
  0 < bin_mean_diameter -> is_double bin_mean_diameter ->
  2 * bin_mean_diameter < 2 ^ 1024 ->
  0 < channel_resolution -> is_double channel_resolution ->
  calc_bin_boundaries pow10 (Finite bin_mean_diameter) (Finite channel_resolution)
  = Returns (Finite l, Finite u) ->
  round64 (1 / channel_resolution) = Finite y ->
  2 ^ (-1022) < l ->
  pow10 (- y) * pow10 y == 1 ->
  within_roundings 2 (l + u) (2 * bin_mean_diameter).
Proof.
  intros Hc Hdc Hfin Hr Hdr Hcall Hy Hnorm Hinv.
  destruct (calc_bin_boundaries_positive_resolution _ _ Hc Hdc Hfin Hr Hdr)
    as [[Hraise _]|(l' & u' & Hret & _ & _ & _ & _ & Htol)].
  - congruence.
  - rewrite Hcall in Hret. injection Hret as <- <-.
    exact (proj2 (Htol y Hy Hnorm Hinv)).
Qed.

(** X14. [calc_bin_boundaries] does not refuse a negative channel
    resolution: on doubles, at a positive mean diameter below 2^1023, the
    call raises OverflowError exactly when the second power,
    [10**(-1 / channel_resolution)], overflows, and otherwise returns
    inverted boundaries, [0 <= upper <= bin_mean_diameter <= lower]. *)
Theorem calc_bin_boundaries_negative_resolution (bin_mean_diameter channel_resolution : Q) :
  0 < bin_mean_diameter -> is_double bin_mean_diameter ->
  2 * bin_mean_diameter < 2 ^ 1024 ->
  channel_resolution < 0 ->
  match calc_bin_boundaries pow10 (Finite bin_mean_diameter) (Finite channel_resolution) with
  | Raises e =>
      e = OverflowError
      /\ float_pow10 pow10 (round64 (-1 / channel_resolution)) = Raises OverflowError
  | Returns (bin_lower_boundary, bin_upper_boundary) =>
      exists l u,
        bin_lower_boundary = Finite l /\ bin_upper_boundary = Finite u
        /\ 0 <= u /\ u <= bin_mean_diameter
        /\ bin_mean_diameter <= l /\ l <= 2 * bin_mean_diameter
  end.
Proof.
  intros Hc Hdc Hfin Hr.
  assert (Hpos : 0 < 1 / - channel_resolution) by (apply Qlt_shift_div_l; lra).
  assert (Hz : 1 / channel_resolution < 0).
  { assert (E : 1 / channel_resolution == - (1 / - channel_resolution)) by (field; lra).
    lra. }
  assert (Hz' : 0 < -1 / channel_resolution).
  { assert (E : -1 / channel_resolution == 1 / - channel_resolution) by (field; lra).
    lra. }
  unfold calc_bin_boundaries. cbn [float_truediv].
  rewrite (Qeq_bool_false channel_resolution) by lra. cbn [mbind outcome_bind].
  destruct (high_side bin_mean_diameter (1 / channel_resolution) Hc Hdc Hfin Hz)
    as (q & l & HQ & HL & Hlc & Hl2 & _).
  rewrite HQ. cbn [mbind outcome_bind]. rewrite HL. cbn [mbind outcome_bind].
  destruct (low_side bin_mean_diameter (-1 / channel_resolution) Hc Hdc Hfin Hz')
    as [Hraise|(P & u & HP & HU & Hu0 & Huc & _)].
  - rewrite Hraise. now split.
  - rewrite HP. cbn [mbind outcome_bind]. rewrite HU. cbn [mbind outcome_bind].
    exists l, u. now repeat split.
Qed.

End PowerFacts.



(** The piecewise-linear power is within the bounds the boundary theorems
    ask of the power. *)

Lemma pow10_pl_above (y : Q) : 0 < y -> 1 <= pow10_pl y.
Proof.
  intros Hy. apply pow10_pl_increasing in Hy.
  assert (E : pow10_pl 0 == 1) by reflexivity. lra.
Qed.

Lemma pow10_pl_below (y : Q) : y < 0 -> 0 <= pow10_pl y /\ pow10_pl y <= 1.
Proof.
  intros Hy. split.
  - unfold pow10_pl. pose proof (Qfloor_le y) as Hf.
    apply Qmult_le_0_compat; [|lra].
    apply Qlt_le_weak, Qpower_0_lt. reflexivity.
  - apply pow10_pl_increasing in Hy.
    assert (E : pow10_pl 0 == 1) by reflexivity. lra.
Qed.



Lemma calc_bin_boundaries_centre_witness :
  exists l u,
    calc_bin_boundaries pow10_pl (Finite 100) (Finite 1)
    = Returns (Finite l, Finite u)
    /\ within_roundings 2 (l + u) (2 * 100).
Proof.
  eexists. eexists. split; [vm_compute; reflexivity|].
  apply (calc_bin_boundaries_centre pow10_pl pow10_pl_above
           pow10_pl_below 100 1 _ _ 1); vm_compute; reflexivity.
Defined.

Lemma calc_bin_boundaries_negative_resolution_witness :
  match calc_bin_boundaries pow10_pl (Finite 100)
          (Finite (-1)) with
  | Raises e =>
      e = OverflowError
      /\ float_pow10 pow10_pl (round64 (-1 / -1))
         = Raises OverflowError
  | Returns (bin_lower_boundary, bin_upper_boundary) =>
      exists l u,
        bin_lower_boundary = Finite l /\ bin_upper_boundary = Finite u
        /\ 0 <= u /\ u <= 100 /\ 100 <= l /\ l <= 2 * 100
  end.
Proof.
  apply (calc_bin_boundaries_negative_resolution pow10_pl pow10_pl_above
           pow10_pl_below 100 (-1)); vm_compute; reflexivity.
Defined.

End BoundariesFacts.

(** ** The claims on concrete distributions *)

Lemma merge_bin_single_containment_witness :
  (exists sd r',
     merge_bin [(1%nat, target_50_150)] [fine_80_120; target_50_150] fine_80_120 = Ok sd
     /\ sd !! 1%nat = Some r'
     /\ dn r' = Some (100 * ((150 - 50) - (120 - 80)) / (150 - 50)
                      + (100 * ((120 - 80) / (150 - 50)) + 40) / 2)
     /\ dpes_lower r' = 50
     /\ dpes_upper r' = 150
     /\ dpes r' = 100
     /\ flag r' = merged
     /\ forall j, j <> 1%nat -> sd !! j = [fine_80_120; target_50_150] !! j)
  /\ 100 * ((150 - 50) - (120 - 80)) / (150 - 50)
     + (100 * ((120 - 80) / (150 - 50)) + 40) / 2 == 100.
Proof.
  split; [|reflexivity].
  apply (merge_bin_single_containment [(1%nat, target_50_150)]
           [fine_80_120; target_50_150] fine_80_120 target_50_150 1 50 150 100 40);
    try reflexivity; cbn; try lia; try lra.
Defined.

(** The scenario through the whole combination: one merged row is left,
    with count 100. *)
Lemma single_containment_scenario (log10 pow10 : Q -> Q) :
  exists out,
    combine_SMPS_APS_sd log10 pow10 [target_50_150] [fine_80_120] true true = Ok out
    /\ map flag out = [merged]
    /\ map dpes_lower out = [50] /\ map dpes_upper out = [150]
    /\ Forall2 feq (map dn out) [Some 100].
Proof.
  eexists. split; [vm_compute; reflexivity|].
  cbn. repeat split; try reflexivity.
  constructor; [reflexivity|constructor].
Qed.

(** C1 fails as stated.  Fine bin [80,120] with count 60 in target bin
    [50,150] with count 100: the overlap branch leaves one merged row with
    count 110, while the two bins, both within [50,150], held 160 before,
    and the target bin alone 100. *)
Lemma overlap_merge_changes_count :
  exists out,
    merge_overlap_branch [fine_80_120_60; target_50_150] = Ok out
    /\ map flag out = [merged]
    /\ feq (fsum (map dn out)) (Some 110)
    /\ feq (fsum (map dn [fine_80_120_60; target_50_150])) (Some 160)
    /\ ~ feq (fsum (map dn out)) (fsum (map dn [fine_80_120_60; target_50_150]))
    /\ ~ feq (fsum (map dn out)) (dn target_50_150).
Proof.
  eexists. split; [vm_compute; reflexivity|].
  repeat split; try reflexivity; intros H; vm_compute in H; discriminate.
Qed.

Lemma merge_bin_count_balance_witness :
  exists sd,
    merge_bin [(1%nat, target_50_150)] [fine_80_120_60; target_50_150] fine_80_120_60
    = Ok sd
    /\ feq (fsum (map (fun t => cell_dn sd t.1) [(1%nat, target_50_150)]))
         (fsum (map (fun t => dn t.2) [(1%nat, target_50_150)]) + dn fine_80_120_60
          - fl (1 # 2)
            * fsum (map (fun t =>
                           count_within t.2 (common_width fine_80_120_60 t.2)
                           + count_within fine_80_120_60
                               (common_width fine_80_120_60 t.2))
                      [(1%nat, target_50_150)]))%fl.
Proof.
  apply (merge_bin_count_balance [(1%nat, target_50_150)]
           [fine_80_120_60; target_50_150] fine_80_120_60 [(1%nat, target_50_150)] 60).
  - apply (geometry_embraced _ _ 50 150); try reflexivity; cbn; lra.
  - reflexivity.
  - reflexivity.
  - constructor; [|constructor].
    split; [eexists; reflexivity|]. split; [reflexivity|cbn; lia].
Defined.

(** The shapes that the merger does not handle pass in silence: an smps
    bin within the range of the aps bins that overlaps three of them or
    more, and an smps bin that starts on the lowest aps boundary or reaches
    the highest one, leave the frame as it is. *)
Lemma merge_bin_unhandled_shape_silent
    (aps_overlap : list IRow) (sd_combined : Frame) (smps_bin : Row) (lo hi : Q) :
  py_min (map (fun t => dpes_lower t.2) aps_overlap) = Ok lo ->
  py_max (map (fun t => dpes_upper t.2) aps_overlap) = Ok hi ->
  lo < dpes_lower smps_bin ->
  dpes_upper smps_bin < hi ->
  (2 < length (List.filter
                 (fun t => Qlt_bool (dpes_lower smps_bin) (dpes_upper t.2)
                           && Qlt_bool (dpes_lower t.2) (dpes_upper smps_bin))
                 aps_overlap))%nat ->
  merge_bin aps_overlap sd_combined smps_bin = Ok sd_combined.
Proof.
  intros Hlo Hhi Hlt1 Hlt2 Hlen. unfold merge_bin. rewrite Hlo. cbn.
  assert (Qlt_bool (dpes_lower smps_bin) lo = false) as ->
    by (apply Qlt_bool_false_iff; lra).
  rewrite Hhi. cbn.
  assert (Qlt_bool lo (dpes_lower smps_bin) = true) as -> by now apply Qlt_bool_iff.
  assert (Qlt_bool (dpes_upper smps_bin) hi = true) as -> by now apply Qlt_bool_iff.
  cbn. destruct (List.filter _ aps_overlap) as [|[n1 t1] [|[n2 t2] [|[n3 t3] rest]]];
    cbn in Hlen; try lia. reflexivity.
Qed.

Lemma merge_bin_outside_range_silent
    (aps_overlap : list IRow) (sd_combined : Frame) (smps_bin : Row) (lo hi : Q) :
  py_min (map (fun t => dpes_lower t.2) aps_overlap) = Ok lo ->
  py_max (map (fun t => dpes_upper t.2) aps_overlap) = Ok hi ->
  lo <= dpes_lower smps_bin ->
  dpes_lower smps_bin <= lo \/ hi <= dpes_upper smps_bin ->
  merge_bin aps_overlap sd_combined smps_bin = Ok sd_combined.
Proof.
  intros Hlo Hhi Hle Hout. unfold merge_bin. rewrite Hlo. cbn.
  assert (Qlt_bool (dpes_lower smps_bin) lo = false) as ->
    by now apply Qlt_bool_false_iff.
  rewrite Hhi. cbn.
  destruct Hout as [H|H].
  - assert (Qlt_bool lo (dpes_lower smps_bin) = false) as ->
      by now apply Qlt_bool_false_iff.
    reflexivity.
  - assert (Qlt_bool (dpes_upper smps_bin) hi = false) as ->
      by now apply Qlt_bool_false_iff.
    now rewrite andb_false_r.
Qed.

(** C2 on the code.  An smps bin that overlaps three aps bins: the
    combination raises nothing, the aps bins come back as they were and the
    smps bin, with its count of 1000, is gone. *)
Theorem fine_bin_over_three_targets_dropped (log10 pow10 : Q -> Q) :
  combine_SMPS_APS_sd log10 pow10 aps_50_250 [fine_90_160] true true = Ok aps_50_250.
Proof. reflexivity. Qed.

(** The left-edge branch does raise when the assertion of line 154 fails. *)
Lemma left_edge_over_two_targets_raises (log10 pow10 : Q -> Q) :
  combine_SMPS_APS_sd log10 pow10 aps_50_250
    [mkRow smps 75 40 110 (Some 1000) (Some 9)] true true
  = Raise AssertionError.
Proof. reflexivity. Qed.

(** C10 on two fine bins, [60,80] with count 1000 and then [80,120] with
    count 40, both within the target bin [50,150]. *)
Lemma merge_loop_last_fold_wins_witness :
  exists sd_final sd_alone,
    merge_loop [(2%nat, target_50_150)] [fine_60_80; fine_80_120; target_50_150]
      ([(0%nat, fine_60_80)] ++ (1%nat, fine_80_120) :: []) = Ok sd_final
    /\ merge_bin [(2%nat, target_50_150)] [fine_60_80; fine_80_120; target_50_150]
         fine_80_120 = Ok sd_alone
    /\ sd_final !! 2%nat = sd_alone !! 2%nat.
Proof.
  assert (E : exists sd_final,
             merge_loop [(2%nat, target_50_150)]
               [fine_60_80; fine_80_120; target_50_150]
               ([(0%nat, fine_60_80)] ++ (1%nat, fine_80_120) :: []) = Ok sd_final)
    by (eexists; vm_compute; reflexivity).
  destruct E as [sd_final E].
  destruct (merge_loop_last_fold_wins [(2%nat, target_50_150)]
              [fine_60_80; fine_80_120; target_50_150] sd_final
              [(0%nat, fine_60_80)] [] 1 fine_80_120 2 E) as (sd_alone & H1 & H2).
  - vm_compute. left.
  - constructor.
  - exists sd_final, sd_alone. auto.
Defined.

(** The same through the whole combination: with the bin [60,80] ahead of
    the bin [80,120] the result carries the counts that it carries without
    the bin [60,80]; the count 1000 leaves no trace. *)
Lemma two_folds_scenario (log10 pow10 : Q -> Q) :
  exists out out',
    combine_SMPS_APS_sd log10 pow10 [target_50_150] [fine_60_80; fine_80_120] true true
    = Ok out
    /\ combine_SMPS_APS_sd log10 pow10 [target_50_150] [fine_80_120] true true = Ok out'
    /\ map flag out = [merged]
    /\ map dn out = map dn out'.
Proof.
  eexists _, _. split; [vm_compute; reflexivity|].
  split; [vm_compute; reflexivity|]. split; reflexivity.
Qed.

(** C4 fails as stated.  Between the averaged edge densities 2 at diameter
    1 and 6 at diameter 100, the interpolated row at diameter 10 gets the
    density 26/11, on the line over the diameter; on the line over
    [log10] of the diameter it would get 4. *)
Lemma interpolation_not_linear_in_log10 :
  exists sd,
    interpolate_dndlogd_gap gapped_1_100 3 = Ok sd
    /\ edge_bins gapped_1_100 = Ok (1%nat, 3%nat)
    /\ feq (edge_bin_min_dndlogd_avg gapped_1_100 1 3) (Some 2)
    /\ feq (edge_bin_max_dndlogd_avg gapped_1_100 3 3) (Some 6)
    /\ feq (cell_dndlogd sd 2) (Some (26 # 11))
    /\ np_interp (log10_pl 1) 2 (log10_pl 100) 6 (log10_pl 10) == 4
    /\ ~ feq (cell_dndlogd sd 2)
           (Some (np_interp (log10_pl 1) 2 (log10_pl 100) 6 (log10_pl 10))).
Proof.
  eexists. split; [vm_compute; reflexivity|].
  repeat split; try reflexivity. intros H. vm_compute in H. discriminate.
Qed.

Lemma interpolate_dndlogd_gap_linear_in_dpes_witness :
  exists sd,
    interpolate_dndlogd_gap gapped_1_100 3 = Ok sd
    /\ forall k r, (1 < k < 3)%nat -> gapped_1_100 !! k = Some r ->
         sd !! k
         = Some (set_dndlogd
                   (Some (np_interp (dpes (mkRow smps 1 (1 # 4) 4 (Some 3) (Some 3)))
                            (1 + 3 # 2)
                            (dpes (mkRow aps 100 16 625 (Some 5) (Some 5)))
                            (5 + 7 # 2) (dpes r))) r).
Proof.
  apply (interpolate_dndlogd_gap_linear_in_dpes gapped_1_100 3 1 3); try reflexivity.
  - lia.
  - intros k r Hk. assert (k = 2%nat) as -> by lia. now intros [= <-].
Defined.

(** C5 on the code.  Five bins on either side of a gap and
    [edge_average_window = 3]: the gap-fill branch inserts two bins, and in
    the sorted frame each of the two label slices holds four rows.  The
    averaged edge densities are 35 and 75, the means of four densities,
    where the means of three are 40 and 70; the two interpolated bins get
    their densities on the line from 35 to 75. *)
Theorem edge_average_over_four_rows :
  (exists lower upper,
     get_bin_boundaries_in_interval log10_pl pow10_pl 100000 10000000
       (get_interpol_resolution log10_pl smps_five aps_five) = Ok (lower, upper)
     /\ Forall2 Qeq lower [100000; 1000000]
     /\ Forall2 Qeq upper [1000000; 10000000])
  /\ edge_bins gapped_five = Ok (4%nat, 7%nat)
  /\ map dndlogd (loc_slice (4 - 3) 4 gapped_five)
     = [Some 20; Some 30; Some 40; Some 50]
  /\ map dndlogd (loc_slice 7 (7 + 3) gapped_five)
     = [Some 60; Some 70; Some 80; Some 90]
  /\ feq (edge_bin_min_dndlogd_avg gapped_five 4 3) (Some 35)
  /\ feq (edge_bin_max_dndlogd_avg gapped_five 7 3) (Some 75)
  /\ feq (mean [Some 30; Some 40; Some 50]) (Some 40)
  /\ feq (mean [Some 60; Some 70; Some 80]) (Some 70)
  /\ exists out,
       combine_SMPS_APS_sd log10_pl pow10_pl aps_five smps_five true true = Ok out
       /\ map flag out = map flag gapped_five
       /\ Forall2 Qeq (map dpes out) (map dpes gapped_five)
       /\ feq (cell_dndlogd out 5) (Some (np_interp 55000 35 55000000 75 550000))
       /\ feq (cell_dndlogd out 6) (Some (np_interp 55000 35 55000000 75 5500000)).
Proof.
  split.
  { eexists _, _. split; [vm_compute; reflexivity|].
    split; repeat (constructor; [reflexivity|]); constructor. }
  repeat split; try reflexivity.
  eexists. split; [vm_compute; reflexivity|].
  repeat split; try reflexivity.
  cbn. repeat (constructor; [reflexivity|]). constructor.
Qed.

(** The label slices of lines 98-99 hold [edge_average_window + 1] rows
    whenever the frame has them. *)
Lemma edge_slices_length (sd : Frame) (edge_average_window idx : nat) :
  (edge_average_window <= idx)%nat ->
  (idx + edge_average_window < length sd)%nat ->
  length (loc_slice (idx - edge_average_window) idx sd) = S edge_average_window
  /\ length (loc_slice idx (idx + edge_average_window) sd) = S edge_average_window.
Proof.
  intros H1 H2. rewrite !loc_slice_length by lia. lia.
Qed.

(** C6 fails as stated.  The first smps row enters with count 5 and
    density 0 and leaves the gap-fill branch with count 0: its count was
    recomputed, as that of every row. *)
Lemma gap_fill_recomputes_instrument_counts :
  exists out,
    combine_SMPS_APS_sd log10_pl pow10_pl aps_decades smps_decades true true = Ok out
    /\ map flag out = [smps; smps; interpolated; interpolated; aps; aps]
    /\ Forall2 feq (map dn out)
         [Some 0; Some 6; Some (3369 # 2222); Some (3699 # 2222); Some 8; Some 10]
    /\ map dn smps_decades = [Some 5; Some 6]
    /\ ~ feq (from_option dn None (out !! 0%nat))
           (from_option dn None (smps_decades !! 0%nat)).
Proof.
  eexists. split; [vm_compute; reflexivity|].
  repeat split; try reflexivity.
  - repeat constructor; reflexivity.
  - intros H. vm_compute in H. discriminate.
Qed.

Lemma combine_gap_fill_frame_witness :
  exists out interpolated_bins sorted_rows filled,
    combine_SMPS_APS_sd log10_pl pow10_pl aps_decades smps_decades true true = Ok out
    /\ Forall (fun r => flag r = interpolated /\ dndlogd r = None) interpolated_bins
    /\ Permutation
         (map (set_flag smps) smps_decades ++ map (set_flag aps) aps_decades
          ++ interpolated_bins)
         sorted_rows
    /\ interpolate_dndlogd_gap sorted_rows 3 = Ok filled
    /\ length out = length sorted_rows
    /\ forall k r, sorted_rows !! k = Some r ->
         exists m r',
           filled !! k = Some m /\ out !! k = Some r' /\ gap_filled log10_pl r m r'.
Proof.
  assert (E : exists out,
             combine_SMPS_APS_sd log10_pl pow10_pl aps_decades smps_decades true true
             = Ok out)
    by (eexists; vm_compute; reflexivity).
  destruct E as [out E]. exists out.
  destruct (combine_gap_fill_frame log10_pl pow10_pl aps_decades smps_decades true out
              10000 1000000 E) as (bins & rows & filled & H1 & H2 & H3 & H4 & H5);
    [reflexivity..|].
  exists bins, rows, filled. auto 6.
Defined.

(** C8 fails as stated.  An empty aps distribution: the combination raises
    [ValueError] and does not return the smps distribution. *)
Lemma combine_with_empty_raises :
  combine_SMPS_APS_sd log10_pl pow10_pl [] [fine_80_120] true true = Raise ValueError
  /\ combine_SMPS_APS_sd log10_pl pow10_pl [] [fine_80_120] true true
     <> Ok [fine_80_120].
Proof. split; [reflexivity|discriminate]. Qed.

(** C9 fails as stated.  With [merge_overlap] off, two overlapping
    distributions come back concatenated, smps rows first: the centres
    2, 4, 3, 6 are not in ascending order.  With [merge_overlap] on, two
    smps rows that share their centre both stay in the result. *)
Lemma combine_result_not_strictly_ascending :
  (exists out,
     combine_SMPS_APS_sd log10_pl pow10_pl aps_2_8 smps_1_5 false false = Ok out
     /\ map dpes out = [2; 4; 3; 6]
     /\ ~ Sorted Qle (map dpes out))
  /\ (exists out,
        combine_SMPS_APS_sd log10_pl pow10_pl [target_50_150] smps_twice true true
        = Ok out
        /\ map dpes out = [1; 1; 190 # 2]
        /\ ~ Sorted Qlt (map dpes out)).
Proof.
  split.
  - eexists. split; [vm_compute; reflexivity|]. split; [reflexivity|].
    intros H. cbn in H. inversion H as [|? ? H1 _]; subst.
    inversion H1 as [|? ? _ H2]; subst. inversion H2 as [|? ? Hle]; subst.
    vm_compute in Hle. now apply Hle.
  - eexists. split; [vm_compute; reflexivity|]. split; [reflexivity|].
    intros H. cbn in H. inversion H as [|? ? _ H1]; subst.
    inversion H1 as [|? ? Hlt]; subst. vm_compute in Hlt. discriminate.
Qed.

Lemma combine_sorted_after_branch_witness :
  (exists out,
     combine_SMPS_APS_sd log10_pl pow10_pl aps_2_8 smps_1_5 true true = Ok out
     /\ Sorted Qle (map dpes out)
     /\ Sorted Qlt (map dpes out))
  /\ (exists out,
        combine_SMPS_APS_sd log10_pl pow10_pl aps_decades smps_decades true true = Ok out
        /\ Sorted Qle (map dpes out)
        /\ Sorted Qlt (map dpes out)).
Proof.
  split.
  - assert (E : exists out,
               combine_SMPS_APS_sd log10_pl pow10_pl aps_2_8 smps_1_5 true true = Ok out)
      by (eexists; vm_compute; reflexivity).
    destruct E as [out E]. exists out. split; [exact E|].
    destruct (combine_sorted_after_branch log10_pl pow10_pl aps_2_8 smps_1_5 true true out
                5 2 E) as (Hle & Hlt & _); [reflexivity..|].
    split.
    + apply Hle. left. split; reflexivity.
    + apply Hlt; [reflexivity|reflexivity| |].
      * split; repeat constructor; unfold precedes; cbn; lra.
      * split; repeat constructor; unfold precedes; cbn; lra.
  - assert (E : exists out,
               combine_SMPS_APS_sd log10_pl pow10_pl aps_decades smps_decades true true
               = Ok out)
      by (eexists; vm_compute; reflexivity).
    destruct E as [out E]. exists out. split; [exact E|].
    destruct (combine_sorted_after_branch log10_pl pow10_pl aps_decades smps_decades
                true true out 10000 1000000 E) as (Hle & _ & Hlt & _); [reflexivity..|].
    split.
    + apply Hle. right. split; reflexivity.
    + apply Hlt; [reflexivity|reflexivity| | | | |].
      * split; repeat constructor; unfold precedes; cbn; lra.
      * split; repeat constructor; unfold precedes; cbn; lra.
      * apply pow10_pl_increasing.
      * reflexivity.
      * reflexivity.
Defined.

(** * Further properties *)

(** ** The merge pass at the left edge and across a common boundary *)

(** X1.  An smps bin that starts below all the overlapping aps bins and
    reaches into exactly one of them, [aps_bin], is merged into the row of
    that bin (lines 152-171): the row gets the lower boundary of the smps
    bin, keeps the upper boundary of the aps bin, is centred between the
    two and flagged [merged]; its count is the part of the smps count
    below the aps bin, the part of the aps count above the smps bin, and
    half of what each of the two places in the width they share.  No other
    row changes. *)
Theorem merge_bin_left_edge
    (aps_overlap : list IRow) (sd_combined : Frame) (smps_bin aps_bin : Row)
    (name : nat) (lo ct cf : Q) :
  py_min (map (fun t => dpes_lower t.2) aps_overlap) = Ok lo ->
  dpes_lower smps_bin < lo ->
  List.filter (fun t => Qlt_bool (dpes_lower t.2) (dpes_upper smps_bin)) aps_overlap
    = [(name, aps_bin)] ->
  dn aps_bin = Some ct ->
  dn smps_bin = Some cf ->
  ~ width aps_bin == 0 ->
  ~ width smps_bin == 0 ->
  (name < length sd_combined)%nat ->
  exists sd r',
    merge_bin aps_overlap sd_combined smps_bin = Ok sd
    /\ sd !! name = Some r'
    /\ dn r' = Some (cf * ((dpes_lower aps_bin - dpes_lower smps_bin) / width smps_bin)
                     + ct * ((dpes_upper aps_bin - dpes_upper smps_bin) / width aps_bin)
                     + ((1 # 2) * cf * (dpes_upper smps_bin - dpes_lower aps_bin)
                          / width smps_bin
                        + (1 # 2) * ct * (dpes_upper smps_bin - dpes_lower aps_bin)
                          / width aps_bin))
    /\ dpes_lower r' = dpes_lower smps_bin
    /\ dpes_upper r' = dpes_upper aps_bin
    /\ dpes r' = (dpes_lower smps_bin + dpes_upper aps_bin) / 2
    /\ flag r' = merged
    /\ forall j, j <> name -> sd !! j = sd_combined !! j.
Proof.
  intros Hlo Hlt Hsel Ht Hf Hwt Hwf Hname.
  destruct (lookup_lt_is_Some_2 sd_combined name Hname) as [r Hr].
  exists (loc_update name (merge_left_edge smps_bin aps_bin) sd_combined),
         (merge_left_edge smps_bin aps_bin r).
  split.
  { unfold merge_bin. rewrite Hlo. cbn.
    assert (Qlt_bool (dpes_lower smps_bin) lo = true) as -> by now apply Qlt_bool_iff.
    rewrite Hsel. reflexivity. }
  split.
  { unfold loc_update. rewrite list_lookup_alter_eq, Hr. reflexivity. }
  split; [now apply merge_left_edge_dn|].
  repeat split; try reflexivity.
  intros j Hj. unfold loc_update. now rewrite list_lookup_alter_ne.
Qed.

Lemma merge_bin_left_edge_witness :
  exists sd r',
    merge_bin [(1%nat, target_50_150)]
      [mkRow smps 50 40 60 (Some 20) (Some 1); target_50_150]
      (mkRow smps 50 40 60 (Some 20) (Some 1)) = Ok sd
    /\ sd !! 1%nat = Some r'
    /\ dn r' = Some (20 * ((50 - 40) / (60 - 40))
                     + 100 * ((150 - 60) / (150 - 50))
                     + ((1 # 2) * 20 * (60 - 50) / (60 - 40)
                        + (1 # 2) * 100 * (60 - 50) / (150 - 50)))
    /\ dpes_lower r' = 40
    /\ dpes_upper r' = 150
    /\ dpes r' = (40 + 150) / 2
    /\ flag r' = merged
    /\ forall j, j <> 1%nat ->
         sd !! j = [mkRow smps 50 40 60 (Some 20) (Some 1); target_50_150] !! j.
Proof.
  apply (merge_bin_left_edge [(1%nat, target_50_150)]
           [mkRow smps 50 40 60 (Some 20) (Some 1); target_50_150]
           (mkRow smps 50 40 60 (Some 20) (Some 1)) target_50_150 1 50 100 20);
    try reflexivity; cbn; try lia; try lra; intros H; vm_compute in H; discriminate.
Defined.

(** X2.  An smps bin within the range of the overlapping aps bins that
    meets exactly two of them is merged into both (lines 195-226): each of
    the two rows keeps the boundaries and the centre of its aps bin, is
    flagged [merged], and gets as count the part of the aps count outside
    the smps bin plus the mean of what the aps bin and the smps bin place
    in the width they share.  No other row changes. *)
Theorem merge_bin_common_boundary
    (aps_overlap : list IRow) (sd_combined : Frame) (smps_bin aps_bin1 aps_bin2 : Row)
    (name1 name2 : nat) (lo hi ct1 ct2 cf : Q) :
  py_min (map (fun t => dpes_lower t.2) aps_overlap) = Ok lo ->
  py_max (map (fun t => dpes_upper t.2) aps_overlap) = Ok hi ->
  lo < dpes_lower smps_bin ->
  dpes_upper smps_bin < hi ->
  List.filter (fun t => Qlt_bool (dpes_lower smps_bin) (dpes_upper t.2)
                        && Qlt_bool (dpes_lower t.2) (dpes_upper smps_bin))
    aps_overlap = [(name1, aps_bin1); (name2, aps_bin2)] ->
  name1 <> name2 ->
  dn aps_bin1 = Some ct1 ->
  dn aps_bin2 = Some ct2 ->
  dn smps_bin = Some cf ->
  ~ width aps_bin1 == 0 ->
  ~ width aps_bin2 == 0 ->
  ~ width smps_bin == 0 ->
  (name1 < length sd_combined)%nat ->
  (name2 < length sd_combined)%nat ->
  exists sd r1 r2,
    merge_bin aps_overlap sd_combined smps_bin = Ok sd
    /\ sd !! name1 = Some r1
    /\ sd !! name2 = Some r2
    /\ dn r1 = Some (ct1 * ((dpes_lower smps_bin - dpes_lower aps_bin1) / width aps_bin1)
                     + (ct1 * ((dpes_upper aps_bin1 - dpes_lower smps_bin) / width aps_bin1)
                        + cf * ((dpes_upper aps_bin1 - dpes_lower smps_bin)
                                / width smps_bin)) / 2)
    /\ dn r2 = Some (ct2 * ((dpes_upper aps_bin2 - dpes_upper smps_bin) / width aps_bin2)
                     + (ct2 * ((dpes_upper smps_bin - dpes_lower aps_bin2) / width aps_bin2)
                        + cf * ((dpes_upper smps_bin - dpes_lower aps_bin2)
                                / width smps_bin)) / 2)
    /\ (dpes_lower r1, dpes r1, dpes_upper r1)
       = (dpes_lower aps_bin1, dpes aps_bin1, dpes_upper aps_bin1)
    /\ (dpes_lower r2, dpes r2, dpes_upper r2)
       = (dpes_lower aps_bin2, dpes aps_bin2, dpes_upper aps_bin2)
    /\ flag r1 = merged
    /\ flag r2 = merged
    /\ forall j, j <> name1 -> j <> name2 -> sd !! j = sd_combined !! j.
Proof.
  intros Hlo Hhi Hlt1 Hlt2 Hsel Hne Ht1 Ht2 Hf Hw1 Hw2 Hwf Hn1 Hn2.
  destruct (lookup_lt_is_Some_2 sd_combined name1 Hn1) as [r1 Hr1].
  destruct (lookup_lt_is_Some_2 sd_combined name2 Hn2) as [r2 Hr2].
  eexists _, _, _. split.
  { unfold merge_bin. rewrite Hlo. cbn.
    assert (Qlt_bool (dpes_lower smps_bin) lo = false) as ->
      by (apply Qlt_bool_false_iff; lra).
    rewrite Hhi. cbn.
    assert (Qlt_bool lo (dpes_lower smps_bin) = true) as -> by now apply Qlt_bool_iff.
    assert (Qlt_bool (dpes_upper smps_bin) hi = true) as -> by now apply Qlt_bool_iff.
    cbn. rewrite Hsel. reflexivity. }
  unfold loc_update.
  split.
  { rewrite list_lookup_alter_ne, list_lookup_alter_eq, Hr1 by congruence. reflexivity. }
  split.
  { rewrite list_lookup_alter_eq, list_lookup_alter_ne, Hr2 by congruence. reflexivity. }
  split; [now apply merge_boundary_dn|].
  split; [now apply merge_boundary_dn|].
  repeat split; try reflexivity.
  intros j Hj1 Hj2. now rewrite !list_lookup_alter_ne by congruence.
Qed.

Lemma merge_bin_common_boundary_witness :
  exists sd r1 r2,
    merge_bin (indexed aps_50_250) aps_50_250
      (mkRow smps 100 90 110 (Some 20) (Some 1)) = Ok sd
    /\ sd !! 0%nat = Some r1
    /\ sd !! 1%nat = Some r2
    /\ dn r1 = Some (10 * ((90 - 50) / (100 - 50))
                     + (10 * ((100 - 90) / (100 - 50))
                        + 20 * ((100 - 90) / (110 - 90))) / 2)
    /\ dn r2 = Some (20 * ((150 - 110) / (150 - 100))
                     + (20 * ((110 - 100) / (150 - 100))
                        + 20 * ((110 - 100) / (110 - 90))) / 2)
    /\ (dpes_lower r1, dpes r1, dpes_upper r1) = (50, 75, 100)
    /\ (dpes_lower r2, dpes r2, dpes_upper r2) = (100, 125, 150)
    /\ flag r1 = merged
    /\ flag r2 = merged
    /\ forall j, j <> 0%nat -> j <> 1%nat -> sd !! j = aps_50_250 !! j.
Proof.
  apply (merge_bin_common_boundary (indexed aps_50_250) aps_50_250
           (mkRow smps 100 90 110 (Some 20) (Some 1))
           (mkRow aps 75 50 100 (Some 10) (Some 1))
           (mkRow aps 125 100 150 (Some 20) (Some 2)) 0 1 50 250 10 20 20);
    try reflexivity; cbn; try lia; try lra; intros H; vm_compute in H; discriminate.
Defined.

(** ** When a merge pass fails, and when it does nothing *)

(** X3.  The failures of a pass.  A pass raises [AssertionError] exactly
    when the smps bin starts below all the overlapping aps bins and the
    aps bins it reaches into are not exactly one (line 154); it raises
    [ValueError] exactly when there is no overlapping aps bin, from the
    [min] of line 152; it raises nothing else. *)
Theorem merge_bin_raises (aps_overlap : list IRow) (sd_combined : Frame) (smps_bin : Row) :
  (merge_bin aps_overlap sd_combined smps_bin = Raise AssertionError
   <-> exists lo,
         py_min (map (fun t => dpes_lower t.2) aps_overlap) = Ok lo
         /\ dpes_lower smps_bin < lo
         /\ length (List.filter
                      (fun t => Qlt_bool (dpes_lower t.2) (dpes_upper smps_bin))
                      aps_overlap) <> 1%nat)
  /\ (merge_bin aps_overlap sd_combined smps_bin = Raise ValueError
      <-> aps_overlap = [])
  /\ merge_bin aps_overlap sd_combined smps_bin <> Raise IndexError.
Proof.
  unfold merge_bin.
  destruct aps_overlap as [|t0 rest] eqn:Haps.
  { cbn. repeat split; try discriminate; try reflexivity.
    intros (lo & Hlo & _). discriminate. }
  rewrite <- Haps.
  assert (Hmin : exists lo, py_min (map (fun t => dpes_lower t.2) aps_overlap) = Ok lo)
    by (subst; eexists; reflexivity).
  assert (Hmax : exists hi, py_max (map (fun t => dpes_upper t.2) aps_overlap) = Ok hi)
    by (subst; eexists; reflexivity).
  destruct Hmin as [lo Hlo], Hmax as [hi Hhi]. rewrite Hlo. cbn.
  destruct (Qlt_bool (dpes_lower smps_bin) lo) eqn:Hedge.
  - apply Qlt_bool_iff in Hedge.
    destruct (List.filter _ aps_overlap) as [|[name t] [|? ?]] eqn:Hsel; cbn.
    + repeat split; try discriminate; try (subst; discriminate).
      intros _. exists lo. repeat split; [assumption|lia].
    + repeat split; try discriminate; try (subst; discriminate).
      intros (lo' & _ & _ & Hlen). lia.
    + repeat split; try discriminate; try (subst; discriminate).
      intros _. exists lo. repeat split; [assumption|lia].
  - apply Qlt_bool_false_iff in Hedge. rewrite Hhi. cbn.
    assert (Hno : forall A (x : result A), (exists a, x = Ok a) ->
              (x = Raise AssertionError <-> False) /\ (x = Raise ValueError <-> False)
              /\ x <> Raise IndexError).
    { intros A x [a ->]. repeat split; try discriminate; contradiction. }
    match goal with |- (?x = _ <-> _) /\ _ =>
      assert (Hok : exists a, x = Ok a) end.
    { destruct (_ && _); [|eexists; reflexivity].
      destruct (List.filter _ aps_overlap) as [|[n1 t1] [|[n2 t2] [|? ?]]];
        eexists; reflexivity. }
    destruct (Hno _ _ Hok) as (H1 & H2 & H3).
    split; [|split; [|exact H3]].
    + rewrite H1. split; [contradiction|].
      intros (lo' & Hlo' & Hlt & _). injection Hlo' as <-. lra.
    + rewrite H2. split; [contradiction|]. subst. discriminate.
Qed.

(** X4.  The shapes that a pass does not handle.  When the smps bin does
    not start below the overlapping aps bins, and it starts on their lowest
    boundary, or reaches their highest boundary or beyond, or meets none of
    them, or meets three of them or more, the pass leaves the frame as it
    is and raises nothing. *)
Theorem merge_bin_silent
    (aps_overlap : list IRow) (sd_combined : Frame) (smps_bin : Row) (lo hi : Q) :
  py_min (map (fun t => dpes_lower t.2) aps_overlap) = Ok lo ->
  py_max (map (fun t => dpes_upper t.2) aps_overlap) = Ok hi ->
  lo <= dpes_lower smps_bin ->
  dpes_lower smps_bin <= lo
  \/ hi <= dpes_upper smps_bin
  \/ (length (List.filter
                (fun t => Qlt_bool (dpes_lower smps_bin) (dpes_upper t.2)
                          && Qlt_bool (dpes_lower t.2) (dpes_upper smps_bin))
                aps_overlap) = 0)%nat
  \/ (2 < length (List.filter
                    (fun t => Qlt_bool (dpes_lower smps_bin) (dpes_upper t.2)
                              && Qlt_bool (dpes_lower t.2) (dpes_upper smps_bin))
                    aps_overlap))%nat ->
  merge_bin aps_overlap sd_combined smps_bin = Ok sd_combined.
Proof.
  intros Hlo Hhi Hle Hshape. unfold merge_bin. rewrite Hlo. cbn.
  assert (Qlt_bool (dpes_lower smps_bin) lo = false) as ->
    by now apply Qlt_bool_false_iff.
  rewrite Hhi. cbn.
  destruct (Qlt_bool lo (dpes_lower smps_bin) && Qlt_bool (dpes_upper smps_bin) hi)
    eqn:Hin; [|reflexivity].
  apply andb_true_iff in Hin as [H1 H2]. apply Qlt_bool_iff in H1, H2.
  destruct Hshape as [H|[H|[H|H]]]; try lra;
    destruct (List.filter _ aps_overlap) as [|[n1 t1] [|[n2 t2] [|[n3 t3] rest]]];
    cbn in H; try lia; try discriminate; reflexivity.
Qed.

Lemma merge_bin_silent_witness :
  merge_bin (indexed aps_50_250) aps_50_250 fine_90_160 = Ok aps_50_250.
Proof.
  apply (merge_bin_silent (indexed aps_50_250) aps_50_250 fine_90_160 50 250);
    try reflexivity.
  - unfold fine_90_160. cbn. lra.
  - right. right. right. vm_compute. lia.
Defined.

(** ** The rows of the two instruments across the overlap branch *)

Lemma merge_writes_targets (aps_overlap : list IRow) (f : Row)
    (ws : list (nat * (Row -> Row))) :
  merge_writes aps_overlap f = Ok ws ->
  Forall (fun w => exists t, In (w.1, t) aps_overlap
                             /\ forall r, flag (w.2 r) = merged
                                          /\ dpes_upper (w.2 r) = dpes_upper t)
    ws.
Proof.
  unfold merge_writes.
  destruct (py_min _) as [lo|e]; cbn; [|discriminate].
  destruct (Qlt_bool (dpes_lower f) lo).
  - destruct (List.filter _ aps_overlap) as [|[name t] [|? ?]] eqn:Hsel; try discriminate.
    intros [= <-]. constructor; [|constructor]. exists t. cbn. split; [|now intros r].
    assert (Hin : In (name, t) (List.filter
               (fun t0 => Qlt_bool (dpes_lower t0.2) (dpes_upper f)) aps_overlap))
      by (rewrite Hsel; now left).
    now apply filter_In in Hin.
  - destruct (py_max _) as [hi|e]; cbn; [|discriminate].
    destruct (_ && _); [|intros [= <-]; constructor].
    destruct (List.filter _ aps_overlap) as [|[n1 t1] [|[n2 t2] [|? ?]]] eqn:Hsel;
      intros [= <-]; repeat constructor.
    + exists t1. cbn. split; [|now intros r].
      assert (Hin : In (n1, t1) (List.filter
                 (fun t0 => Qlt_bool (dpes_lower f) (dpes_upper t0.2)
                            && Qlt_bool (dpes_lower t0.2) (dpes_upper f)) aps_overlap))
        by (rewrite Hsel; now left).
      now apply filter_In in Hin.
    + exists t1. cbn. split; [|now intros r].
      assert (Hin : In (n1, t1) (List.filter
                 (fun t0 => Qlt_bool (dpes_lower f) (dpes_upper t0.2)
                            && Qlt_bool (dpes_lower t0.2) (dpes_upper f)) aps_overlap))
        by (rewrite Hsel; now left).
      now apply filter_In in Hin.
    + exists t2. cbn. split; [|now intros r].
      assert (Hin : In (n2, t2) (List.filter
                 (fun t0 => Qlt_bool (dpes_lower f) (dpes_upper t0.2)
                            && Qlt_bool (dpes_lower t0.2) (dpes_upper f)) aps_overlap))
        by (rewrite Hsel; right; now left).
      now apply filter_In in Hin.
Qed.

(** The row of an aps bin of the snapshot after the loop: the bin itself,
    or a row flagged [merged]; its upper boundary is that of the bin. *)
Lemma merge_loop_target (aps_overlap : list IRow) (fs : list IRow) (sd sd' : Frame)
    (n : nat) (t : Row) :
  NoDup (map fst aps_overlap) ->
  merge_loop aps_overlap sd fs = Ok sd' ->
  In (n, t) aps_overlap ->
  sd !! n = Some t ->
  exists r', sd' !! n = Some r'
             /\ dpes_upper r' = dpes_upper t
             /\ (r' = t \/ flag r' = merged).
Proof.
  intros Hnd Hloop Hin Ht.
  set (P := fun r' : Row => dpes_upper r' = dpes_upper t /\ (r' = t \/ flag r' = merged)).
  assert (Hgen : forall fs sd r,
            merge_loop aps_overlap sd fs = Ok sd' -> sd !! n = Some r -> P r ->
            exists r', sd' !! n = Some r' /\ P r').
  { clear Hloop Ht sd fs. induction fs as [|[i f] fs IH]; intros sd r Hloop Hr HP.
    { cbn in Hloop. injection Hloop as <-. exists r. now split. }
    cbn in Hloop. rewrite merge_bin_writes in Hloop.
    destruct (merge_writes aps_overlap f) as [ws|e] eqn:Hws; cbn in Hloop; [|discriminate].
    destruct (apply_writes_keeps P ws sd n r Hr HP) as (r1 & Hr1 & HP1).
    { eapply Forall_impl; [apply (merge_writes_targets _ _ _ Hws)|].
      intros [m u] (t' & Ht' & Hu) Hm r0. cbn in *. subst m.
      pose proof (NoDup_fst_eq _ _ _ _ Hnd Hin Ht') as Heq. subst t'.
      destruct (Hu r0) as [Hfl Hup]. split; [assumption|now right]. }
    now apply (IH (apply_writes ws sd) r1). }
  apply (Hgen fs sd t Hloop Ht). split; [reflexivity|now left].
Qed.

Lemma drop_labels_In (labels : list nat) (sd : Frame) (r : Row) :
  In r (drop_labels labels sd) <-> exists n, sd !! n = Some r /\ ~ In n labels.
Proof.
  unfold drop_labels. rewrite in_map_iff. split.
  - intros ([n r'] & <- & Hin). apply filter_In in Hin as [Hin Hk].
    apply indexed_In in Hin. exists n. split; [assumption|].
    cbn in Hk. apply negb_true_iff in Hk. intros Hn.
    apply not_true_iff_false in Hk. apply Hk. apply existsb_exists.
    exists n. split; [assumption|apply Nat.eqb_refl].
  - intros (n & Hn & Hk). exists (n, r). split; [reflexivity|].
    apply filter_In. split; [now apply indexed_In|].
    cbn. apply negb_true_iff. apply not_true_iff_false. intros Hex.
    apply existsb_exists in Hex as (m & Hm & Heq). apply Nat.eqb_eq in Heq.
    subst m. contradiction.
Qed.

Lemma In_lookup (sd : Frame) (r : Row) : In r sd <-> exists n, sd !! n = Some r.
Proof. rewrite <- list_elem_of_In. apply list_elem_of_lookup. Qed.

(** What the overlap branch makes of the rows of the two instruments. *)
Lemma merge_overlap_branch_rows (sd out : Frame) (aps_lo : Q) :
  merge_overlap_branch sd = Ok out ->
  py_min (map dpes_lower (List.filter (flag_is aps) sd)) = Ok aps_lo ->
  (forall r, flag r = smps -> (In r out <-> In r sd /\ dpes_upper r <= aps_lo))
  /\ (forall t, In t sd -> flag t = aps ->
        exists r', In r' out
                   /\ dpes_upper r' = dpes_upper t
                   /\ (r' = t \/ flag r' = merged)).
Proof.
  intros H Hlo0.
  apply merge_overlap_branch_steps in H as (aps_lo' & smps_hi & sd' & Hlo & Hhi & Hloop & ->).
  rewrite Hlo0 in Hlo. injection Hlo as <-.
  set (aps_overlap :=
         List.filter (fun ir : nat * Row =>
                        flag_is aps ir.2 && Qlt_bool (dpes_lower ir.2) smps_hi)
           (indexed sd)) in *.
  set (smps_overlap :=
         List.filter (fun ir : nat * Row =>
                        flag_is smps ir.2 && Qlt_bool aps_lo (dpes_upper ir.2))
           (indexed sd)) in *.
  assert (Hov : forall n t, In (n, t) aps_overlap <->
                  sd !! n = Some t /\ flag t = aps /\ dpes_lower t < smps_hi).
  { intros n t. subst aps_overlap. rewrite filter_In, indexed_In. cbn.
    rewrite andb_true_iff, Qlt_bool_iff. unfold flag_is.
    split; intros (H1 & H2 & H3); (split; [assumption|split; [|assumption]]).
    - now destruct (flag t).
    - now rewrite H2. }
  assert (Hsm : forall n, In n (map fst smps_overlap) <->
                  exists s, sd !! n = Some s /\ flag s = smps /\ aps_lo < dpes_upper s).
  { intros n. rewrite in_map_iff. split.
    - intros ([m s] & Hm & Hin). cbn in Hm. subst m. subst smps_overlap.
      apply filter_In in Hin as [Hin Hk]. apply indexed_In in Hin. cbn in Hk.
      apply andb_true_iff in Hk as [Hk1 Hk2]. apply Qlt_bool_iff in Hk2.
      exists s. split; [assumption|]. split; [|assumption].
      unfold flag_is in Hk1. now destruct (flag s).
    - intros (s & Hs & Hfl & Hlt). exists (n, s). split; [reflexivity|].
      subst smps_overlap. apply filter_In. split; [now apply indexed_In|]. cbn.
      apply andb_true_iff. split; [unfold flag_is; now rewrite Hfl|now apply Qlt_bool_iff]. }
  assert (Hnd : NoDup (map fst aps_overlap))
    by (apply NoDup_fst_filter, indexed_NoDup).
  assert (Hnames : forall n, In n (map fst aps_overlap) ->
                     exists t, In (n, t) aps_overlap).
  { intros n Hn. apply in_map_iff in Hn as ([m t] & Hm & Hin). cbn in Hm. subst m.
    now exists t. }
  assert (Hout : forall r, In r (sort_values_dpes (drop_labels (map fst smps_overlap) sd'))
                   <-> exists n, sd' !! n = Some r /\ ~ In n (map fst smps_overlap)).
  { intros r. rewrite <- drop_labels_In. unfold sort_values_dpes. split.
    - apply Permutation_in. apply Permutation_sym, RowSort.Permuted_sort.
    - apply Permutation_in. apply RowSort.Permuted_sort. }
  split.
  - intros r Hfl. rewrite Hout. split.
    + intros (n & Hn & Hk).
      assert (Hsd : sd !! n = Some r).
      { destruct (in_dec Nat.eq_dec n (map fst aps_overlap)) as [Hin|Hnin].
        - destruct (Hnames n Hin) as [t Ht]. pose proof Ht as Ht'.
          apply Hov in Ht' as (Hsdn & Hta & _).
          destruct (merge_loop_target _ _ _ _ n t Hnd Hloop Ht Hsdn)
            as (r' & Hr' & _ & [->|Hm]); rewrite Hn in Hr'; injection Hr' as <-;
            congruence.
        - now rewrite <- (merge_loop_outside _ _ _ _ n Hloop Hnin). }
      split; [apply In_lookup; now exists n|].
      apply Qnot_lt_le. intros Hlt. apply Hk. apply Hsm. now exists r.
    + intros [Hin Hle]. apply In_lookup in Hin as [n Hn]. exists n. split.
      * rewrite (merge_loop_outside _ _ _ _ n Hloop); [assumption|].
        intros Hin. destruct (Hnames n Hin) as [t Ht].
        apply Hov in Ht as (Hsdn & Hta & _). congruence.
      * intros Hin. apply Hsm in Hin as (s & Hs & _ & Hlt).
        rewrite Hn in Hs. injection Hs as <-. lra.
  - intros t Hin Hfl. apply In_lookup in Hin as [n Hn].
    assert (Hk : ~ In n (map fst smps_overlap)).
    { intros Hin. apply Hsm in Hin as (s & Hs & Hfs & _). congruence. }
    destruct (Qlt_le_dec (dpes_lower t) smps_hi) as [Hlt|Hge].
    + assert (Ht : In (n, t) aps_overlap) by now apply Hov.
      destruct (merge_loop_target _ _ _ _ n t Hnd Hloop Ht Hn) as (r' & Hr' & Hup & Hcase).
      exists r'. split; [apply Hout; now exists n|]. now split.
    + exists t. split; [|split; [reflexivity|now left]].
      apply Hout. exists n. split; [|assumption].
      rewrite (merge_loop_outside _ _ _ _ n Hloop); [assumption|].
      intros Hin. destruct (Hnames n Hin) as [t' Ht'].
      apply Hov in Ht' as (Hsdn & _ & Hlt). rewrite Hn in Hsdn. injection Hsdn as <-. lra.
Qed.

Lemma filter_tagged (f g : Flag) (sd : Frame) :
  List.filter (flag_is f) (map (set_flag g) sd)
  = if Flag_eqb g f then map (set_flag g) sd else [].
Proof.
  induction sd as [|r sd IH]; cbn; [now destruct (Flag_eqb g f)|].
  unfold flag_is at 1. cbn. rewrite IH. now destruct (Flag_eqb g f).
Qed.

Section CombineMore.

Variable log10 : Q -> Q.
Variable pow10 : Q -> Q.

Lemma combine_overlap_steps (sd_aps sd_smps : Frame) (interpolate_gap : bool)
    (out : Frame) (smps_hi aps_lo : Q) :
  combine_SMPS_APS_sd log10 pow10 sd_aps sd_smps true interpolate_gap = Ok out ->
  py_max (map dpes_upper sd_smps) = Ok smps_hi ->
  py_min (map dpes_lower sd_aps) = Ok aps_lo ->
  aps_lo < smps_hi ->
  exists sd,
    merge_overlap_branch (map (set_flag smps) sd_smps ++ map (set_flag aps) sd_aps) = Ok sd
    /\ out = recompute_modified log10 sd.
Proof.
  intros H Hhi Hlo Hov. unfold combine_SMPS_APS_sd in H.
  rewrite tagged_dpes_upper, tagged_dpes_lower, Hhi, Hlo in H. cbn in H.
  assert (Qlt_bool aps_lo smps_hi = true) as Ho by now apply Qlt_bool_iff.
  assert (Qlt_bool smps_hi aps_lo = false) as Hg by (apply Qlt_bool_false_iff; lra).
  rewrite Hg, Ho, andb_false_r in H. cbn in H.
  destruct (merge_overlap_branch _) as [sd|e] eqn:Hb; cbn in H; [|discriminate].
  injection H as <-. now exists sd.
Qed.

Lemma recompute_modified_In (sd : Frame) (r : Row) :
  flag r = smps \/ flag r = aps ->
  (In r (recompute_modified log10 sd) <-> In r sd).
Proof.
  intros Hfl. unfold recompute_modified. rewrite in_map_iff. split.
  - intros (r0 & <- & Hin). unfold flag_is in *.
    destruct (flag r0) eqn:E; cbn in *; rewrite ?E in *; cbn in *;
      try assumption; destruct Hfl; discriminate.
  - intros Hin. exists r. split; [|assumption].
    unfold flag_is. destruct Hfl as [-> | ->]; reflexivity.
Qed.

(** X5.  After the overlap branch the smps rows of the result are the smps
    bins whose upper boundary is not above the lowest aps boundary, as
    they came in (flag set): every smps bin that reaches above that
    boundary is dropped (lines 141, 230, 232), whether a pass merged it or
    not, and no other smps bin is dropped or changed. *)
Theorem combine_overlap_smps_rows (sd_aps sd_smps : Frame) (interpolate_gap : bool)
    (out : Frame) (smps_hi aps_lo : Q) :
  combine_SMPS_APS_sd log10 pow10 sd_aps sd_smps true interpolate_gap = Ok out ->
  py_max (map dpes_upper sd_smps) = Ok smps_hi ->
  py_min (map dpes_lower sd_aps) = Ok aps_lo ->
  aps_lo < smps_hi ->
  forall r,
    In r out /\ flag r = smps
    <-> exists s, In s sd_smps /\ r = set_flag smps s /\ dpes_upper s <= aps_lo.
Proof.
  intros H Hhi Hlo Hov r.
  destruct (combine_overlap_steps _ _ _ _ _ _ H Hhi Hlo Hov) as (sd & Hb & ->).
  assert (Hlo' : py_min (map dpes_lower
                           (List.filter (flag_is aps)
                              (map (set_flag smps) sd_smps ++ map (set_flag aps) sd_aps)))
                 = Ok aps_lo).
  { rewrite List.filter_app, !filter_tagged. cbn. now rewrite tagged_dpes_lower. }
  destruct (merge_overlap_branch_rows _ _ _ Hb Hlo') as [Hsmps _].
  split.
  - intros [Hin Hfl].
    apply (proj1 (recompute_modified_In _ _ (or_introl Hfl))) in Hin.
    apply (proj1 (Hsmps r Hfl)) in Hin as [Hin Hle].
    apply in_app_or in Hin as [Hin|Hin]; apply in_map_iff in Hin as (s & <- & Hin).
    + exists s. now repeat split.
    + discriminate.
  - intros (s & Hin & -> & Hle). split; [|reflexivity].
    apply (proj2 (recompute_modified_In _ (set_flag smps s) (or_introl eq_refl))).
    apply (proj2 (Hsmps (set_flag smps s) eq_refl)). split; [|assumption].
    apply in_or_app. left. now apply in_map.
Qed.

(** X6.  The overlap branch drops no aps bin: every aps bin has a row in
    the result with its upper boundary, which is the bin as it came in
    (flag set) or a row flagged [merged]. *)
Theorem combine_overlap_aps_bins (sd_aps sd_smps : Frame) (interpolate_gap : bool)
    (out : Frame) (smps_hi aps_lo : Q) :
  combine_SMPS_APS_sd log10 pow10 sd_aps sd_smps true interpolate_gap = Ok out ->
  py_max (map dpes_upper sd_smps) = Ok smps_hi ->
  py_min (map dpes_lower sd_aps) = Ok aps_lo ->
  aps_lo < smps_hi ->
  forall t, In t sd_aps ->
    exists r', In r' out
               /\ dpes_upper r' = dpes_upper t
               /\ (r' = set_flag aps t \/ flag r' = merged).
Proof.
  intros H Hhi Hlo Hov t Ht.
  destruct (combine_overlap_steps _ _ _ _ _ _ H Hhi Hlo Hov) as (sd & Hb & ->).
  assert (Hlo' : py_min (map dpes_lower
                           (List.filter (flag_is aps)
                              (map (set_flag smps) sd_smps ++ map (set_flag aps) sd_aps)))
                 = Ok aps_lo).
  { rewrite List.filter_app, !filter_tagged. cbn. now rewrite tagged_dpes_lower. }
  destruct (merge_overlap_branch_rows _ _ _ Hb Hlo') as [_ Haps].
  destruct (Haps (set_flag aps t)) as (r' & Hin & Hup & Hcase);
    [apply in_or_app; right; now apply in_map|reflexivity|].
  destruct Hcase as [->|Hm].
  - exists (set_flag aps t). split; [|split; [reflexivity|now left]].
    now apply (proj2 (recompute_modified_In _ (set_flag aps t) (or_intror eq_refl))).
  - exists (set_dndlogd (calc_dXdlogd_from_dX log10 (dn r') (dpes_lower r') (dpes_upper r')) r').
    split; [|split; [exact Hup|now right]].
    unfold recompute_modified. apply in_map_iff. exists r'. split; [|assumption].
    unfold flag_is. now rewrite Hm.
Qed.

End CombineMore.

Lemma combine_overlap_smps_rows_witness :
  exists out,
    combine_SMPS_APS_sd log10_pl pow10_pl [target_50_150] smps_twice true true = Ok out
    /\ forall r,
         In r out /\ flag r = smps
         <-> exists s, In s smps_twice /\ r = set_flag smps s /\ dpes_upper s <= 50.
Proof.
  assert (E : exists out,
             combine_SMPS_APS_sd log10_pl pow10_pl [target_50_150] smps_twice true true
             = Ok out)
    by (eexists; vm_compute; reflexivity).
  destruct E as [out E]. exists out. split; [exact E|].
  apply (combine_overlap_smps_rows log10_pl pow10_pl [target_50_150] smps_twice true out
           60 50 E); [reflexivity|reflexivity|lra].
Defined.

Lemma combine_overlap_aps_bins_witness :
  exists out,
    combine_SMPS_APS_sd log10_pl pow10_pl aps_2_8 smps_1_5 true true = Ok out
    /\ forall t, In t aps_2_8 ->
         exists r', In r' out
                    /\ dpes_upper r' = dpes_upper t
                    /\ (r' = set_flag aps t \/ flag r' = merged).
Proof.
  assert (E : exists out,
             combine_SMPS_APS_sd log10_pl pow10_pl aps_2_8 smps_1_5 true true = Ok out)
    by (eexists; vm_compute; reflexivity).
  destruct E as [out E]. exists out. split; [exact E|].
  apply (combine_overlap_aps_bins log10_pl pow10_pl aps_2_8 smps_1_5 true out 5 2 E);
    [reflexivity|reflexivity|lra].
Defined.

(** ** The gap interpolator: outcome and frame *)

(** X7.  The outcome of [interpolate_dndlogd_gap].  It returns a frame
    exactly when the smps row with the largest upper boundary stands before
    the aps row with the smallest lower boundary; it raises [IndexError]
    exactly when that smps row stands after that aps row, the slice of
    line 102 being empty; it raises [ValueError] exactly when the frame
    has no smps row or no aps row (lines 92-93). *)
Theorem interpolate_dndlogd_gap_outcome (sd_gapped : Frame) (edge_average_window : nat) :
  ((exists sd, interpolate_dndlogd_gap sd_gapped edge_average_window = Ok sd)
   <-> exists i j, edge_bins sd_gapped = Ok (i, j) /\ (i < j)%nat)
  /\ (interpolate_dndlogd_gap sd_gapped edge_average_window = Raise IndexError
      <-> exists i j, edge_bins sd_gapped = Ok (i, j) /\ (j < i)%nat)
  /\ (interpolate_dndlogd_gap sd_gapped edge_average_window = Raise ValueError
      <-> Forall (fun r => flag r <> smps) sd_gapped
          \/ Forall (fun r => flag r <> aps) sd_gapped).
Proof.
  assert (Hnone : forall f,
            List.filter (fun ir : IRow => flag_is f ir.2) (indexed sd_gapped) = []
            <-> Forall (fun r => flag r <> f) sd_gapped).
  { intros f. split.
    - intros Hnil. apply Forall_forall. intros r Hr Hfl.
      apply list_elem_of_In, In_lookup in Hr as [n Hn].
      assert (Hin : In (n, r) (List.filter (fun ir : IRow => flag_is f ir.2)
                                 (indexed sd_gapped))).
      { apply filter_In. split; [now apply indexed_In|].
        cbn. unfold flag_is. rewrite Hfl. now destruct f. }
      rewrite Hnil in Hin. contradiction.
    - intros Hall. rewrite Forall_forall in Hall.
      destruct (List.filter _ _) as [|[n r] rest] eqn:Hsel; [reflexivity|exfalso].
      assert (Hin : In (n, r) (List.filter (fun ir : IRow => flag_is f ir.2)
                                 (indexed sd_gapped)))
        by (rewrite Hsel; now left).
      apply filter_In in Hin as [Hin Hfl]. apply indexed_In in Hin.
      apply (Hall r); [eapply list_elem_of_lookup_2; eassumption|].
      cbn in Hfl. unfold flag_is in Hfl. destruct (flag r), f; (discriminate || reflexivity). }
  destruct (edge_bins sd_gapped) as [[i j]|e] eqn:He.
  - assert (Hsome : ~ (Forall (fun r => flag r <> smps) sd_gapped
                       \/ Forall (fun r => flag r <> aps) sd_gapped)).
    { destruct (edge_bins_rows _ _ _ He) as [(ri & Hri & Hfi) (rj & Hrj & Hfj)].
      intros [Hall|Hall]; rewrite Forall_forall in Hall.
      - apply (Hall ri); [eapply list_elem_of_lookup_2; eassumption|assumption].
      - apply (Hall rj); [eapply list_elem_of_lookup_2; eassumption|assumption]. }
    destruct (interpolate_dndlogd_gap sd_gapped edge_average_window) as [sd|e] eqn:Hrun.
    + destruct (interpolate_dndlogd_gap_lookup _ _ _ _ _ He Hrun) as (Hij & _).
      split; [|split].
      * split; [intros _; exists i, j; split; [reflexivity|lia]|intros _; now exists sd].
      * split; [discriminate|]. intros (i' & j' & [= <- <-] & Hlt). lia.
      * split; [discriminate|]. intros H. now apply Hsome in H.
    + assert (Hji : (j < i)%nat /\ e = IndexError).
      { unfold interpolate_dndlogd_gap in Hrun. rewrite He in Hrun. cbn in Hrun.
        destruct (edge_bins_rows _ _ _ He) as [(ri & Hri & Hfi) (rj & Hrj & Hfj)].
        destruct (loc_slice i j sd_gapped) as [|r0 rest] eqn:Hs; [|discriminate].
        injection Hrun as <-. split; [|reflexivity].
        destruct (le_lt_dec i j) as [Hle|Hlt]; [exfalso|assumption].
        pose proof (loc_slice_length i j sd_gapped Hle) as Hlen.
        rewrite Hs in Hlen. cbn in Hlen.
        assert (j < length sd_gapped)%nat by (eapply lookup_lt_Some; eassumption).
        lia. }
      destruct Hji as [Hji ->]. split; [|split].
      * split; [intros [sd Hsd]; discriminate|].
        intros (i' & j' & [= <- <-] & Hlt). lia.
      * split; [intros _; now exists i, j|reflexivity].
      * split; [discriminate|]. intros H. now apply Hsome in H.
  - assert (Hrun : interpolate_dndlogd_gap sd_gapped edge_average_window = Raise e).
    { unfold interpolate_dndlogd_gap. now rewrite He. }
    assert (He' : e = ValueError
                  /\ (Forall (fun r => flag r <> smps) sd_gapped
                      \/ Forall (fun r => flag r <> aps) sd_gapped)).
    { unfold edge_bins in He.
      destruct (List.filter (fun ir : IRow => flag_is smps ir.2) (indexed sd_gapped))
        as [|p l] eqn:Hs.
      { cbn in He. injection He as <-. split; [reflexivity|]. left. now apply Hnone. }
      cbn in He.
      destruct (List.filter (fun ir : IRow => flag_is aps ir.2) (indexed sd_gapped))
        as [|q l'] eqn:Ha.
      { cbn in He. injection He as <-. split; [reflexivity|]. right. now apply Hnone. }
      discriminate. }
    destruct He' as [-> Hflags]. rewrite Hrun. split; [|split].
    + split; [intros [sd Hsd]; discriminate|intros (i & j & Hij & _); discriminate].
    + split; [discriminate|intros (i & j & Hij & _); discriminate].
    + split; [intros _; assumption|reflexivity].
Qed.

(** X8.  The frame across [interpolate_dndlogd_gap].  The result has the
    rows of the frame it was given, in the same places, each with all its
    columns but [dndlogd]; rows that are not strictly between the two edge
    rows, the edge rows among them (lines 112-113), are returned as they
    were. *)
Theorem interpolate_dndlogd_gap_frame (sd_gapped sd : Frame)
    (edge_average_window i j : nat) :
  interpolate_dndlogd_gap sd_gapped edge_average_window = Ok sd ->
  edge_bins sd_gapped = Ok (i, j) ->
  length sd = length sd_gapped
  /\ (forall k, ~ (i < k < j)%nat -> sd !! k = sd_gapped !! k)
  /\ forall k r, sd_gapped !! k = Some r -> exists v, sd !! k = Some (set_dndlogd v r).
Proof.
  intros Hrun He.
  destruct (interpolate_dndlogd_gap_lookup _ _ _ _ _ He Hrun) as (Hij & Hlen & Hlk).
  split; [assumption|]. split.
  - intros k Hk. destruct (sd_gapped !! k) as [r|] eqn:Hr.
    + rewrite (Hlk k r Hr). unfold gap_dndlogd.
      rewrite bool_decide_eq_false_2 by assumption. now rewrite set_dndlogd_same.
    + apply lookup_ge_None. apply lookup_ge_None in Hr. lia.
  - intros k r Hr. eexists. now apply Hlk.
Qed.

Lemma interpolate_dndlogd_gap_frame_witness :
  exists sd,
    interpolate_dndlogd_gap gapped_1_100 3 = Ok sd
    /\ length sd = length gapped_1_100
    /\ (forall k, ~ (1 < k < 3)%nat -> sd !! k = gapped_1_100 !! k)
    /\ forall k r, gapped_1_100 !! k = Some r ->
         exists v, sd !! k = Some (set_dndlogd v r).
Proof.
  assert (E : exists sd, interpolate_dndlogd_gap gapped_1_100 3 = Ok sd)
    by (eexists; vm_compute; reflexivity).
  destruct E as [sd E]. exists sd. split; [exact E|].
  apply (interpolate_dndlogd_gap_frame gapped_1_100 sd 3 1 3 E). reflexivity.
Defined.

(** ** The bins laid over the gap *)

Section GapFacts.

Variable log10 : Q -> Q.
Variable pow10 : Q -> Q.

(** X9.  The bins that [get_bin_boundaries_in_interval] lays over the gap,
    when there are as many lower as upper boundaries (what the frame of
    line 125 needs) and [log10] inverts the power at the exponents of
    [np.logspace].  Their number is the rounded product of the resolution
    and the decades of the interval, and is not zero; the first bin starts
    where [log10] equals that of [x_start]; the upper boundary of each bin
    is the lower boundary of the next, and that of the last bin is
    [x_end]; all bins have the same width on the logarithmic axis, the
    decades of the interval divided by the number of bins. *)
Theorem get_bin_boundaries_in_interval_tiles (x_start x_end res : Q)
    (bin_bound_lower bin_bound_upper : list Q) :
  let bin_num := Z.to_nat (py_round (res * (log10 x_end - log10 x_start))) in
  let step := (log10 x_end - log10 x_start) / inject_Z (Z.of_nat bin_num) in
  get_bin_boundaries_in_interval log10 pow10 x_start x_end (Some res)
    = Ok (bin_bound_lower, bin_bound_upper) ->
  length bin_bound_lower = length bin_bound_upper ->
  (forall i, (i < bin_num)%nat ->
     log10 (pow10 (inject_Z (Z.of_nat i) * step + log10 x_start))
     == inject_Z (Z.of_nat i) * step + log10 x_start) ->
  (0 < bin_num)%nat
  /\ length bin_bound_lower = bin_num
  /\ (exists b, bin_bound_lower !! 0%nat = Some b /\ log10 b == log10 x_start)
  /\ last bin_bound_upper = Some x_end
  /\ (forall i b, bin_bound_lower !! S i = Some b -> bin_bound_upper !! i = Some b)
  /\ forall i lo up,
       bin_bound_lower !! i = Some lo -> bin_bound_upper !! i = Some up ->
       log10 up - log10 lo == step.
Proof.
  intros bin_num step H Hlen Hinv. unfold get_bin_boundaries_in_interval in H.
  destruct (_ <? 0)%Z; [discriminate|]. fold bin_num in H.
  injection H as <- <-. clearbody bin_num.
  set (lower := logspace pow10 (log10 x_start) (log10 x_end) bin_num) in *.
  assert (Hl : length lower = bin_num) by apply logspace_length.
  assert (Hlk : forall i, (i < bin_num)%nat ->
            lower !! i = Some (pow10 (inject_Z (Z.of_nat i) * step + log10 x_start))).
  { intros i Hi. now apply logspace_lookup. }
  clearbody lower.
  assert (Hpos : (0 < bin_num)%nat).
  { rewrite length_app in Hlen. cbn in Hlen.
    destruct lower as [|a l]; cbn in Hlen, Hl; lia. }
  assert (Hup : forall i, (S i < bin_num)%nat ->
            (tail lower ++ [x_end]) !! i = lower !! S i).
  { intros i Hi. destruct lower as [|a l]; cbn in Hl |- *; [lia|].
    apply lookup_app_l. lia. }
  assert (Hlast : forall i, S i = bin_num -> (tail lower ++ [x_end]) !! i = Some x_end).
  { intros i Hi. destruct lower as [|a l]; cbn in Hl |- *; [lia|].
    rewrite lookup_app_r by lia. replace (i - length l)%nat with 0%nat by lia.
    reflexivity. }
  assert (Hn : ~ inject_Z (Z.of_nat bin_num) == 0).
  { intros H0. unfold Qeq in H0. cbn in H0. lia. }
  split; [assumption|]. split; [assumption|]. split.
  { eexists. split; [apply (Hlk 0%nat Hpos)|].
    rewrite (Hinv 0%nat Hpos). cbn. ring. }
  split; [apply last_snoc|]. split.
  { intros i b Hb. assert (S i < bin_num)%nat.
    { rewrite <- Hl. eapply lookup_lt_Some; eassumption. }
    now rewrite Hup. }
  intros i lo up Hlo Hu.
  assert (Hi : (i < bin_num)%nat) by (rewrite <- Hl; eapply lookup_lt_Some; eassumption).
  rewrite (Hlk i Hi) in Hlo. injection Hlo as <-. rewrite (Hinv i Hi).
  destruct (decide (S i = bin_num)) as [Heq|Hne].
  - rewrite (Hlast i Heq) in Hu. injection Hu as <-.
    assert (Hs : inject_Z (Z.of_nat bin_num) == inject_Z (Z.of_nat i) + 1).
    { rewrite <- Heq, Nat2Z.inj_succ. unfold Z.succ. rewrite inject_Z_plus. reflexivity. }
    assert (Hi1 : ~ inject_Z (Z.of_nat i) + 1 == 0) by now rewrite <- Hs.
    unfold step. rewrite Hs. field. exact Hi1.
  - assert (Hi' : (S i < bin_num)%nat) by lia.
    rewrite (Hup i Hi'), (Hlk (S i) Hi') in Hu. injection Hu as <-.
    rewrite (Hinv (S i) Hi'). rewrite Nat2Z.inj_succ. unfold Z.succ.
    rewrite inject_Z_plus. ring.
Qed.

Lemma get_channel_resolution_single (r : Row) :
  get_channel_resolution log10 [r] = None.
Proof.
  unfold get_channel_resolution. cbn.
  assert (Qeq_bool (log10 (dpes r) - log10 (dpes r)) 0 = true) as ->
    by (apply Qeq_bool_iff; ring).
  reflexivity.
Qed.

Lemma interpolate_gap_branch_no_resolution (sd_smps sd_aps sd_combined : Frame) :
  get_interpol_resolution log10 sd_smps sd_aps = None ->
  interpolate_gap_branch log10 pow10 sd_smps sd_aps sd_combined = Raise ValueError.
Proof.
  intros Hres. unfold interpolate_gap_branch. rewrite Hres.
  destruct (col_max _); [|reflexivity]. destruct (col_min _); reflexivity.
Qed.

(** X10.  A distribution of a single bin has no channel resolution, its
    centres spanning no decade: with a gap to fill, the combination raises
    [ValueError]. *)
Theorem combine_single_bin_gap_raises (sd_aps sd_smps : Frame) (merge_overlap : bool)
    (smps_hi aps_lo : Q) :
  py_max (map dpes_upper sd_smps) = Ok smps_hi ->
  py_min (map dpes_lower sd_aps) = Ok aps_lo ->
  smps_hi < aps_lo ->
  length sd_smps = 1%nat \/ length sd_aps = 1%nat ->
  combine_SMPS_APS_sd log10 pow10 sd_aps sd_smps merge_overlap true = Raise ValueError.
Proof.
  intros Hhi Hlo Hgap Hone. unfold combine_SMPS_APS_sd.
  rewrite tagged_dpes_upper, tagged_dpes_lower, Hhi, Hlo. cbn.
  assert (Qlt_bool smps_hi aps_lo = true) as -> by now apply Qlt_bool_iff.
  rewrite interpolate_gap_branch_no_resolution; [reflexivity|].
  unfold get_interpol_resolution. destruct Hone as [Hone|Hone].
  - destruct sd_smps as [|r [|? ?]]; try discriminate. cbn [map].
    now rewrite get_channel_resolution_single.
  - destruct sd_aps as [|r [|? ?]]; try discriminate. cbn [map].
    rewrite (get_channel_resolution_single (set_flag aps r)).
    now destruct (get_channel_resolution _ _).
Qed.

Lemma get_channel_resolution_tagged (f : Flag) (sd : Frame) :
  get_channel_resolution log10 (map (set_flag f) sd) = get_channel_resolution log10 sd.
Proof.
  unfold get_channel_resolution. rewrite length_map, map_map. reflexivity.
Qed.

(** X11.  A gap that is too narrow for a bin of the interpolation
    resolution is not skipped: when the number of bins, the rounded product
    of the resolution and the decades of the gap, is not positive, the
    combination raises [ValueError]. *)
Theorem combine_narrow_gap_raises (sd_aps sd_smps : Frame) (merge_overlap : bool)
    (smps_hi aps_lo res : Q) :
  py_max (map dpes_upper sd_smps) = Ok smps_hi ->
  py_min (map dpes_lower sd_aps) = Ok aps_lo ->
  smps_hi < aps_lo ->
  get_interpol_resolution log10 sd_smps sd_aps = Some res ->
  (py_round (res * (log10 aps_lo - log10 smps_hi)) <= 0)%Z ->
  combine_SMPS_APS_sd log10 pow10 sd_aps sd_smps merge_overlap true = Raise ValueError.
Proof.
  intros Hhi Hlo Hgap Hres Hnum. unfold combine_SMPS_APS_sd.
  rewrite tagged_dpes_upper, tagged_dpes_lower, Hhi, Hlo. cbn.
  assert (Qlt_bool smps_hi aps_lo = true) as -> by now apply Qlt_bool_iff.
  unfold interpolate_gap_branch.
  rewrite tagged_dpes_upper, tagged_dpes_lower.
  rewrite (py_max_col_max _ _ Hhi), (py_min_col_min _ _ Hlo).
  unfold get_interpol_resolution in *. rewrite !get_channel_resolution_tagged.
  destruct (get_channel_resolution log10 sd_smps + get_channel_resolution log10 sd_aps)%fl
    as [s|]; [|discriminate].
  assert (Hr : res = inject_Z (Qfloor (s / 2))) by (now injection Hres).
  clear Hres. subst res. unfold get_bin_boundaries_in_interval.
  destruct (_ <? 0)%Z eqn:Hneg; [reflexivity|].
  apply Z.ltb_ge in Hneg.
  replace (py_round _) with 0%Z by lia. reflexivity.
Qed.

End GapFacts.

Lemma get_bin_boundaries_in_interval_tiles_witness :
  exists bin_bound_lower bin_bound_upper,
    get_bin_boundaries_in_interval log10_pl pow10_pl 100000 10000000 (Some 1)
    = Ok (bin_bound_lower, bin_bound_upper)
    /\ (0 < Z.to_nat (py_round (1 * (log10_pl 10000000 - log10_pl 100000))))%nat
    /\ length bin_bound_lower
       = Z.to_nat (py_round (1 * (log10_pl 10000000 - log10_pl 100000)))
    /\ (exists b, bin_bound_lower !! 0%nat = Some b /\ log10_pl b == log10_pl 100000)
    /\ last bin_bound_upper = Some 10000000
    /\ (forall i b, bin_bound_lower !! S i = Some b -> bin_bound_upper !! i = Some b)
    /\ forall i lo up,
         bin_bound_lower !! i = Some lo -> bin_bound_upper !! i = Some up ->
         log10_pl up - log10_pl lo
         == (log10_pl 10000000 - log10_pl 100000)
            / inject_Z (Z.of_nat
                          (Z.to_nat (py_round (1 * (log10_pl 10000000
                                                    - log10_pl 100000))))).
Proof.
  assert (E : exists l u,
             get_bin_boundaries_in_interval log10_pl pow10_pl 100000 10000000 (Some 1)
             = Ok (l, u) /\ length l = length u)
    by (eexists _, _; split; [vm_compute; reflexivity|reflexivity]).
  destruct E as (l & u & E & Hlen). exists l, u. split; [exact E|].
  apply (get_bin_boundaries_in_interval_tiles log10_pl pow10_pl 100000 10000000 1
           l u E Hlen).
  intros i Hi. vm_compute in Hi.
  destruct i as [|[|i]]; [reflexivity|reflexivity|lia].
Defined.

Lemma combine_single_bin_gap_raises_witness :
  combine_SMPS_APS_sd log10_pl pow10_pl aps_decades
    [mkRow smps 10 1 100 (Some 5) (Some 0)] true true = Raise ValueError.
Proof.
  apply (combine_single_bin_gap_raises log10_pl pow10_pl aps_decades
           [mkRow smps 10 1 100 (Some 5) (Some 0)] true 100 1000000).
  - reflexivity.
  - reflexivity.
  - lra.
  - left. reflexivity.
Defined.

Lemma combine_narrow_gap_raises_witness :
  combine_SMPS_APS_sd log10_pl pow10_pl
    [mkRow aps 550000 110000 1000000 (Some 60) (Some 60);
     mkRow aps 5500000 1000000 10000000 (Some 70) (Some 70)]
    smps_five true true = Raise ValueError.
Proof.
  assert (E : exists res,
             get_interpol_resolution log10_pl smps_five
               [mkRow aps 550000 110000 1000000 (Some 60) (Some 60);
                mkRow aps 5500000 1000000 10000000 (Some 70) (Some 70)] = Some res
             /\ (py_round (res * (log10_pl 110000 - log10_pl 100000)) <= 0)%Z)
    by (eexists; split; [vm_compute; reflexivity|vm_compute; discriminate]).
  destruct E as (res & Hres & Hnum).
  apply (combine_narrow_gap_raises log10_pl pow10_pl
           [mkRow aps 550000 110000 1000000 (Some 60) (Some 60);
            mkRow aps 5500000 1000000 10000000 (Some 70) (Some 70)]
           smps_five true 100000 110000 res); try assumption.
  - reflexivity.
  - reflexivity.
  - lra.
Defined.


(** ** Lognormal distributions *)

Module DistributionsFacts.
Import Stdlib.Reals.Reals.
Import Distributions.
Local Open Scope R_scope.

Lemma ln_10_gt_0 : 0 < ln 10.
Proof. rewrite <- ln_1. apply ln_increasing; lra. Qed.

Lemma log10_1 : log10 1 = 0.
Proof. unfold log10. rewrite ln_1. field. pose proof ln_10_gt_0. lra. Qed.

Lemma log10_pos (x : R) : 1 < x -> 0 < log10 x.
Proof.
  intros Hx. unfold log10. apply Rdiv_lt_0_compat; [|apply ln_10_gt_0].
  rewrite <- ln_1. apply ln_increasing; lra.
Qed.

Lemma log10_inv (x : R) : 0 < x -> log10 (/ x) = - log10 x.
Proof.
  intros Hx. unfold log10. rewrite ln_Rinv by assumption. field.
  pose proof ln_10_gt_0. lra.
Qed.

Lemma sqrt_2_PI_pos : 0 < sqrt (2 * PI).
Proof. apply sqrt_lt_R0. pose proof PI_RGT_0. lra. Qed.

Lemma exp_neg_square_le_1 (a b : R) :
  0 < b -> exp (- a ^ 2 / (2 * b ^ 2)) <= 1.
Proof.
  intros Hb. rewrite <- exp_0.
  assert (Hinv : 0 < / (2 * b ^ 2)) by (apply Rinv_0_lt_compat; nra).
  assert (Hexp : - a ^ 2 / (2 * b ^ 2) <= 0) by (unfold Rdiv; nra).
  destruct Hexp as [Hlt|Heq];
    [left; now apply exp_increasing|right; now rewrite Heq].
Qed.

(** X15.  The distribution has its maximum at the median [mu], where it takes
    the value [tot / (log10(sig) * sqrt(2 pi))]. *)
Theorem lognormal_peak_at_median (x mu sig tot : R) :
  0 < x ->
  0 < mu ->
  1 < sig ->
  0 <= tot ->
  lognormal mu mu sig tot = tot / (log10 sig * sqrt (2 * PI))
  /\ lognormal x mu sig tot <= lognormal mu mu sig tot.
Proof.
  intros _ Hmu Hsig Htot.
  pose proof (log10_pos sig Hsig) as Hl. pose proof sqrt_2_PI_pos as Hs.
  assert (Hpre : 0 <= tot / (log10 sig * sqrt (2 * PI))).
  { apply Rmult_le_pos; [assumption|]. apply Rlt_le, Rinv_0_lt_compat. nra. }
  assert (Hpeak : lognormal mu mu sig tot = tot / (log10 sig * sqrt (2 * PI))).
  { unfold lognormal. replace (mu / mu) with 1 by (field; lra).
    rewrite log10_1.
    replace (- 0 ^ 2 / (2 * log10 sig ^ 2)) with 0 by (field; lra).
    rewrite exp_0. ring. }
  split; [exact Hpeak|]. rewrite Hpeak. unfold lognormal.
  rewrite <- (Rmult_1_r (tot / (log10 sig * sqrt (2 * PI)))) at 2.
  apply Rmult_le_compat_l; [assumption|].
  now apply exp_neg_square_le_1.
Qed.

Lemma lognormal_peak_at_median_witness :
  lognormal 2 2 10 5 = 5 / (log10 10 * sqrt (2 * PI))
  /\ lognormal 3 2 10 5 <= lognormal 2 2 10 5.
Proof. apply (lognormal_peak_at_median 3 2 10 5); lra. Defined.

(** X16.  The distribution is symmetric about the median on the logarithmic
    axis: a factor [k] above [mu] and a factor [k] below it weigh the
    same. *)
Theorem lognormal_log_symmetric (k mu sig tot : R) :
  0 < mu ->
  0 < k ->
  lognormal (mu * k) mu sig tot = lognormal (mu / k) mu sig tot.
Proof.
  intros Hmu Hk. unfold lognormal.
  replace (mu * k / mu) with k by (field; lra).
  replace (mu / k / mu) with (/ k) by (field; lra).
  rewrite (log10_inv k Hk).
  replace ((- log10 k) ^ 2) with (log10 k ^ 2) by ring. reflexivity.
Qed.

Lemma lognormal_log_symmetric_witness :
  lognormal (2 * 3) 2 10 5 = lognormal (2 / 3) 2 10 5.
Proof. apply (lognormal_log_symmetric 3 2 10 5); lra. Defined.

(** X17.  The geometric standard deviation enters through [log10(sig)] itself:
    [1 / sig] in the place of [sig] changes the sign of the distribution,
    which is negative for [sig] below 1. *)
Theorem lognormal_inverse_sig (x mu sig tot : R) :
  0 < x ->
  0 < mu ->
  0 < sig ->
  sig <> 1 ->
  lognormal x mu (/ sig) tot = - lognormal x mu sig tot.
Proof.
  intros _ _ Hsig Hne. unfold lognormal. rewrite (log10_inv sig Hsig).
  replace ((- log10 sig) ^ 2) with (log10 sig ^ 2) by ring.
  assert (Hl : log10 sig <> 0).
  { unfold log10. intros H0. apply Hne.
    apply Rmult_eq_compat_r with (r := ln 10) in H0.
    unfold Rdiv in H0. rewrite Rmult_assoc, Rinv_l, Rmult_1_r, Rmult_0_l in H0
      by (pose proof ln_10_gt_0; lra).
    apply ln_inv; [assumption|lra|]. now rewrite ln_1. }
  pose proof sqrt_2_PI_pos as Hs.
  field. split; lra.
Qed.

Lemma lognormal_inverse_sig_witness :
  lognormal 3 2 (/ 10) 5 = - lognormal 3 2 10 5.
Proof. apply (lognormal_inverse_sig 3 2 10 5); lra. Defined.

(** X18.  A bilognormal distribution is the sum of the lognormal
    distributions of its two modes, as the docstring has it, and never
    exceeds the sum of their peaks. *)
Theorem bilognormal_superposition (x mu1 sig1 N1 mu2 sig2 N2 : R) :
  0 < x ->
  0 < mu1 -> 1 < sig1 -> 0 <= N1 ->
  0 < mu2 -> 1 < sig2 -> 0 <= N2 ->
  bilognormal x mu1 sig1 N1 mu2 sig2 N2
  = lognormal x mu1 sig1 N1 + lognormal x mu2 sig2 N2
  /\ bilognormal x mu1 sig1 N1 mu2 sig2 N2
     <= N1 / (log10 sig1 * sqrt (2 * PI)) + N2 / (log10 sig2 * sqrt (2 * PI)).
Proof.
  intros _ _ Hs1 HN1 _ Hs2 HN2. split; [reflexivity|]. unfold bilognormal.
  pose proof sqrt_2_PI_pos as Hs.
  assert (Hmode : forall a sig N, 1 < sig -> 0 <= N ->
            N / (log10 sig * sqrt (2 * PI)) * exp (- a ^ 2 / (2 * log10 sig ^ 2))
            <= N / (log10 sig * sqrt (2 * PI))).
  { intros a sig N Hsig HN. pose proof (log10_pos sig Hsig) as Hl.
    rewrite <- (Rmult_1_r (N / (log10 sig * sqrt (2 * PI)))) at 2.
    apply Rmult_le_compat_l.
    - apply Rmult_le_pos; [assumption|]. apply Rlt_le, Rinv_0_lt_compat. nra.
    - now apply exp_neg_square_le_1. }
  apply Rplus_le_compat; now apply Hmode.
Qed.

Lemma bilognormal_superposition_witness :
  bilognormal 3 2 10 5 4 100 7 = lognormal 3 2 10 5 + lognormal 3 4 100 7
  /\ bilognormal 3 2 10 5 4 100 7
     <= 5 / (log10 10 * sqrt (2 * PI)) + 7 / (log10 100 * sqrt (2 * PI)).
Proof. apply (bilognormal_superposition 3 2 10 5 4 100 7); lra. Defined.

End DistributionsFacts.
